(** * Tissa: a shallow embedding of the time-series storage engine

    The development follows the Go sources: [internal/archive.go] (chunks and
    archives) and [tissa.go] (the series, its rollup cascade and its queries).

    Modelling conventions.
    - [int64] values are integers of [Z]; every arithmetic operation of the
      source is written with its two's-complement wrap-around ([Int64.add],
      [Int64.sub], ...).  Go's [/] and [%] truncate toward zero ([Z.quot],
      [Z.rem]) and panic on a zero divisor.
    - [float64] values are Rocq's primitive binary64 floats.
    - A Go call either returns, panics, or loops; [result] records which.
      Loops carry a [fuel] bound: a loop that is not finished when the fuel is
      spent yields [OutOfFuel].
    - Go maps are [gmap]s.  A [for ... range] over a map visits the entries in
      the order of [map_to_list]; Go leaves the order unspecified.
    - A nil pointer, nil map or nil slot is [None].
    - The directory of an archive is the field [disk] of the archive: the
      header file and the chunk files, keyed by the number they are named
      after.  Encoding followed by decoding is the identity on the exported
      fields (unexported fields are lost); creating and writing a file
      succeeds; opening a file fails exactly when it is absent. *)

From Stdlib Require Import ZArith Lia Floats Uint63.
From stdpp Require Import base option list gmap strings sorting pretty.

Open Scope Z_scope.

(** ** Outcomes of a call *)

Inductive result (A : Type) : Type :=
| Ok (a : A)
| Err (msg : string)
| Panic
| OutOfFuel.
Arguments Ok {A} a.
Arguments Err {A} msg.
Arguments Panic {A}.
Arguments OutOfFuel {A}.

#[global] Instance result_ret : MRet result := fun A a => Ok a.
#[global] Instance result_bind : MBind result := fun A B f m =>
  match m with
  | Ok a => f a
  | Err e => Err e
  | Panic => Panic
  | OutOfFuel => OutOfFuel
  end.

#[global] Instance result_fmap : FMap result := fun A B f m =>
  match m with
  | Ok a => Ok (f a)
  | Err e => Err e
  | Panic => Panic
  | OutOfFuel => OutOfFuel
  end.

Definition is_Ok {A} (r : result A) : Prop := exists a, r = Ok a.

(** ** 64-bit signed integers *)

Module Int64.

Definition min_int : Z := - 2 ^ 63.
Definition max_int : Z := 2 ^ 63 - 1.

Definition in_range (z : Z) : Prop := min_int <= z <= max_int.

Definition wrap (z : Z) : Z := (z + 2 ^ 63) mod 2 ^ 64 - 2 ^ 63.

Definition add (a b : Z) : Z := wrap (a + b).
Definition sub (a b : Z) : Z := wrap (a - b).
Definition mul (a b : Z) : Z := wrap (a * b).

(** [a / b]: truncated division; a zero divisor panics. *)
Definition quo (a b : Z) : result Z :=
  if b =? 0 then Panic else Ok (wrap (Z.quot a b)).

(** [a % b]: the remainder has the sign of [a]; a zero divisor panics. *)
Definition rem (a b : Z) : result Z :=
  if b =? 0 then Panic else Ok (Z.rem a b).

(** [float64(n)] for a positive count. *)
Definition to_float (n : Z) : float := PrimFloat.of_uint63 (Uint63.of_Z n).

End Int64.

(** ** Payloads *)

Record Rollup : Type := mkRollup {
  Total : float;
  Count : Z;
  Min : float;
  Max : float
}.

(** The zero value [Rollup{}]. *)
Definition Rollup_zero : Rollup :=
  {| Total := 0%float; Count := 0; Min := 0%float; Max := 0%float |}.

(** The values held in an [interface{}]: a [float64] in the base archive, a
    [Rollup] in the coarser ones. *)
Inductive payload : Type :=
| VFloat (f : float)
| VRollup (r : Rollup).

(** The type assertions [v.(float64)] and [v.(Rollup)]. *)
Definition as_float (v : payload) : result float :=
  match v with VFloat f => Ok f | VRollup _ => Panic end.
Definition as_Rollup (v : payload) : result Rollup :=
  match v with VRollup r => Ok r | VFloat _ => Panic end.

(** A slot of a chunk: [map[int]interface{}], nil when there is no
    observation. *)
Abbreviation slot := (option (gmap nat payload)).

(** [replace_last l x]: the slice [l] after [l[len(l)-1] = x]. *)
Definition replace_last {A} (l : list A) (x : A) : list A :=
  take (length l - 1)%nat l ++ [x].

(** ** Chunks *)

Module Chunk.

Record chunk : Type := mkChunk {
  StartTime : Z;
  EndTime : Z;
  Resolution : Z;
  Data : list slot;
  Tags : list string;
  tagMap : option (gmap string nat);
  dirty : bool
}.

Definition newChunk (resolution startTime : Z) : chunk :=
  {| StartTime := startTime; EndTime := 0; Resolution := resolution;
     Data := []; Tags := []; tagMap := Some ∅; dirty := true |}.

Definition set_Data (c : chunk) (d : list slot) : chunk :=
  {| StartTime := StartTime c; EndTime := EndTime c;
     Resolution := Resolution c; Data := d; Tags := Tags c;
     tagMap := tagMap c; dirty := dirty c |}.

(** One iteration of the loops that extend a chunk: [c.Data = append(c.Data,
    v); c.EndTime = ts; c.dirty = true]. *)
Definition push_fill (c : chunk) (v : slot) (ts : Z) : chunk :=
  {| StartTime := StartTime c; EndTime := ts;
     Resolution := Resolution c; Data := Data c ++ [v]; Tags := Tags c;
     tagMap := tagMap c; dirty := true |}.

Definition empty (c : chunk) : bool := EndTime c =? 0.

Definition latestRaw (c : chunk) : slot :=
  match last (Data c) with
  | Some s => s
  | None => None
  end.

(** The loop of [fillTo]. *)
Fixpoint fillLoop (fuel : nat) (fillVal : slot) (timestamp ts : Z)
    (c : chunk) : result chunk :=
  if ts <? timestamp then
    match fuel with
    | O => OutOfFuel
    | S fuel' =>
        fillLoop fuel' fillVal timestamp (Int64.add ts (Resolution c))
          (push_fill c fillVal ts)
    end
  else Ok c.

Definition fillTo (fuel : nat) (c : chunk) (timestamp : Z) : result chunk :=
  numToFill ← Int64.quo (Int64.sub timestamp (EndTime c)) (Resolution c);
  let ts := Int64.add (EndTime c) (Resolution c) in
  let fillVal := if numToFill <? 3 then latestRaw c else None in
  fillLoop fuel fillVal timestamp ts c.

(** [c.Tags[i]] *)
Definition tag_at (c : chunk) (i : nat) : result string :=
  match Tags c !! i with
  | Some tag => Ok tag
  | None => Panic
  end.

(** The loop shared by [latest] and [resolveTags]: re-key by tag name. *)
Fixpoint resolve_list {V} (c : chunk) (l : list (nat * V))
    (ret : gmap string V) : result (gmap string V) :=
  match l with
  | [] => Ok ret
  | (i, v) :: l' =>
      tag ← tag_at c i;
      resolve_list c l' (<[tag := v]> ret)
  end.

Definition latest (c : chunk) : result (option (gmap string payload)) :=
  match latestRaw c with
  | None => Ok None
  | Some raw => ret ← resolve_list c (map_to_list raw) ∅; Ok (Some ret)
  end.

Definition resolveTags (c : chunk) (val : gmap nat (list (option payload)))
    : result (gmap string (list (option payload))) :=
  resolve_list c (map_to_list val) ∅.

(** One iteration of the loop of [derefTags].  Reading a nil [tagMap] finds
    nothing; writing to it panics. *)
Definition deref_step (c : chunk) (ret : gmap nat payload)
    (tag : string) (v : payload) : result (chunk * gmap nat payload) :=
  match tagMap c ≫= (.!! tag) with
  | Some i => Ok (c, <[i := v]> ret)
  | None =>
      match tagMap c with
      | None => Panic
      | Some tm =>
          let i := length (Tags c) in
          Ok ({| StartTime := StartTime c; EndTime := EndTime c;
                 Resolution := Resolution c; Data := Data c;
                 Tags := Tags c ++ [tag];
                 tagMap := Some (<[tag := i]> tm); dirty := dirty c |},
              <[i := v]> ret)
      end
  end.

Fixpoint deref_list (l : list (string * payload)) (c : chunk)
    (ret : gmap nat payload) : result (chunk * gmap nat payload) :=
  match l with
  | [] => Ok (c, ret)
  | (tag, v) :: l' =>
      '(c', ret') ← deref_step c ret tag v;
      deref_list l' c' ret'
  end.

(** [derefTags] interns the tags of [val]; the chunk is returned with its
    extended tag table. *)
Definition derefTags (c : chunk) (val : gmap string payload)
    : result (chunk * gmap nat payload) :=
  deref_list (map_to_list val) c ∅.

(** The loop of [append] that pads an empty chunk with nil slots. *)
Fixpoint padLoop (fuel : nat) (timestamp ts : Z) (c : chunk)
    : result chunk :=
  if ts <? timestamp then
    match fuel with
    | O => OutOfFuel
    | S fuel' =>
        padLoop fuel' timestamp (Int64.add ts (Resolution c))
          (set_Data c (Data c ++ [None]))
    end
  else Ok c.

Definition append (fuel : nat) (c : chunk) (val : gmap string payload)
    (timestamp : Z) : result chunk :=
  if timestamp <? EndTime c then Ok c
  else if timestamp =? EndTime c then
    match last (Data c) with
    | None => Panic
    | Some latest =>
        '(c', m) ← derefTags c val;
        match latest with
        | None =>
            if decide (m = ∅) then Ok c' else Panic
        | Some lm => Ok (set_Data c' (replace_last (Data c') (Some (m ∪ lm))))
        end
    end
  else
    c1 ← (if negb (empty c)
              && (Int64.add (EndTime c) (Resolution c) <? timestamp)
          then fillTo fuel c timestamp else Ok c);
    c2 ← (if empty c1 && negb (timestamp =? StartTime c1)
          then padLoop fuel timestamp (StartTime c1) c1 else Ok c1);
    '(c3, m) ← derefTags c2 val;
    Ok (push_fill c3 (Some m) timestamp).

Definition tsIndex (c : chunk) (ts : Z) : result Z :=
  Int64.quo (Int64.sub ts (StartTime c)) (Resolution c).

(** [ser[i] = val] on a slice. *)
Definition store {A} (l : list A) (i : Z) (x : A) : result (list A) :=
  if (0 <=? i) && (i <? Z.of_nat (length l))
  then Ok (<[Z.to_nat i := x]> l) else Panic.

(** The inner loop of [getData]: copy one tick into the per-tag series. *)
Fixpoint copyTick (l : nat) (i : Z) (tick : list (nat * payload))
    (data : gmap nat (list (option payload)))
    : result (gmap nat (list (option payload))) :=
  match tick with
  | [] => Ok data
  | (tag, val) :: tick' =>
      let ser := default (replicate l None) (data !! tag) in
      ser' ← store ser i (Some val);
      copyTick l i tick' (<[tag := ser']> data)
  end.

Fixpoint getLoop (fuel : nat) (c : chunk) (l : nat) (endTime ct i : Z)
    (data : gmap nat (list (option payload))) (stamps : list Z)
    : result (gmap nat (list (option payload)) * list Z) :=
  if ct <? endTime then
    match fuel with
    | O => OutOfFuel
    | S fuel' =>
        idx ← tsIndex c ct;
        data' ← (if (0 <=? idx) && (idx <? Z.of_nat (length (Data c)))
                 then match Data c !! Z.to_nat idx with
                      | Some (Some tick) =>
                          copyTick l i (map_to_list tick) data
                      | _ => Ok data
                      end
                 else Ok data);
        stamps' ← store stamps i ct;
        getLoop fuel' c l endTime (Int64.add ct (Resolution c)) (Int64.add i 1)
          data' stamps'
    end
  else Ok (data, stamps).

Definition getData (fuel : nat) (c : chunk) (startTime endTime : Z)
    : result (gmap string (list (option payload)) * list Z) :=
  l ← Int64.quo (Int64.sub endTime startTime) (Resolution c);
  if l <? 0 then Panic
  else
    '(data, stamps) ← getLoop fuel c (Z.to_nat l) endTime startTime 0 ∅
                        (replicate (Z.to_nat l) 0);
    data' ← resolveTags c data;
    Ok (data', stamps).

End Chunk.

(** ** Archives *)

Module Archive.

Import Chunk.

(** The exported fields of a chunk, as encoded in a chunk file. *)
Record chunk_file : Type := mkChunkFile {
  cf_StartTime : Z;
  cf_EndTime : Z;
  cf_Resolution : Z;
  cf_Data : list slot;
  cf_Tags : list string
}.

Definition encode_chunk (c : chunk) : chunk_file :=
  {| cf_StartTime := Chunk.StartTime c; cf_EndTime := Chunk.EndTime c;
     cf_Resolution := Resolution c; cf_Data := Data c; cf_Tags := Tags c |}.

(** Decoding into a fresh [chunk]: [tagMap] stays nil, [dirty] false. *)
Definition decode_chunk (f : chunk_file) : chunk :=
  {| Chunk.StartTime := cf_StartTime f; Chunk.EndTime := cf_EndTime f;
     Resolution := cf_Resolution f; Data := cf_Data f; Tags := cf_Tags f;
     tagMap := None; dirty := false |}.

(** The exported fields of an archive, as encoded in the file [archive]. *)
Record header : Type := mkHeader {
  h_Interval : Z;
  h_ChunkSize : Z;
  h_Dir : string;
  h_Retention : Z;
  h_StartTime : Z;
  h_EndTime : Z
}.

(** The contents of an archive's directory. *)
Record directory : Type := mkDirectory {
  archive_file : option header;
  chunk_files : gmap Z chunk_file
}.

Definition empty_directory : directory :=
  {| archive_file := None; chunk_files := ∅ |}.

Record Archive : Type := mkArchive {
  Interval : Z;
  ChunkSize : Z;
  Dir : string;
  Retention : Z;
  StartTime : Z;
  EndTime : Z;
  chunks : list (option chunk);
  lastWrite : Z;
  disk : directory
}.

Definition NewArchive (dirPath : string) (interval retention chunkSize : Z)
    : Archive :=
  {| Interval := interval; ChunkSize := chunkSize; Dir := dirPath;
     Retention := retention; StartTime := 0; EndTime := 0; chunks := [];
     lastWrite := 0; disk := empty_directory |}.

Definition set_chunks (a : Archive) (cs : list (option chunk)) : Archive :=
  {| Interval := Interval a; ChunkSize := ChunkSize a; Dir := Dir a;
     Retention := Retention a; StartTime := StartTime a;
     EndTime := EndTime a; chunks := cs; lastWrite := lastWrite a;
     disk := disk a |}.

Definition set_times (a : Archive) (startTime endTime : Z) : Archive :=
  {| Interval := Interval a; ChunkSize := ChunkSize a; Dir := Dir a;
     Retention := Retention a; StartTime := startTime;
     EndTime := endTime; chunks := chunks a; lastWrite := lastWrite a;
     disk := disk a |}.

Definition set_lastWrite (a : Archive) (t : Z) : Archive :=
  {| Interval := Interval a; ChunkSize := ChunkSize a; Dir := Dir a;
     Retention := Retention a; StartTime := StartTime a;
     EndTime := EndTime a; chunks := chunks a; lastWrite := t;
     disk := disk a |}.

Definition set_disk (a : Archive) (d : directory) : Archive :=
  {| Interval := Interval a; ChunkSize := ChunkSize a; Dir := Dir a;
     Retention := Retention a; StartTime := StartTime a;
     EndTime := EndTime a; chunks := chunks a; lastWrite := lastWrite a;
     disk := d |}.

Definition header_of (a : Archive) : header :=
  {| h_Interval := Interval a; h_ChunkSize := ChunkSize a; h_Dir := Dir a;
     h_Retention := Retention a; h_StartTime := StartTime a;
     h_EndTime := EndTime a |}.

(** [writeObject] of a chunk, of the header; [os.Remove] of a chunk file. *)
Definition write_chunk (d : directory) (name : Z) (c : chunk) : directory :=
  {| archive_file := archive_file d;
     chunk_files := <[name := encode_chunk c]> (chunk_files d) |}.
Definition write_header (d : directory) (h : header) : directory :=
  {| archive_file := Some h; chunk_files := chunk_files d |}.
Definition remove_chunk (d : directory) (name : Z) : directory :=
  {| archive_file := archive_file d;
     chunk_files := delete name (chunk_files d) |}.

(** Round up to the nearest resolution. *)
Definition tsNorm (a : Archive) (timestamp : Z) : result Z :=
  r ← Int64.rem timestamp (Interval a);
  let ts := Int64.sub timestamp r in
  if ts <? timestamp then Ok (Int64.add ts (Interval a)) else Ok ts.

Definition lastChunk (a : Archive) : option chunk :=
  match last (chunks a) with
  | Some c => c
  | None => None
  end.

Definition chunkStart (a : Archive) (ts : Z) : result Z :=
  r ← Int64.rem ts (ChunkSize a);
  Ok (Int64.sub ts r).

Definition chunkEnd (a : Archive) (ts : Z) : result Z :=
  s ← chunkStart a ts;
  Ok (Int64.sub (Int64.add s (ChunkSize a)) (Interval a)).

(** [boundaryCheck] dereferences the last chunk. *)
Definition boundaryCheck (a : Archive) (ts : Z) : result bool :=
  match lastChunk a with
  | None => Panic
  | Some c => e ← chunkEnd a (Chunk.StartTime c); Ok (e <? ts)
  end.

Fixpoint exerciseRetention (fuel : nat) (a : Archive) : result Archive :=
  if Retention a <? Int64.sub (EndTime a) (StartTime a) then
    match fuel with
    | O => OutOfFuel
    | S fuel' =>
        s ← chunkStart a (StartTime a);
        exerciseRetention fuel'
          (set_times (set_disk a (remove_chunk (disk a) s))
             (Int64.add s (ChunkSize a)) (EndTime a))
    end
  else Ok a.

(** The loop of [Write] over the chunks held in memory. *)
Fixpoint writeChunks (a : Archive) (cs : list (option chunk))
    (d : directory) : result directory :=
  match cs with
  | [] => Ok d
  | None :: _ => Panic
  | Some c :: cs' =>
      if dirty c then
        name ← chunkStart a (Chunk.StartTime c);
        writeChunks a cs' (write_chunk d name c)
      else writeChunks a cs' d
  end.

Definition Write (fuel : nat) (a : Archive) : result Archive :=
  a1 ← (if lastWrite a <? EndTime a then
          d ← writeChunks a (chunks a) (disk a);
          exerciseRetention fuel
            (set_chunks (set_disk a d) [lastChunk a])
        else Ok a);
  let a2 := set_lastWrite a1 (EndTime a1) in
  Ok (set_disk a2 (write_header (disk a2) (header_of a2))).

(** The first half of [Append]: the chunk [lc] that receives the sample,
    and the chunks that precede it in [a.chunks]. *)
Definition appendTarget (fuel : nat) (a : Archive) (timestamp : Z)
    : result (chunk * list (option chunk)) :=
  match lastChunk a with
  | None =>
      r ← Int64.rem timestamp (ChunkSize a);
      let startChunk := Int64.sub timestamp r in
      Ok (newChunk (Interval a) startChunk, [])
  | Some lc =>
      b ← boundaryCheck a timestamp;
      if b : bool then
        nextStart ← chunkStart a timestamp;
        e ← chunkEnd a (Chunk.StartTime lc);
        lc' ← (if Chunk.EndTime lc <? e then fillTo fuel lc nextStart
               else Ok lc);
        Ok (newChunk (Interval a) nextStart,
            replace_last (chunks a) (Some lc'))
      else Ok (lc, take (length (chunks a) - 1)%nat (chunks a))
  end.

Definition Append (fuel : nat) (a : Archive) (val : gmap string payload)
    (timestamp : Z) : result Archive :=
  timestamp ← tsNorm a timestamp;
  '(lc, rest) ← appendTarget fuel a timestamp;
  lc' ← Chunk.append fuel lc val timestamp;
  let a' := set_chunks a (rest ++ [Some lc']) in
  Ok (set_times a' (if StartTime a =? 0 then timestamp else StartTime a)
        timestamp).

Definition Latest (a : Archive)
    : result (option (gmap string payload) * Z) :=
  match lastChunk a with
  | None => Ok (None, 0)
  | Some lc => m ← latest lc; Ok (m, Chunk.EndTime lc)
  end.

(** The first loop of [GetData]: [stamps[i] = t; t += a.Interval]. *)
Fixpoint stampsFrom (interval t : Z) (n : nat) : list Z :=
  match n with
  | O => []
  | S n' => t :: stampsFrom interval (Int64.add t interval) n'
  end.

Fixpoint findChunk (cs : list (option chunk)) (ts : Z)
    : result (option chunk) :=
  match cs with
  | [] => Ok None
  | None :: _ => Panic
  | Some c :: cs' =>
      if Chunk.StartTime c =? ts then Ok (Some c) else findChunk cs' ts
  end.

(** [None] stands for the error of a chunk file that cannot be opened. *)
Definition getChunkByStartTime (a : Archive) (ts : Z)
    : result (option chunk) :=
  found ← findChunk (chunks a) ts;
  match found with
  | Some c => Ok (Some c)
  | None => Ok (decode_chunk <$> chunk_files (disk a) !! ts)
  end.

(** [for j := 0; j < len(ticks); j++ { exst[i + int64(j)] = ticks[j] }] *)
Fixpoint splice {A} (exst : list A) (i : Z) (ticks : list A)
    : result (list A) :=
  match ticks with
  | [] => Ok exst
  | x :: ticks' =>
      exst' ← store exst i x;
      splice exst' (Int64.add i 1) ticks'
  end.

Fixpoint mergeChunkData (l : nat) (i : Z)
    (chunkData : list (string * list (option payload)))
    (data : gmap string (list (option payload)))
    : result (gmap string (list (option payload))) :=
  match chunkData with
  | [] => Ok data
  | (key, ticks) :: rest =>
      let exst := default (replicate l None) (data !! key) in
      exst' ← splice exst i ticks;
      mergeChunkData l i rest (<[key := exst']> data)
  end.

Fixpoint chunkLoop (fuel : nat) (a : Archive) (l : nat)
    (startTime endTime chunkStart i : Z)
    (data : gmap string (list (option payload)))
    : result (gmap string (list (option payload))) :=
  if chunkStart <? endTime then
    match fuel with
    | O => OutOfFuel
    | S fuel' =>
        let cStart := if chunkStart <? startTime then startTime
                      else chunkStart in
        let cEnd0 := Int64.add chunkStart (ChunkSize a) in
        let cEnd := if endTime <? cEnd0 then endTime else cEnd0 in
        found ← getChunkByStartTime a chunkStart;
        data' ← match found with
                | Some c =>
                    '(chunkData, _) ← getData fuel c cStart cEnd;
                    mergeChunkData l i (map_to_list chunkData) data
                | None => Ok data
                end;
        step ← Int64.quo (Int64.sub cEnd cStart) (Interval a);
        chunkLoop fuel' a l startTime endTime
          (Int64.add chunkStart (ChunkSize a)) (Int64.add i step) data'
    end
  else Ok data.

Definition GetData (fuel : nat) (a : Archive) (startTime endTime : Z)
    : result (gmap string (list (option payload)) * list Z) :=
  startTime ← tsNorm a startTime;
  endTime ← tsNorm a endTime;
  l ← Int64.quo (Int64.sub endTime startTime) (Interval a);
  chunkStart ← chunkStart a startTime;
  if l <? 0 then Panic
  else
    let stamps := stampsFrom (Interval a) startTime (Z.to_nat l) in
    data ← chunkLoop fuel a (Z.to_nat l) startTime endTime chunkStart 0 ∅;
    Ok (data, stamps).

(** [OpenArchive].  The header is decoded into a fresh [Archive]: [chunks]
    is nil and [lastWrite] is 0.  When [EndTime > 0] the file of the chunk
    that holds [EndTime] is decoded and becomes the only chunk in memory.  A
    file that does not exist is the error of [os.Open]. *)
Definition open_header (d : directory) (h : header) : Archive :=
  {| Interval := h_Interval h; ChunkSize := h_ChunkSize h; Dir := h_Dir h;
     Retention := h_Retention h; StartTime := h_StartTime h;
     EndTime := h_EndTime h; chunks := []; lastWrite := 0; disk := d |}.

Definition OpenArchive (d : directory) : result Archive :=
  match archive_file d with
  | None => Err "open archive: no such file or directory"
  | Some h =>
      let archive := open_header d h in
      if 0 <? EndTime archive then
        lastChunkTs ← chunkStart archive (EndTime archive);
        match chunk_files d !! lastChunkTs with
        | None => Err "open chunk: no such file or directory"
        | Some f => Ok (set_chunks archive [Some (decode_chunk f)])
        end
      else Ok archive
  end.

End Archive.

(** ** The series *)

Module Tissa.

Definition SECOND : Z := 1.
Definition MINUTE : Z := 60.
Definition HOUR : Z := 60 * MINUTE.
Definition DAY : Z := 24 * HOUR.

Definition chunkSizeSlots : Z := 2000.

Record ArchiveConfig : Type := mkArchiveConfig {
  Resolution : Z;
  Retention : Z
}.

Record TimeSeriesConfig : Type := mkConfig {
  Archives : list ArchiveConfig;
  DefaultValue : float
}.

Record TimeSeries : Type := mkTimeSeries {
  archives : list Archive.Archive;
  config : TimeSeriesConfig;
  LastWritten : Z
}.

Definition set_archives (t : TimeSeries) (l : list Archive.Archive)
    : TimeSeries :=
  {| archives := l; config := config t; LastWritten := LastWritten t |}.

(** [t.archives[0]] *)
Definition baseArchive (t : TimeSeries) : result Archive.Archive :=
  match archives t with
  | a :: _ => Ok a
  | [] => Panic
  end.

(** The order [sort.Slice] is called with. *)
Definition config_le (x y : ArchiveConfig) : Prop :=
  Resolution x <= Resolution y.
#[global] Instance config_le_dec x y : Decision (config_le x y).
Proof. unfold config_le. apply _. Defined.

(** The loop of [NewTimeSeries].  [made] holds the names of the
    subdirectories created so far: [os.Mkdir] fails on a name that exists. *)
Fixpoint newArchives (fuel : nat) (dir : string) (last : Z) (made : gset Z)
    (cfgs : list ArchiveConfig) : result (list Archive.Archive) :=
  match cfgs with
  | [] => Ok []
  | a :: cfgs' =>
      r ← Int64.rem (Resolution a) last;
      if negb (r =? 0) then
        Err "each archive resolution must be divisible by all smaller ones"
      else if decide (Resolution a ∈ made) then
        Err "mkdir: file exists"
      else
        let fp := dir +:+ "/" +:+ pretty (Resolution a) in
        arch ← Archive.Write fuel
                 (Archive.NewArchive fp (Resolution a) (Retention a)
                    (Int64.mul chunkSizeSlots (Resolution a)));
        rest ← newArchives fuel dir (Resolution a)
                 ({[Resolution a]} ∪ made) cfgs';
        Ok (arch :: rest)
  end.

Definition NewTimeSeries (fuel : nat) (dir : string)
    (config : TimeSeriesConfig) : result TimeSeries :=
  match Archives config with
  | [] => Err "config must specify at least one archive"
  | _ =>
      let config' := {| Archives := merge_sort config_le (Archives config);
                        DefaultValue := DefaultValue config |} in
      archs ← newArchives fuel dir 1 ∅ (Archives config');
      Ok {| archives := archs; config := config'; LastWritten := 0 |}
  end.

(** The body of the inner loop of [rollupRawData]. *)
Definition rawStep (r : Rollup) (first : bool) (f : float) : Rollup :=
  {| Total := PrimFloat.add (Total r) f;
     Count := Int64.add (Count r) 1;
     Min := if first || PrimFloat.ltb f (Min r) then f else Min r;
     Max := if first || PrimFloat.ltb (Max r) f then f else Max r |}.

Fixpoint rawLoop (v : list (option payload)) (r : Rollup) (first : bool)
    : result Rollup :=
  match v with
  | [] => Ok r
  | None :: v' => rawLoop v' r first
  | Some val :: v' =>
      f ← as_float val;
      rawLoop v' (rawStep r first f) false
  end.

(** The body of the inner loop of [rollupRollupData]. *)
Definition rollupStep (r : Rollup) (first : bool) (rVal : Rollup) : Rollup :=
  {| Total := PrimFloat.add (Total r) (Total rVal);
     Count := Int64.add (Count r) (Count rVal);
     Min := if first || PrimFloat.ltb (Min rVal) (Min r)
            then Min rVal else Min r;
     Max := if first || PrimFloat.ltb (Max r) (Max rVal)
            then Max rVal else Max r |}.

Fixpoint rollupLoop (v : list (option payload)) (r : Rollup) (first : bool)
    : result Rollup :=
  match v with
  | [] => Ok r
  | None :: v' => rollupLoop v' r first
  | Some val :: v' =>
      rVal ← as_Rollup val;
      rollupLoop v' (rollupStep r first rVal) false
  end.

(** The outer loop of both reductions: [res[k] = r] for every key. *)
Fixpoint reduceList
    (reduce : list (option payload) -> Rollup -> bool -> result Rollup)
    (data : list (string * list (option payload)))
    (res : gmap string payload) : result (gmap string payload) :=
  match data with
  | [] => Ok res
  | (k, v) :: data' =>
      r ← reduce v Rollup_zero true;
      reduceList reduce data' (<[k := VRollup r]> res)
  end.

Definition rollupRawData (data : gmap string (list (option payload)))
    : result (gmap string payload) :=
  reduceList rawLoop (map_to_list data) ∅.

Definition rollupRollupData (data : gmap string (list (option payload)))
    : result (gmap string payload) :=
  reduceList rollupLoop (map_to_list data) ∅.

(** The loop of [AddValues] over the coarser archives; [first] holds while
    [i == 1].  The result lists the coarser archives after the call. *)
Fixpoint cascade (fuel : nat) (timestamp lastTimestamp : Z) (first : bool)
    (curArchive : Archive.Archive) (coarser : list Archive.Archive)
    : result (list Archive.Archive) :=
  match coarser with
  | [] => Ok []
  | rollupArchive :: coarser' =>
      let rollupIval := Archive.Interval rollupArchive in
      q ← Int64.quo timestamp rollupIval;
      q' ← Int64.quo lastTimestamp rollupIval;
      if q =? q' then Ok coarser
      else
        m ← Int64.rem timestamp rollupIval;
        let rollupStart := Int64.sub (Int64.sub timestamp m) rollupIval in
        let rollupEnd := Int64.add rollupStart rollupIval in
        '(data, _) ← Archive.GetData fuel curArchive rollupStart rollupEnd;
        rollups ← (if first then rollupRawData data
                   else rollupRollupData data);
        rollupArchive' ← Archive.Append fuel rollupArchive rollups rollupEnd;
        rest ← cascade fuel timestamp lastTimestamp false rollupArchive'
                 coarser';
        Ok (rollupArchive' :: rest)
  end.

Definition AddValues (fuel : nat) (t : TimeSeries) (vals : gmap string float)
    (timestamp : Z) : result TimeSeries :=
  curArchive ← baseArchive t;
  let lastTimestamp := Archive.EndTime curArchive in
  let convertedMap : gmap string payload := VFloat <$> vals in
  curArchive' ← Archive.Append fuel curArchive convertedMap timestamp;
  rest ← cascade fuel timestamp lastTimestamp true curArchive'
           (tail (archives t));
  Ok (set_archives t (curArchive' :: rest)).

Definition AddValue (fuel : nat) (t : TimeSeries) (key : string)
    (val : float) (timestamp : Z) : result TimeSeries :=
  AddValues fuel t {[key := val]} timestamp.

(** [res[k] = v.(float64)] for every entry. *)
Fixpoint castList (d : list (string * payload)) (res : gmap string float)
    : result (gmap string float) :=
  match d with
  | [] => Ok res
  | (k, v) :: d' => f ← as_float v; castList d' (<[k := f]> res)
  end.

Definition Latest (t : TimeSeries) : result (gmap string float * Z) :=
  base ← baseArchive t;
  '(d, ts) ← Archive.Latest base;
  res ← castList (map_to_list (default ∅ d)) ∅;
  Ok (res, ts).

Definition IsNew (t : TimeSeries) : result bool :=
  base ← baseArchive t; Ok (Archive.EndTime base =? 0).

(** The loop of [Write] over the archives. *)
Fixpoint writeAll (fuel : nat) (l : list Archive.Archive)
    : result (list Archive.Archive) :=
  match l with
  | [] => Ok []
  | a :: l' =>
      a' ← Archive.Write fuel a;
      rest ← writeAll fuel l';
      Ok (a' :: rest)
  end.

(** [now] is the value of [time.Now().Unix()]. *)
Definition Write (fuel : nat) (now : Z) (t : TimeSeries)
    : result TimeSeries :=
  archs ← writeAll fuel (archives t);
  Ok {| archives := archs; config := config t; LastWritten := now |}.

Definition averageHandler (r : Rollup) : float :=
  if 0 <? Count r then PrimFloat.div (Total r) (Int64.to_float (Count r))
  else 0%float.

Definition maximumHandler (r : Rollup) : float :=
  if 0 <? Count r then Max r else 0%float.

Definition minimumHandler (r : Rollup) : float :=
  if 0 <? Count r then Min r else 0%float.

(** [make([]T, l)] followed by [vals[i] = f(d)] for every [d] of [v]. *)
Fixpoint fillFrom {A B} (f : A -> result B) (v : list A) (i : Z)
    (vals : list B) : result (list B) :=
  match v with
  | [] => Ok vals
  | d :: v' =>
      x ← f d;
      vals' ← Chunk.store vals i x;
      fillFrom f v' (Int64.add i 1) vals'
  end.

(** The loop over the keys: [vals[k] = make([]T, size v)], then filled. *)
Fixpoint convertList {A B} (zero : B) (f : A -> result B)
    (size : list A -> Z) (data : list (string * list A))
    (vals : gmap string (list B)) : result (gmap string (list B)) :=
  match data with
  | [] => Ok vals
  | (k, v) :: data' =>
      if size v <? 0 then Panic
      else
        row ← fillFrom f v 0 (replicate (Z.to_nat (size v)) zero);
        convertList zero f size data' (<[k := row]> vals)
  end.

(** The last archive of [l] whose interval is [resolution]. *)
Fixpoint findArchive (l : list Archive.Archive) (resolution : Z)
    (found : option Archive.Archive) : option Archive.Archive :=
  match l with
  | [] => found
  | a :: l' =>
      findArchive l' resolution
        (if Archive.Interval a =? resolution then Some a else found)
  end.

Definition Rollups (fuel : nat) (t : TimeSeries)
    (startTime endTime resolution : Z)
    : result (gmap string (list Rollup) * list Z) :=
  base ← baseArchive t;
  if resolution =? Archive.Interval base then
    Err "cannot get rollups from base archive"
  else
    match findArchive (tail (archives t)) resolution None with
    | None => Err "no matching archive"
    | Some archive =>
        '(data, ts) ← Archive.GetData fuel archive startTime endTime;
        vals ← convertList Rollup_zero
                  (fun d : option payload =>
                     match d with
                     | Some p => as_Rollup p
                     | None => Ok Rollup_zero
                     end)
                  (fun v => Z.of_nat (length v)) (map_to_list data) ∅;
        Ok (vals, ts)
    end.

Definition walkData (fuel : nat) (t : TimeSeries)
    (startTime endTime resolution : Z) (rollupHandler : Rollup -> float)
    : result (gmap string (list float) * list Z) :=
  q ← Int64.quo (Int64.sub endTime startTime) resolution;
  m ← Int64.rem (Int64.sub endTime startTime) resolution;
  let l := if 0 <? m then Int64.add q 1 else q in
  base ← baseArchive t;
  if resolution =? Archive.Interval base then
    '(idata, ts) ← Archive.GetData fuel base startTime endTime;
    vals ← convertList 0%float
              (fun d : option payload =>
                 match d with
                 | Some p => as_float p
                 | None => Ok (DefaultValue (config t))
                 end)
              (fun _ => l) (map_to_list idata) ∅;
    Ok (vals, ts)
  else
    '(rdata, ts) ← Rollups fuel t startTime endTime resolution;
    vals ← convertList 0%float (fun d => Ok (rollupHandler d))
              (fun _ => l) (map_to_list rdata) ∅;
    Ok (vals, ts).

Definition Averages fuel t startTime endTime resolution :=
  walkData fuel t startTime endTime resolution averageHandler.
Definition Maximums fuel t startTime endTime resolution :=
  walkData fuel t startTime endTime resolution maximumHandler.
Definition Minimums fuel t startTime endTime resolution :=
  walkData fuel t startTime endTime resolution minimumHandler.

(** The directory of a series: the file [config] and one subdirectory per
    archive, named after its resolution. *)
Record series_directory : Type := mkSeriesDirectory {
  config_file : option TimeSeriesConfig;
  archive_dirs : gmap Z Archive.directory
}.

(** The series [OpenTimeSeries] returns.  The error of [OpenArchive] is
    assigned to [err] and never read: an archive that could not be opened
    is a nil entry of [archives]. *)
Record OpenedSeries : Type := mkOpenedSeries {
  opened_archives : list (option Archive.Archive);
  opened_config : TimeSeriesConfig
}.

(** The loop of [OpenTimeSeries]. *)
Fixpoint openArchives (d : series_directory) (cfgs : list ArchiveConfig)
    : result (list (option Archive.Archive)) :=
  match cfgs with
  | [] => Ok []
  | a :: cfgs' =>
      arch ← match archive_dirs d !! Resolution a with
             | None => Ok None
             | Some dir =>
                 match Archive.OpenArchive dir with
                 | Ok arch => Ok (Some arch)
                 | Err _ => Ok None
                 | Panic => Panic
                 | OutOfFuel => OutOfFuel
                 end
             end;
      rest ← openArchives d cfgs';
      Ok (arch :: rest)
  end.

Definition OpenTimeSeries (d : series_directory) : result OpenedSeries :=
  match config_file d with
  | None => Err "open config: no such file or directory"
  | Some config =>
      archs ← openArchives d (Archives config);
      Ok {| opened_archives := archs; opened_config := config |}
  end.

End Tissa.

(** ** Vocabulary of the statements *)

(** What [Archive.Write] leaves behind: the last persisted end time is the
    end time, and the header on disk is the header of the archive. *)
Definition persisted (a : Archive.Archive) : Prop :=
  Archive.lastWrite a = Archive.EndTime a
  /\ Archive.archive_file (Archive.disk a) = Some (Archive.header_of a).

(** [derefTags] touches the tag table only: the slots, the times and the
    dirty flag of [c'] are those of [c]. *)
Definition same_slots (c c' : Chunk.chunk) : Prop :=
  Chunk.StartTime c' = Chunk.StartTime c
  /\ Chunk.EndTime c' = Chunk.EndTime c
  /\ Chunk.Resolution c' = Chunk.Resolution c
  /\ Chunk.Data c' = Chunk.Data c
  /\ Chunk.dirty c' = Chunk.dirty c.

(** The chunk [c] after [n] slots [fillVal] were pushed, the first one at
    time [ts]. *)
Definition filled (c : Chunk.chunk) (n : nat) (fillVal : slot) (ts : Z)
    : Chunk.chunk :=
  match n with
  | O => c
  | S k =>
      {| Chunk.StartTime := Chunk.StartTime c;
         Chunk.EndTime := ts + Z.of_nat k * Chunk.Resolution c;
         Chunk.Resolution := Chunk.Resolution c;
         Chunk.Data := Chunk.Data c ++ replicate n fillVal;
         Chunk.Tags := Chunk.Tags c;
         Chunk.tagMap := Chunk.tagMap c;
         Chunk.dirty := true |}
  end.

(** The number of slots missing between the end of [c] and a sample at
    [ts]. *)
Definition missing_slots (c : Chunk.chunk) (ts : Z) : Z :=
  (ts - Chunk.EndTime c) / Chunk.Resolution c - 1.

(** The words of the rollup law: the sum, the maximum and the minimum of the
    samples [v_1 .. v_k], taken from left to right. *)
Definition fmax (a b : float) : float := if PrimFloat.ltb a b then b else a.
Definition fmin (a b : float) : float := if PrimFloat.ltb b a then b else a.
Definition sum_floats (vs : list float) : float :=
  foldl PrimFloat.add 0%float vs.
Definition max_floats (vs : list float) : float :=
  match vs with
  | [] => 0%float
  | v :: vs' => foldl fmax v vs'
  end.
Definition min_floats (vs : list float) : float :=
  match vs with
  | [] => 0%float
  | v :: vs' => foldl fmin v vs'
  end.

(** The rollup of the samples [vs]. *)
Definition rollup_of (vs : list float) : Rollup :=
  {| Total := sum_floats vs; Count := Z.of_nat (length vs);
     Min := min_floats vs; Max := max_floats vs |}.

(** The values of the slots of a window that are not nil. *)
Definition present {A} (v : list (option A)) : list A := omap id v.

(** [ts] rounded up to a multiple of [r]. *)
Definition round_up (r ts : Z) : Z := r * ((ts + r - 1) / r).

(** The timestamps [s, s + r, ...] of [n] slots. *)
Definition timestamps (r s : Z) (n : nat) : list Z :=
  (fun i : nat => s + Z.of_nat i * r) <$> seq 0 n.

(** The archives a program can build with samples dated after the epoch: a
    new archive with a positive interval and chunk span and a retention that
    is not negative, then any sequence of [Append] and [Write] that
    returned. *)
Inductive reachable : Archive.Archive -> Prop :=
| reach_new dir interval retention chunkSize :
    0 < interval -> 0 <= retention -> 0 < chunkSize <= Int64.max_int ->
    reachable (Archive.NewArchive dir interval retention chunkSize)
| reach_Append fuel a val ts a' :
    reachable a ->
    0 < ts ->
    ts + Archive.Interval a + Archive.ChunkSize a <= Int64.max_int ->
    Archive.Append fuel a val ts = Ok a' ->
    reachable a'
| reach_Write fuel a a' :
    reachable a ->
    Archive.Write fuel a = Ok a' ->
    reachable a'.

(** What holds of the times of a reachable archive. *)
Record times_ok (a : Archive.Archive) : Prop := mkTimesOk {
  ok_Interval : 0 < Archive.Interval a;
  ok_Retention : 0 <= Archive.Retention a;
  ok_ChunkSize : 0 < Archive.ChunkSize a;
  ok_StartTime : 0 <= Archive.StartTime a <= Int64.max_int;
  ok_EndTime : 0 <= Archive.EndTime a;
  ok_EndTime_max : Archive.EndTime a + Archive.ChunkSize a <= Int64.max_int;
  ok_lastWrite : 0 <= Archive.lastWrite a;
  ok_unset : Archive.StartTime a = 0 ->
             Archive.EndTime a = 0 /\ Archive.lastWrite a = 0;
  ok_swept : Archive.lastWrite a - Archive.StartTime a <= Archive.Retention a;
  ok_chunks : Forall is_Some (Archive.chunks a);
  ok_nonempty : 0 < Archive.EndTime a -> Archive.chunks a <> []
}.

(** The tag table of a chunk held in memory: [tagMap] is the inverse of
    [Tags]. *)
Definition tags_ok (c : Chunk.chunk) : Prop :=
  exists tm, Chunk.tagMap c = Some tm
    /\ forall tag i, tm !! tag = Some i <-> Chunk.Tags c !! i = Some tag.

(** The slot [m], keyed by tag index in [c], holds the values [val], keyed
    by name. *)
Definition slot_holds (c : Chunk.chunk) (m : gmap nat payload)
    (val : gmap string payload) : Prop :=
  forall i, m !! i = Chunk.Tags c !! i ≫= (val !!.).

(** What [Append] needs of an archive held in memory: positive interval and
    chunk span, and a last chunk, if any, with a sound tag table, the
    resolution of the archive and times after the epoch. *)
Record tail_ok (a : Archive.Archive) : Prop := mkTailOk {
  tail_Interval : 0 < Archive.Interval a;
  tail_ChunkSize : 0 < Archive.ChunkSize a;
  tail_chunk : forall c, Archive.lastChunk a = Some c ->
    tags_ok c /\ Chunk.Resolution c = Archive.Interval a
    /\ 0 <= Chunk.EndTime c /\ 0 <= Chunk.StartTime c <= Int64.max_int
}.

(** The end time of the last chunk, 0 when there is none: the time [Latest]
    answers. *)
Definition latest_time (a : Archive.Archive) : Z :=
  match Archive.lastChunk a with
  | Some c => Chunk.EndTime c
  | None => 0
  end.

(** The end of the coarse interval of length [R] that was closed before
    [ts]: the window the cascade reduces is [[closed_end R ts - R,
    closed_end R ts)], and its rollup is stored at [closed_end R ts]. *)
Definition closed_end (R ts : Z) : Z := ts - ts mod R.

(** A window of slots in which the signal was observed at least once. *)
Definition observed {A} (w : list (option A)) : Prop :=
  exists j p, w !! j = Some (Some p).

(** A slot whose tag indices are below [n] and whose payloads satisfy
    [P]. *)
Definition slot_ok (P : payload -> Prop) (n : nat) (s : slot) : Prop :=
  forall m, s = Some m ->
  forall i p, m !! i = Some p -> (i < n)%nat /\ P p.

(** What [getData] needs of a chunk, in memory or decoded from its file: the
    resolution [r], and slots that fit the tag table and hold payloads of
    the kind [P]. *)
Definition chunk_readable (P : payload -> Prop) (r : Z) (c : Chunk.chunk)
    : Prop :=
  Chunk.Resolution c = r
  /\ Forall (slot_ok P (length (Chunk.Tags c))) (Chunk.Data c).

(** A chunk held in memory to which samples can be appended: it was made by
    [newChunk], so that it has a tag map and is dirty. *)
Record chunk_ok (P : payload -> Prop) (r : Z) (c : Chunk.chunk) : Prop :=
  mkChunkOk {
    cok_tags : tags_ok c;
    cok_read : chunk_readable P r c;
    cok_EndTime : 0 <= Chunk.EndTime c;
    cok_StartTime : 0 <= Chunk.StartTime c <= Int64.max_int;
    cok_last : Chunk.EndTime c <> 0 ->
               exists m, last (Chunk.Data c) = Some (Some m);
    cok_dirty : Chunk.dirty c = true
  }.

(** The two kinds of payload. *)
Definition is_float (p : payload) : Prop := exists f, p = VFloat f.
Definition is_rollup (p : payload) : Prop := exists r, p = VRollup r.

(** An entry of [a.chunks] that holds a chunk that can be read. *)
Definition held (P : payload -> Prop) (r : Z) (oc : option Chunk.chunk)
    : Prop :=
  exists c, oc = Some c /\ chunk_readable P r c.

(** An archive whose chunks, in memory and in its directory, can be read and
    whose last chunk can be appended to.  [T] is the horizon of the
    timestamps: no sample is dated after it, and it leaves room for the
    arithmetic on 64 bits. *)
Record archive_ok (P : payload -> Prop) (T : Z) (a : Archive.Archive)
    : Prop := mkArchiveOk {
  aok_Interval : 0 < Archive.Interval a;
  aok_ChunkSize : 0 < Archive.ChunkSize a;
  aok_slots : (Archive.Interval a | Archive.ChunkSize a);
  aok_horizon :
    T + 2 * Archive.Interval a + Archive.ChunkSize a <= Int64.max_int;
  aok_Retention : 0 <= Archive.Retention a;
  aok_StartTime : 0 <= Archive.StartTime a <= T + Archive.ChunkSize a;
  aok_EndTime : 0 <= Archive.EndTime a <= latest_time a;
  aok_lastWrite : 0 <= Archive.lastWrite a <= latest_time a;
  aok_latest : latest_time a <= T;
  aok_chunks : Forall (held P (Archive.Interval a)) (Archive.chunks a);
  aok_disk : forall k f,
    Archive.chunk_files (Archive.disk a) !! k = Some f ->
    chunk_readable P (Archive.Interval a) (Archive.decode_chunk f);
  aok_last : forall c, Archive.lastChunk a = Some c ->
    chunk_ok P (Archive.Interval a) c
    /\ 0 < Chunk.EndTime c <= T
    /\ (Archive.ChunkSize a | Chunk.StartTime c)
    /\ Chunk.StartTime c <= Chunk.EndTime c
        <= Chunk.StartTime c + Archive.ChunkSize a - Archive.Interval a
}.


(** The chunk files the retention sweep removes when it moves the start
    time from [s0] to [s1]: the chunk of [s0] and the chunks after it that
    end at or before [s1]. *)
Definition swept (span s0 s1 k : Z) : Prop :=
  (span | k) /\ s0 - span < k /\ k + span <= s1.

(** The rollup of the rollups [rs], taken from left to right: the totals
    and the counts are added, the maximum is taken over the maxima and the
    minimum over the minima. *)
Definition merged_rollup (rs : list Rollup) : Rollup :=
  {| Total := sum_floats (Total <$> rs);
     Count := Int64.wrap (foldr Z.add 0 (Count <$> rs));
     Min := min_floats (Min <$> rs);
     Max := max_floats (Max <$> rs) |}.

(** Resolutions that [NewTimeSeries] accepts: each one is a multiple of the
    one before it, which is not 0; [last] is what precedes the first. *)
Fixpoint divisible_chain (last : Z) (rs : list Z) : Prop :=
  match rs with
  | [] => True
  | r :: rs' => last <> 0 /\ Z.rem r last = 0 /\ divisible_chain r rs'
  end.

(** The archive [NewTimeSeries] makes for one [ArchiveConfig]: a new archive
    of [chunkSizeSlots] slots per chunk, whose header is written. *)
Definition created (dir : string) (c : Tissa.ArchiveConfig)
    : Archive.Archive :=
  let a := Archive.NewArchive
             (dir +:+ "/" +:+ pretty (Tissa.Resolution c))
             (Tissa.Resolution c) (Tissa.Retention c)
             (Int64.mul Tissa.chunkSizeSlots (Tissa.Resolution c)) in
  Archive.set_disk a
    (Archive.write_header Archive.empty_directory (Archive.header_of a)).

(** A series of two archives, of one second and of one minute, as
    [NewTimeSeries] makes it. *)
Definition second_and_minute : Tissa.TimeSeries :=
  {| Tissa.archives := [created "d" (Tissa.mkArchiveConfig 1 3600);
                        created "d" (Tissa.mkArchiveConfig 60 86400)];
     Tissa.config :=
       {| Tissa.Archives := [Tissa.mkArchiveConfig 1 3600;
                             Tissa.mkArchiveConfig 60 86400];
          Tissa.DefaultValue := 0 |};
     Tissa.LastWritten := 0 |}.

(** The directory of the series [t]: the configuration that [NewTimeSeries]
    wrote, and the directory of every archive under its resolution. *)
Definition directory_of (t : Tissa.TimeSeries) : Tissa.series_directory :=
  {| Tissa.config_file := Some (Tissa.config t);
     Tissa.archive_dirs :=
       list_to_map ((fun a => (Archive.Interval a, Archive.disk a))
                      <$> Tissa.archives t) |}.

(** A series whose archives are well formed -- samples in the base archive,
    rollups in the coarser ones -- whose intervals divide one another in
    turn, and where every coarser archive whose first interval has been
    closed, as the end time of the base archive tells, has received a
    rollup. *)
Definition series_ok (T : Z) (t : Tissa.TimeSeries) : Prop :=
  exists base coarser,
    Tissa.archives t = base :: coarser
    /\ archive_ok is_float T base
    /\ Forall (archive_ok is_rollup T) coarser
    /\ divisible_chain (Archive.Interval base) (Archive.Interval <$> coarser)
    /\ Forall (fun a => Archive.Interval a <= Archive.EndTime base ->
                        is_Some (Archive.lastChunk a)) coarser.






(** ** Scenarios *)

Module Scenario.

Import Tissa.

Definition fuel : nat := Z.to_nat 5000.

(** One-second samples kept for an hour, one-minute rollups for a day. *)
Definition second_minute (d : float) : TimeSeriesConfig :=
  {| Archives := [ {| Resolution := SECOND; Retention := HOUR |};
                   {| Resolution := MINUTE; Retention := DAY |} ];
     DefaultValue := d |}.

(** The example of the README. *)
Definition readme : result TimeSeries :=
  s ← NewTimeSeries fuel "/tmp/my_timeseries" (second_minute 0);
  s ← AddValue fuel s "thing1" 100 1560632038;
  s ← AddValue fuel s "thing2" 200 1560632038;
  s ← AddValue fuel s "thing1" 200 1560632039;
  s ← AddValue fuel s "thing2" 300 1560632039;
  s ← AddValue fuel s "thing1" 300 1560632044;
  AddValue fuel s "thing2" 400 1560632044.

(** A chunk holding one sample at 1000, then a sample [gap] seconds
    later. *)
Definition one_then (gap : Z) : result Chunk.chunk :=
  c ← Chunk.append fuel (Chunk.newChunk 1 1000) {["val" := VFloat 1]} 1000;
  Chunk.append fuel c {["val" := VFloat 2]} (1000 + gap).

(** One sample two seconds before a minute boundary, the next one on the
    boundary, and a third one three minutes later. *)
Definition before_boundary (d : float) : result TimeSeries :=
  s ← NewTimeSeries fuel "d" (second_minute d);
  s ← AddValue fuel s "val" 5 58;
  AddValue fuel s "val" 7 60.

Definition with_empty_minutes (d : float) : result TimeSeries :=
  s ← before_boundary d;
  AddValue fuel s "val" 9 250.

(** A sample at 10 and the next one at 200: the minute from 120 to 180
    holds no sample. *)
Definition silent_minute : result TimeSeries :=
  s ← NewTimeSeries fuel "d" (second_minute 0);
  s ← AddValue fuel s "a" 1 10;
  AddValue fuel s "a" 2 200.

(** One sample at 100. *)
Definition one_sample : result TimeSeries :=
  s ← NewTimeSeries fuel "d" (second_minute 0);
  AddValue fuel s "a" 1 100.

(** Two samples in the minute from 0 to 60. *)
Definition two_in_a_minute : result TimeSeries :=
  s ← NewTimeSeries fuel "d" (second_minute 0);
  s ← AddValue fuel s "val" 5 30;
  AddValue fuel s "val" 7 31.

(** A sample at 100 followed by a late one at 50. *)
Definition late_sample : result TimeSeries :=
  s ← NewTimeSeries fuel "d" (second_minute 0);
  s ← AddValue fuel s "a" 1 100;
  AddValue fuel s "a" 2 50.

Definition late_append : result Archive.Archive :=
  a ← Archive.Append fuel (Archive.NewArchive "d" 1 3600 2000)
        {["val" := VFloat 1]} 100;
  Archive.Append fuel a {["val" := VFloat 2]} 50.

(** Two samples dated before the epoch, then a write. *)
Definition before_epoch : result Archive.Archive :=
  a ← Archive.Append fuel (Archive.NewArchive "d" 1 3600 2000)
        {["val" := VFloat 1]} (-1000000);
  a ← Archive.Append fuel a {["val" := VFloat 2]} (-5);
  Archive.Write fuel a.

(** Two samples 150 seconds apart in an archive that retains a minute in
    chunks of twenty seconds. *)
Definition far_apart : result Archive.Archive :=
  a ← Archive.Append fuel (Archive.NewArchive "d" 1 60 20)
        {["val" := VFloat 1]} 100;
  Archive.Append fuel a {["val" := VFloat 2]} 250.

(** A single archive of resolution zero. *)
Definition zero_resolution : TimeSeriesConfig :=
  {| Archives := [ {| Resolution := 0; Retention := HOUR |} ];
     DefaultValue := 0 |}.

End Scenario.

(** * Properties *)

(** ** Arithmetic of [int64] *)

Lemma wrap_id z : Int64.in_range z -> Int64.wrap z = z.
Proof.
  unfold Int64.in_range, Int64.min_int, Int64.max_int, Int64.wrap.
  intros H. rewrite Z.mod_small; lia.
Qed.

Lemma wrap_in_range z : Int64.in_range (Int64.wrap z).
Proof.
  unfold Int64.in_range, Int64.min_int, Int64.max_int, Int64.wrap.
  pose proof (Z.mod_pos_bound (z + 2 ^ 63) (2 ^ 64)). lia.
Qed.

Lemma add_id a b : Int64.in_range (a + b) -> Int64.add a b = a + b.
Proof. apply wrap_id. Qed.

Lemma sub_id a b : Int64.in_range (a - b) -> Int64.sub a b = a - b.
Proof. apply wrap_id. Qed.

Lemma rem_Ok a b : b <> 0 -> Int64.rem a b = Ok (Z.rem a b).
Proof. unfold Int64.rem. intros H. destruct (Z.eqb_spec b 0); congruence. Qed.

Lemma quo_Ok a b :
  b <> 0 -> Int64.in_range (Z.quot a b) -> Int64.quo a b = Ok (Z.quot a b).
Proof.
  unfold Int64.quo. intros H Hr.
  destruct (Z.eqb_spec b 0); [congruence|]. by rewrite wrap_id.
Qed.

(** Inversion of a bind that returned. *)
Lemma bind_Ok {A B} (m : result A) (f : A -> result B) b :
  m ≫= f = Ok b -> exists a, m = Ok a /\ f a = Ok b.
Proof. destruct m; simpl; try discriminate. eauto. Qed.

Ltac inv_bind H :=
  let x := fresh "x" in
  let Hx := fresh "Hx" in
  apply bind_Ok in H; destruct H as (x & Hx & H).

Tactic Notation "bind_inv" hyp(H) "as" simple_intropattern(x) ident(Hx) :=
  apply bind_Ok in H; destruct H as (x & Hx & H).

(** ** Persistence *)

Section Persistence.

Import Archive.

Lemma Write_persisted fuel a a' : Write fuel a = Ok a' -> persisted a'.
Proof.
  unfold Write. intros H. inv_bind H.
  injection H as <-. split; reflexivity.
Qed.

Lemma Write_of_persisted fuel a : persisted a -> Write fuel a = Ok a.
Proof.
  intros [Hlw Hh]. unfold Write.
  rewrite Hlw, Z.ltb_irrefl. simpl.
  destruct a as [i cs d r s e c lw [h f]]; simpl in *.
  subst lw. rewrite Hh. reflexivity.
Qed.

Lemma writeAll_persisted fuel l l' :
  Tissa.writeAll fuel l = Ok l' -> Forall persisted l'.
Proof.
  revert l'. induction l as [|a l IH]; simpl; intros l' H.
  - injection H as <-. constructor.
  - inv_bind H. inv_bind H. injection H as <-.
    constructor; eauto using Write_persisted.
Qed.

Lemma writeAll_of_persisted fuel l :
  Forall persisted l -> Tissa.writeAll fuel l = Ok l.
Proof.
  induction 1 as [|a l Ha _ IH]; simpl; [reflexivity|].
  rewrite (Write_of_persisted _ _ Ha). simpl. rewrite IH. reflexivity.
Qed.

End Persistence.

(** C9. Persistence is idempotent: when [Write] has returned, a second
    [Write] returns too, finds in every archive [EndTime <= lastWrite] (so
    that it writes no chunk and sweeps nothing), and leaves every archive --
    its end time, its chunks in memory, its chunk files and its header --
    as the first call left it; only [LastWritten] takes the time of the
    second call. *)
Theorem Write_twice fuel fuel' now now' (t t1 : Tissa.TimeSeries) :
  Tissa.Write fuel now t = Ok t1 ->
  Tissa.Write fuel' now' t1
    = Ok {| Tissa.archives := Tissa.archives t1;
            Tissa.config := Tissa.config t1;
            Tissa.LastWritten := now' |}
  /\ Forall (fun a => Archive.EndTime a <= Archive.lastWrite a
                      /\ Archive.Write fuel' a = Ok a)
       (Tissa.archives t1).
Proof.
  unfold Tissa.Write. intros H. inv_bind H. injection H as <-. simpl.
  pose proof (writeAll_persisted _ _ _ Hx) as Hp.
  rewrite (writeAll_of_persisted fuel' _ Hp). split; [reflexivity|].
  eapply Forall_impl; [exact Hp|].
  intros a Ha. split; [destruct Ha as [-> _]; lia|].
  by apply Write_of_persisted.
Qed.

(** ** The gap policy of [Chunk.append] on concrete chunks *)

(** One missing slot is filled with the tail slot. *)
Example one_missing_slot_is_copied :
  Chunk.Data <$> Scenario.one_then 2
  = Ok [Some {[0%nat := VFloat 1]}; Some {[0%nat := VFloat 1]};
        Some {[0%nat := VFloat 2]}].
Proof. vm_compute. reflexivity. Qed.

(** C1, as stated, fails: the chunk ends at 1000 and the sample comes at
    1003, so that [n = (1003 - 1000) / 1 - 1 = 2] slots are missing and
    [n < 3]; the two slots are nil, not copies of the tail slot. *)
Lemma two_missing_slots_are_nil :
  (1003 - 1000) / 1 - 1 = 2
  /\ Chunk.Data <$> Scenario.one_then 3
     = Ok [Some {[0%nat := VFloat 1]}; None; None;
           Some {[0%nat := VFloat 2]}].
Proof. split; [reflexivity|]. vm_compute. reflexivity. Qed.

(** ** Chunks: interning, filling, appending *)

Section ChunkFacts.

Import Chunk.

Lemma deref_step_Ok c ret tag v :
  is_Some (tagMap c) ->
  exists c' ret', deref_step c ret tag v = Ok (c', ret')
    /\ same_slots c c' /\ is_Some (tagMap c').
Proof.
  intros [tm Htm]. unfold deref_step. rewrite Htm. simpl.
  destruct (tm !! tag) as [i|].
  - exists c, (<[i := v]> ret). rewrite Htm. by repeat split.
  - eexists _, _. split; [reflexivity|]. by repeat split.
Qed.

Lemma deref_list_Ok l : forall c ret,
  is_Some (tagMap c) ->
  exists c' ret', deref_list l c ret = Ok (c', ret')
    /\ same_slots c c' /\ is_Some (tagMap c').
Proof.
  induction l as [|[tag v] l IH]; intros c ret Hc; simpl.
  - exists c, ret. by repeat split.
  - destruct (deref_step_Ok c ret tag v Hc)
      as (c1 & ret1 & -> & (?&?&?&?&?) & Hc1). simpl.
    destruct (IH c1 ret1 Hc1) as (c2 & ret2 & -> & (?&?&?&?&?) & Hc2).
    exists c2, ret2. repeat split; congruence.
Qed.

Lemma derefTags_Ok c val :
  is_Some (tagMap c) ->
  exists c' m, derefTags c val = Ok (c', m)
    /\ same_slots c c' /\ is_Some (tagMap c').
Proof. apply deref_list_Ok. Qed.

(** [fillLoop] started at [ts] with exactly [n] slots below [timestamp]. *)
Lemma fillLoop_spec fillVal timestamp : forall (n : nat) fuel ts c,
  0 < Resolution c ->
  ts + Z.of_nat n * Resolution c <= Int64.max_int ->
  Int64.min_int <= ts ->
  timestamp <= ts + Z.of_nat n * Resolution c ->
  (n <> 0%nat -> ts + (Z.of_nat n - 1) * Resolution c < timestamp) ->
  (n <= fuel)%nat ->
  fillLoop fuel fillVal timestamp ts c = Ok (filled c n fillVal ts).
Proof.
  induction n as [|n IH]; intros fuel ts c Hpos Hmax Hmin Hup Hlow Hfuel.
  - destruct fuel; simpl;
      (destruct (Z.ltb_spec ts timestamp); [lia|]); reflexivity.
  - destruct fuel as [|fuel]; [lia|]. simpl.
    destruct (Z.ltb_spec ts timestamp); [|nia].
    rewrite add_id
      by (unfold Int64.in_range, Int64.max_int, Int64.min_int in *; lia).
    rewrite IH; simpl; try lia.
    f_equal. destruct n as [|n]; unfold push_fill; simpl; f_equal;
      try lia.
    rewrite <- app_assoc. reflexivity.
Qed.

(** The number of steps of [r] from [ts] that stay below [timestamp]. *)
Lemma steps_below r ts timestamp :
  0 < r ->
  let n := Z.to_nat ((timestamp - ts + r - 1) / r) in
  timestamp <= ts + Z.of_nat n * r
  /\ (n <> 0%nat -> ts + (Z.of_nat n - 1) * r < timestamp)
  /\ ts + Z.of_nat n * r < Z.max ts timestamp + r
  /\ Z.of_nat n <= Z.max 0 (timestamp - ts).
Proof.
  intros Hr n. subst n.
  pose proof (Z.div_mod (timestamp - ts + r - 1) r ltac:(lia)).
  pose proof (Z.mod_pos_bound (timestamp - ts + r - 1) r Hr).
  destruct (Z_le_gt_dec timestamp ts).
  - assert ((timestamp - ts + r - 1) / r <= 0) by nia.
    rewrite Z2Nat.nonpos by done. simpl. lia.
  - assert (1 <= (timestamp - ts + r - 1) / r) by nia.
    rewrite Z2Nat.id by lia.
    split; [nia|]. split; [intros _; nia|]. split; nia.
Qed.

Lemma fillLoop_total fuel fillVal timestamp ts c :
  0 < Resolution c ->
  Int64.min_int <= ts <= Int64.max_int ->
  timestamp + Resolution c <= Int64.max_int ->
  (Z.to_nat (timestamp - ts) <= fuel)%nat ->
  exists n, fillLoop fuel fillVal timestamp ts c
            = Ok (filled c n fillVal ts).
Proof.
  intros Hr Hts Hmax Hfuel.
  destruct (steps_below (Resolution c) ts timestamp Hr) as (H1 & H2 & H3 & H4).
  eexists. apply fillLoop_spec; try done; lia.
Qed.

(** [padLoop] pushes nil slots and nothing else. *)
Lemma padLoop_spec timestamp : forall (n : nat) fuel ts c,
  0 < Resolution c ->
  ts + Z.of_nat n * Resolution c <= Int64.max_int ->
  Int64.min_int <= ts ->
  timestamp <= ts + Z.of_nat n * Resolution c ->
  (n <> 0%nat -> ts + (Z.of_nat n - 1) * Resolution c < timestamp) ->
  (n <= fuel)%nat ->
  padLoop fuel timestamp ts c
  = Ok (set_Data c (Data c ++ replicate n None)).
Proof.
  induction n as [|n IH]; intros fuel ts c Hpos Hmax Hmin Hup Hlow Hfuel.
  - destruct fuel; simpl;
      (destruct (Z.ltb_spec ts timestamp); [lia|]);
      rewrite app_nil_r; by destruct c.
  - destruct fuel as [|fuel]; [lia|]. simpl.
    destruct (Z.ltb_spec ts timestamp); [|nia].
    rewrite add_id
      by (unfold Int64.in_range, Int64.max_int, Int64.min_int in *; lia).
    rewrite IH; simpl; try lia.
    unfold set_Data. simpl. by rewrite <- app_assoc.
Qed.

Lemma padLoop_total fuel timestamp ts c :
  0 < Resolution c ->
  Int64.min_int <= ts <= Int64.max_int ->
  timestamp + Resolution c <= Int64.max_int ->
  (Z.to_nat (timestamp - ts) <= fuel)%nat ->
  exists n, padLoop fuel timestamp ts c
            = Ok (set_Data c (Data c ++ replicate n None)).
Proof.
  intros Hr Hts Hmax Hfuel.
  destruct (steps_below (Resolution c) ts timestamp Hr) as (H1 & H2 & H3 & H4).
  eexists. apply padLoop_spec; try done; lia.
Qed.

Lemma quot_div a b : 0 <= a -> 0 < b -> Z.quot a b = a / b.
Proof. intros. apply Z.quot_div_nonneg; lia. Qed.

Lemma rem_mod a b : 0 <= a -> 0 < b -> Z.rem a b = a mod b.
Proof. intros. apply Z.rem_mod_nonneg; lia. Qed.

End ChunkFacts.

(** C1, amended. On a nonempty chunk, a sample at [ts > EndTime +
    Resolution] aligned on the resolution leaves [n = (ts - EndTime) /
    Resolution - 1] missing slots. [append] fills each of them with the tail
    slot when [(ts - EndTime) / Resolution < 3], that is when [n < 2] (a
    single missing slot), and with nil otherwise; the sample follows. *)
Theorem append_gap_policy fuel (c : Chunk.chunk) val ts :
  0 < Chunk.Resolution c ->
  0 < Chunk.EndTime c ->
  is_Some (Chunk.tagMap c) ->
  Chunk.EndTime c + Chunk.Resolution c < ts ->
  (ts - Chunk.EndTime c) mod Chunk.Resolution c = 0 ->
  ts + Chunk.Resolution c <= Int64.max_int ->
  (Z.to_nat (missing_slots c ts) <= fuel)%nat ->
  exists c' m,
    Chunk.append fuel c val ts = Ok c'
    /\ Chunk.EndTime c' = ts
    /\ Chunk.Data c'
       = Chunk.Data c
         ++ replicate (Z.to_nat (missing_slots c ts))
              (if missing_slots c ts <? 2 then Chunk.latestRaw c else None)
         ++ [Some m].
Proof.
  intros Hr He Htm Hgap Hal Hmax Hfuel.
  unfold missing_slots in *.
  set (r := Chunk.Resolution c) in *. set (e := Chunk.EndTime c) in *.
  assert (Hq : ts - e = r * ((ts - e) / r)) by (apply Z.div_exact; lia).
  set (q := (ts - e) / r) in *.
  assert (2 <= q) by nia.
  unfold Chunk.append. fold e r.
  destruct (Z.ltb_spec ts e); [lia|].
  destruct (Z.eqb_spec ts e); [lia|].
  unfold Chunk.empty. fold e.
  destruct (Z.eqb_spec e 0); [lia|]. simpl negb. cbv iota.
  rewrite add_id by (unfold Int64.in_range, Int64.max_int, Int64.min_int in *; lia).
  destruct (Z.ltb_spec (e + r) ts); [|lia]. simpl andb. cbv iota.
  unfold Chunk.fillTo. fold e r.
  rewrite sub_id by (unfold Int64.in_range, Int64.max_int, Int64.min_int in *; lia).
  rewrite quo_Ok; [| lia |
    rewrite quot_div by lia; fold q;
    unfold Int64.in_range, Int64.max_int, Int64.min_int in *; nia].
  rewrite quot_div by lia. fold q. simpl.
  rewrite add_id by (unfold Int64.in_range, Int64.max_int, Int64.min_int in *; lia).
  rewrite (fillLoop_spec _ _ (Z.to_nat (q - 1))); fold r; try lia;
    [| unfold Int64.min_int; lia].
  simpl.
  destruct (Z.to_nat (q - 1)) as [|k] eqn:Hk; [lia|].
  simpl filled. fold r.
  match goal with |- context [Chunk.EndTime ?c =? 0] => set (c1 := c) end.
  assert (Chunk.EndTime c1 = e + r + Z.of_nat k * r) as He1 by reflexivity.
  destruct (Z.eqb_spec (Chunk.EndTime c1) 0); [nia|]. simpl andb. cbv iota.
  simpl.
  destruct (derefTags_Ok c1 val Htm) as (c3 & m & -> & (?&?&?&Hd&?) & _).
  simpl. exists (Chunk.push_fill c3 (Some m) ts), m.
  split; [reflexivity|]. split; [reflexivity|]. simpl.
  rewrite Hd. subst c1. simpl.
  replace (q <? 3) with (q - 1 <? 2)
    by (destruct (Z.ltb_spec (q - 1) 2), (Z.ltb_spec q 3); lia).
  rewrite <- app_assoc. reflexivity.
Qed.

Lemma append_gap_policy_witness :
  exists c c' m,
    Chunk.append 5 c {["val" := VFloat 2]} 1004 = Ok c'
    /\ Chunk.Data c' = Chunk.Data c ++ [None; None; None] ++ [Some m].
Proof.
  pose (c := {| Chunk.StartTime := 1000; Chunk.EndTime := 1000;
                Chunk.Resolution := 1;
                Chunk.Data := [Some {[0%nat := VFloat 1]}];
                Chunk.Tags := ["val"];
                Chunk.tagMap := Some {["val" := 0%nat]};
                Chunk.dirty := true |}).
  destruct (append_gap_policy 5 c {["val" := VFloat 2]} 1004)
    as (c' & m & H1 & _ & H2);
    [reflexivity | reflexivity | by eexists | reflexivity | reflexivity
    | vm_compute; discriminate | vm_compute; lia |].
  exists c, c', m. split; [exact H1 | exact H2].
Defined.

(** Evaluation of a closed call: [run_ok e k] hands the value returned by
    [e] to [k]. *)
Ltac run_ok e k :=
  let v := eval vm_compute in e in
  lazymatch v with
  | Ok ?x => k x
  end.

Lemma Write_twice_witness :
  exists t t1,
    Scenario.readme = Ok t
    /\ Tissa.Write Scenario.fuel 7 t = Ok t1
    /\ Tissa.Write 0 9 t1
       = Ok {| Tissa.archives := Tissa.archives t1;
               Tissa.config := Tissa.config t1;
               Tissa.LastWritten := 9 |}.
Proof.
  run_ok Scenario.readme ltac:(fun t =>
    run_ok (Tissa.Write Scenario.fuel 7 t) ltac:(fun t1 =>
      exists t, t1;
      assert (H : Tissa.Write Scenario.fuel 7 t = Ok t1)
        by (vm_compute; reflexivity);
      split; [vm_compute; reflexivity|];
      split; [exact H|];
      exact (proj1 (Write_twice Scenario.fuel 0 7 9 t t1 H)))).
Defined.

(** ** Late samples *)

(** C3. [Archive.Append] lowers the end time of the archive on a late
    sample: after a sample at 100, a sample at 50 is dropped by the chunk
    (the chunks are unchanged, and [Latest] still answers 100) while the
    archive's [EndTime] goes from 100 down to 50. *)
Theorem late_append_lowers_EndTime :
  exists a a',
    Archive.Append Scenario.fuel (Archive.NewArchive "d" 1 3600 2000)
      {["val" := VFloat 1]} 100 = Ok a
    /\ Archive.Append Scenario.fuel a {["val" := VFloat 2]} 50 = Ok a'
    /\ Archive.EndTime a = 100
    /\ Archive.EndTime a' = 50
    /\ Archive.chunks a' = Archive.chunks a
    /\ Archive.Latest a' = Ok (Some {["val" := VFloat 1]}, 100).
Proof.
  run_ok (Archive.Append Scenario.fuel (Archive.NewArchive "d" 1 3600 2000)
            {["val" := VFloat 1]} 100) ltac:(fun a =>
    run_ok (Archive.Append Scenario.fuel a {["val" := VFloat 2]} 50)
      ltac:(fun a' => exists a, a'));
  repeat split; vm_compute; reflexivity.
Qed.

(** ** Empty rollups in the aggregates *)

Lemma handlers_of_empty_rollup r :
  Count r = 0 ->
  Tissa.averageHandler r = 0%float
  /\ Tissa.maximumHandler r = 0%float
  /\ Tissa.minimumHandler r = 0%float.
Proof.
  unfold Tissa.averageHandler, Tissa.maximumHandler, Tissa.minimumHandler.
  intros ->. auto.
Qed.

(** C4. The aggregates report 0.0, not the configured default value, for a
    rollup slot whose count is 0: in a series whose default value is 42, the
    minutes ending at 0, 120, 180 and 240 have count 0 and [Averages],
    [Maximums] and [Minimums] all answer 0 for them, whereas the same query
    at the base resolution answers 42 for the missing seconds. *)
Theorem empty_rollup_reports_zero :
  exists s,
    Scenario.with_empty_minutes 42 = Ok s
    /\ Tissa.DefaultValue (Tissa.config s) = 42%float
    /\ Tissa.Rollups Scenario.fuel s 0 300 60
       = Ok ({["val" := [Rollup_zero;
                         {| Total := 10; Count := 2; Min := 5; Max := 5 |};
                         Rollup_zero; Rollup_zero; Rollup_zero]]},
             [0; 60; 120; 180; 240])
    /\ Tissa.Averages Scenario.fuel s 0 300 60
       = Ok ({["val" := [0; 5; 0; 0; 0]%float]}, [0; 60; 120; 180; 240])
    /\ Tissa.Maximums Scenario.fuel s 0 300 60
       = Ok ({["val" := [0; 5; 0; 0; 0]%float]}, [0; 60; 120; 180; 240])
    /\ Tissa.Minimums Scenario.fuel s 0 300 60
       = Ok ({["val" := [0; 5; 0; 0; 0]%float]}, [0; 60; 120; 180; 240])
    /\ Tissa.Averages Scenario.fuel s 56 62 1
       = Ok ({["val" := [42; 42; 5; 5; 7; 42]%float]},
             [56; 57; 58; 59; 60; 61]).
Proof.
  run_ok (Scenario.with_empty_minutes 42) ltac:(fun s => exists s);
  repeat split; vm_compute; reflexivity.
Qed.

(** ** A resolution of zero *)

Lemma tsNorm_zero_interval a ts :
  Archive.Interval a = 0 -> Archive.tsNorm a ts = Panic.
Proof. unfold Archive.tsNorm, Int64.rem. intros ->. reflexivity. Qed.

Lemma tsNorm_total a ts :
  Archive.Interval a <> 0 -> is_Ok (Archive.tsNorm a ts).
Proof.
  intros H. unfold Archive.tsNorm. rewrite rem_Ok by done. simpl.
  destruct (_ <? _); eexists; reflexivity.
Qed.

(** C10. A configuration whose only archive has resolution 0 is accepted by
    [NewTimeSeries]; on the series it returns, every [AddValues] panics (the
    remainder by zero of [tsNorm]), and so do every [GetData] of its archive
    and every aggregate query at its resolution.  [tsNorm] returns as soon as
    the interval is not zero. *)
Theorem zero_resolution_accepted :
  exists s,
    (forall fuel, Tissa.NewTimeSeries fuel "d" Scenario.zero_resolution = Ok s)
    /\ Archive.Interval <$> Tissa.archives s = [0]
    /\ (forall fuel vals ts, Tissa.AddValues fuel s vals ts = Panic)
    /\ (forall fuel a startTime endTime,
          a ∈ Tissa.archives s ->
          Archive.GetData fuel a startTime endTime = Panic)
    /\ (forall fuel startTime endTime,
          Tissa.Averages fuel s startTime endTime 0 = Panic
          /\ Tissa.Maximums fuel s startTime endTime 0 = Panic
          /\ Tissa.Minimums fuel s startTime endTime 0 = Panic)
    /\ (forall a ts, Archive.Interval a = 0 -> Archive.tsNorm a ts = Panic)
    /\ (forall a ts, Archive.Interval a <> 0 -> is_Ok (Archive.tsNorm a ts)).
Proof.
  eexists. split; [intros fuel; reflexivity|].
  split; [reflexivity|].
  split.
  { intros fuel vals ts. reflexivity. }
  split.
  { intros fuel a s e Ha. apply list_elem_of_singleton in Ha. subst a.
    reflexivity. }
  split.
  { intros fuel s e. repeat split; reflexivity. }
  split; [apply tsNorm_zero_interval | apply tsNorm_total].
Qed.

(** ** The reductions of the cascade *)

Section Reductions.

Import Tissa.

Variable reduce : list (option payload) -> Rollup -> bool -> result Rollup.

Lemma reduceList_Ok l : forall res,
  (forall k v, (k, v) ∈ l -> is_Ok (reduce v Rollup_zero true)) ->
  is_Ok (reduceList reduce l res).
Proof.
  induction l as [|[k v] l IH]; intros res H; simpl.
  - by eexists.
  - destruct (H k v) as [r ->]; [left|]. simpl.
    apply IH. intros k' v' Hin. apply (H k' v'). by right.
Qed.

Lemma reduceList_lookup_notin l k : forall res out,
  reduceList reduce l res = Ok out -> k ∉ l.*1 -> out !! k = res !! k.
Proof.
  induction l as [|[k' v] l IH]; intros res out H Hk; simpl in *.
  - by injection H as <-.
  - inv_bind H. apply not_elem_of_cons in Hk as [Hne Hk].
    rewrite (IH _ _ H Hk). by rewrite lookup_insert_ne.
Qed.

Lemma reduceList_lookup l k v : forall res out,
  NoDup l.*1 -> reduceList reduce l res = Ok out -> (k, v) ∈ l ->
  exists r, reduce v Rollup_zero true = Ok r /\ out !! k = Some (VRollup r).
Proof.
  induction l as [|[k' v'] l IH]; intros res out Hnd H Hin; simpl in *.
  - by apply elem_of_nil in Hin.
  - inv_bind H. apply NoDup_cons in Hnd as [Hk' Hnd].
    apply elem_of_cons in Hin as [[= -> ->]|Hin].
    + exists x. split; [done|].
      rewrite (reduceList_lookup_notin _ _ _ _ H Hk').
      apply lookup_insert_eq.
    + eauto.
Qed.

(** The output of a reduction has the keys of its input, each with the
    rollup of its window. *)
Lemma reduce_map_spec data :
  (forall k v, data !! k = Some v -> is_Ok (reduce v Rollup_zero true)) ->
  exists out,
    reduceList reduce (map_to_list data) ∅ = Ok out
    /\ dom out = dom data
    /\ forall k v, data !! k = Some v ->
         exists r, reduce v Rollup_zero true = Ok r
                   /\ out !! k = Some (VRollup r).
Proof.
  intros H.
  destruct (reduceList_Ok (map_to_list data) ∅) as [out Hout].
  { intros k v Hin. apply (H k v). by apply elem_of_map_to_list. }
  exists out. split; [done|].
  assert (Hl : forall k v, data !! k = Some v ->
            exists r, reduce v Rollup_zero true = Ok r
                      /\ out !! k = Some (VRollup r)).
  { intros k v Hk. eapply reduceList_lookup; eauto.
    - apply NoDup_fst_map_to_list.
    - by apply elem_of_map_to_list. }
  split; [|done].
  apply set_eq. intros k. rewrite !elem_of_dom. split.
  - intros [p Hp]. destruct (data !! k) as [v|] eqn:Hk; [by eexists|].
    rewrite (reduceList_lookup_notin _ k _ _ Hout) in Hp.
    + by rewrite lookup_empty in Hp.
    + intros Hin. apply list_elem_of_fmap in Hin as ([k' v] & -> & Hin).
      apply elem_of_map_to_list in Hin. simpl in Hk. congruence.
  - intros [v Hk]. destruct (Hl k v Hk) as (r & _ & ->). by eexists.
Qed.

End Reductions.

Lemma wrap_wrap_add a b : Int64.wrap (Int64.wrap a + b) = Int64.wrap (a + b).
Proof.
  unfold Int64.wrap. f_equal.
  replace ((a + 2 ^ 63) mod 2 ^ 64 - 2 ^ 63 + b + 2 ^ 63)
    with ((a + 2 ^ 63) mod 2 ^ 64 + b) by lia.
  rewrite Zplus_mod_idemp_l. f_equal. lia.
Qed.

(** [rawLoop] once a first sample has been seen. *)
Lemma rawLoop_acc v : forall r fs,
  present v = VFloat <$> fs ->
  Int64.in_range (Count r) ->
  Tissa.rawLoop v r false
  = Ok {| Total := foldl PrimFloat.add (Total r) fs;
          Count := Int64.wrap (Count r + Z.of_nat (length fs));
          Min := foldl fmin (Min r) fs;
          Max := foldl fmax (Max r) fs |}.
Proof.
  induction v as [|[p|] v IH]; intros r fs Hp Hr; simpl in *.
  - destruct fs; [|discriminate]. simpl.
    rewrite Z.add_0_r, wrap_id by done. by destruct r.
  - destruct fs as [|f fs]; [discriminate|]. injection Hp as -> Hp.
    simpl. rewrite (IH _ fs Hp) by apply wrap_in_range.
    simpl. unfold Int64.add. rewrite wrap_wrap_add.
    replace (Count r + 1 + Z.of_nat (length fs))
      with (Count r + Z.of_nat (S (length fs))) by lia.
    reflexivity.
  - by apply IH.
Qed.

(** The reduction of a window of raw samples is the rollup of the samples
    that are present. *)
Lemma rawLoop_rollup_of v fs :
  present v = VFloat <$> fs ->
  Z.of_nat (length fs) <= Int64.max_int ->
  Tissa.rawLoop v Rollup_zero true = Ok (rollup_of fs).
Proof.
  induction v as [|[p|] v IH]; intros Hp Hlen; simpl in *.
  - by destruct fs.
  - destruct fs as [|f fs]; [discriminate|]. injection Hp as -> Hp.
    simpl. rewrite (rawLoop_acc _ _ fs Hp) by (vm_compute; split; discriminate).
    simpl. unfold rollup_of. simpl. f_equal. f_equal.
    change (Int64.add 0 1) with 1.
    unfold Int64.in_range, Int64.min_int, Int64.max_int in *.
    simpl length in Hlen. rewrite wrap_id; [lia|].
    unfold Int64.in_range, Int64.min_int, Int64.max_int. lia.
  - by apply IH.
Qed.

(** ** Unobserved signals in the cascade *)

(** C5, as stated, fails: the base archive knows the signal ["a"] (it is in
    the tag table of its chunk), every slot of the window from 120 to 180 is
    nil, and the rollup appended to the minute archive at 180 is the empty
    map: ["a"] is not in it. *)
Lemma silent_signal_is_absent :
  exists s base minute c,
    Scenario.silent_minute = Ok s
    /\ Tissa.archives s = [base; minute]
    /\ Archive.lastChunk base = Some c
    /\ Chunk.Tags c = ["a"]
    /\ fst <$> Archive.GetData Scenario.fuel base 120 180 = Ok ∅
    /\ Archive.Latest minute = Ok (Some ∅, 180).
Proof.
  run_ok Scenario.silent_minute ltac:(fun s =>
    lazymatch s with
    | {| Tissa.archives := [?b; ?m] |} =>
        run_ok (Ok (Archive.lastChunk b)) ltac:(fun oc =>
          lazymatch oc with
          | Some ?c => exists s, b, m, c
          end)
    end);
  repeat split; vm_compute; reflexivity.
Qed.

(** ** Normalisation of timestamps and the timestamps of a query *)

Ltac range := unfold Int64.in_range, Int64.min_int, Int64.max_int in *.

Lemma round_up_bounds r ts :
  0 < r -> ts <= round_up r ts < ts + r.
Proof.
  intros Hr. unfold round_up.
  pose proof (Z.div_mod (ts + r - 1) r ltac:(lia)).
  pose proof (Z.mod_pos_bound (ts + r - 1) r Hr). lia.
Qed.

Lemma round_up_multiple r ts : 0 < r -> ts mod r = 0 -> round_up r ts = ts.
Proof.
  intros Hr Hm. unfold round_up.
  apply Z.div_exact in Hm; [|lia].
  replace (ts + r - 1) with ((r - 1) + (ts / r) * r) by lia.
  rewrite Z.div_add by lia. rewrite Z.div_small by lia. lia.
Qed.

Lemma round_up_divide r x : (r | round_up r x).
Proof. exists ((x + r - 1) / r). unfold round_up. lia. Qed.

Lemma round_up_mod r ts : 0 < r -> round_up r ts mod r = 0.
Proof.
  intros Hr. unfold round_up. rewrite Z.mul_comm. apply Z.mod_mul. lia.
Qed.

(** [tsNorm] rounds up. *)
Lemma tsNorm_round_up a ts :
  0 < Archive.Interval a ->
  Int64.min_int <= ts -> ts + Archive.Interval a <= Int64.max_int ->
  Archive.tsNorm a ts = Ok (round_up (Archive.Interval a) ts).
Proof.
  intros Hr Hmin Hmax. unfold Archive.tsNorm.
  set (r := Archive.Interval a) in *.
  rewrite rem_Ok by lia. simpl.
  pose proof (Z.quot_rem' ts r) as Hqr.
  pose proof (round_up_bounds r ts Hr) as Hb.
  assert (Hmul : exists q, round_up r ts = r * q) by (by eexists).
  destruct Hmul as [q Hq].
  destruct (Z_le_gt_dec 0 ts) as [Hts|Hts].
  - pose proof (Z.rem_bound_pos ts r Hts Hr).
    rewrite sub_id by (range; lia).
    destruct (Z.ltb_spec (ts - Z.rem ts r) ts).
    + rewrite add_id by (range; lia). f_equal.
      assert (q = Z.quot ts r + 1) by nia. subst q. lia.
    + f_equal. assert (q = Z.quot ts r) by nia. subst q. lia.
  - pose proof (Z.rem_bound_pos (- ts) r ltac:(lia) Hr).
    pose proof (Z.rem_opp_l ts r ltac:(lia)).
    rewrite sub_id by (range; lia).
    destruct (Z.ltb_spec (ts - Z.rem ts r) ts); [lia|].
    f_equal. assert (q = Z.quot ts r) by nia. subst q. lia.
Qed.

Lemma stampsFrom_timestamps r : forall n t,
  0 < r -> Int64.min_int <= t -> t + Z.of_nat n * r <= Int64.max_int ->
  Archive.stampsFrom r t n = timestamps r t n.
Proof.
  unfold timestamps.
  induction n as [|n IH]; intros t Hr Hmin Hmax; [reflexivity|].
  simpl. f_equal; [lia|].
  rewrite add_id by (range; lia).
  rewrite IH by lia. rewrite <- fmap_S_seq, <- list_fmap_compose.
  apply list_fmap_ext. intros _ i _. simpl. lia.
Qed.

(** The timestamps [GetData] returns, whatever the data. *)
Lemma GetData_stamps fuel a startTime endTime data stamps :
  0 < Archive.Interval a ->
  Int64.min_int <= startTime -> startTime <= endTime ->
  endTime + Archive.Interval a <= Int64.max_int ->
  endTime - startTime + Archive.Interval a <= Int64.max_int ->
  Archive.GetData fuel a startTime endTime = Ok (data, stamps) ->
  let r := Archive.Interval a in
  stamps = timestamps r (round_up r startTime)
             (Z.to_nat ((round_up r endTime - round_up r startTime) / r)).
Proof.
  intros Hr Hmin Hle Hmax Hd H r. unfold Archive.GetData in H. fold r in H.
  rewrite !tsNorm_round_up in H by (fold r; lia). simpl in H. fold r in H.
  pose proof (round_up_bounds r startTime Hr).
  pose proof (round_up_bounds r endTime Hr).
  assert (round_up r startTime <= round_up r endTime).
  { unfold round_up. apply Z.mul_le_mono_nonneg_l; [lia|].
    apply Z.div_le_mono; lia. }
  rewrite sub_id in H by (range; lia).
  rewrite quo_Ok in H; [| lia |].
  2:{ rewrite quot_div by lia.
      pose proof (Z.div_le_upper_bound
        (round_up r endTime - round_up r startTime) r
        (round_up r endTime - round_up r startTime) Hr ltac:(nia)).
      pose proof (Z.div_pos (round_up r endTime - round_up r startTime) r
        ltac:(lia) Hr).
      range. lia. }
  rewrite quot_div in H by lia. simpl in H.
  inv_bind H.
  pose proof (Z.div_pos (round_up r endTime - round_up r startTime) r
    ltac:(lia) Hr) as Hpos.
  destruct (Z.ltb_spec ((round_up r endTime - round_up r startTime) / r) 0);
    [lia|].
  inv_bind H. injection H as _ <-.
  apply stampsFrom_timestamps; [done | lia |].
  rewrite Z2Nat.id by done.
  pose proof (Z.mul_div_le (round_up r endTime - round_up r startTime) r Hr).
  lia.
Qed.

Lemma findArchive_Interval l r : forall found a,
  Tissa.findArchive l r found = Some a ->
  found = Some a \/ Archive.Interval a = r.
Proof.
  induction l as [|b l IH]; intros found a H; simpl in H; [by left|].
  apply IH in H as [H| ->]; [|by right].
  destruct (Z.eqb_spec (Archive.Interval b) r); [|by left].
  injection H as <-. by right.
Qed.

Lemma round_up_window r s e :
  0 < r -> s mod r = 0 ->
  (round_up r e - round_up r s) / r = (e - s + r - 1) / r.
Proof.
  intros Hr Hs. rewrite (round_up_multiple r s Hr Hs).
  apply Z.div_exact in Hs; [|lia]. unfold round_up.
  replace (r * ((e + r - 1) / r) - s)
    with (((e + r - 1) / r - s / r) * r) by lia.
  rewrite Z.div_mul by lia.
  replace (e - s + r - 1) with (e + r - 1 + (- (s / r)) * r) by lia.
  rewrite Z.div_add by lia. lia.
Qed.

(** The timestamps every query returns are those of the archive it reads. *)
Lemma walkData_stamps fuel t s e r handler vals stamps :
  Tissa.walkData fuel t s e r handler = Ok (vals, stamps) ->
  exists a data, Archive.Interval a = r
    /\ Archive.GetData fuel a s e = Ok (data, stamps).
Proof.
  unfold Tissa.walkData. intros H.
  bind_inv H as q Hq. bind_inv H as m Hm. bind_inv H as base Hb.
  destruct (Z.eqb_spec r (Archive.Interval base)) as [Heq|Hne].
  - bind_inv H as [idata ts] Hg. bind_inv H as vs Hv.
    injection H as _ <-. by exists base, idata.
  - bind_inv H as [rdata ts] Hg. bind_inv H as vs Hv.
    injection H as _ <-.
    unfold Tissa.Rollups in Hg. bind_inv Hg as base' Hb'.
    destruct (r =? Archive.Interval base'); [discriminate|].
    destruct (Tissa.findArchive _ r None) as [a|] eqn:Hf; [|discriminate].
    bind_inv Hg as [data ts'] Hg'. bind_inv Hg as rs Hrs.
    injection Hg as _ <-.
    apply findArchive_Interval in Hf as [Hf|Hf]; [discriminate|].
    by exists a, data.
Qed.

(** C7, amended. For a query window from [s] to [e] whose start [s] is a
    multiple of the resolution [r], the timestamps returned by [Averages],
    [Maximums] and [Minimums] (all of them [walkData] with a handler) are
    [s, s + r, ...], and there are [ceil ((e - s) / r)] of them. *)
Theorem query_timestamps fuel t s e r handler vals stamps :
  0 < r -> s mod r = 0 ->
  Int64.min_int <= s -> s <= e ->
  e + r <= Int64.max_int -> e - s + r <= Int64.max_int ->
  Tissa.walkData fuel t s e r handler = Ok (vals, stamps) ->
  stamps = timestamps r s (Z.to_nat ((e - s + r - 1) / r)).
Proof.
  intros Hr Hs Hmin Hle Hmax Hd H.
  apply walkData_stamps in H as (a & data & <- & H).
  apply GetData_stamps in H; try done. simpl in H.
  by rewrite round_up_window, round_up_multiple in H.
Qed.

Lemma query_timestamps_witness :
  exists t vals stamps,
    Scenario.readme = Ok t
    /\ Tissa.Averages Scenario.fuel t 1560632040 1560632165 60
       = Ok (vals, stamps)
    /\ stamps
       = timestamps 60 1560632040
           (Z.to_nat ((1560632165 - 1560632040 + 60 - 1) / 60)).
Proof.
  run_ok Scenario.readme ltac:(fun t =>
    run_ok (Tissa.Averages Scenario.fuel t 1560632040 1560632165 60)
      ltac:(fun r =>
        lazymatch r with
        | (?vals, ?stamps) =>
            exists t, vals, stamps;
            assert (H : Tissa.walkData Scenario.fuel t 1560632040 1560632165
                          60 Tissa.averageHandler = Ok (vals, stamps))
              by (vm_compute; reflexivity);
            split; [vm_compute; reflexivity|];
            split; [exact H|];
            apply (query_timestamps Scenario.fuel t 1560632040 1560632165
                     60 Tissa.averageHandler vals stamps
                     ltac:(reflexivity) ltac:(reflexivity)
                     ltac:(vm_compute; discriminate)
                     ltac:(vm_compute; discriminate)
                     ltac:(vm_compute; discriminate)
                     ltac:(vm_compute; discriminate) H)
        end)).
Defined.

(** C7, as stated, fails when the start of the window is not a multiple of
    the resolution: from 1560632038 to 1560632045 at resolution 60 the only
    timestamp is 1560632040, not the start of the window; and from 1 to 60
    no timestamp is returned although [ceil ((60 - 1) / 60) = 1]. *)
Lemma unaligned_query_timestamps :
  exists t,
    Scenario.readme = Ok t
    /\ snd <$> Tissa.Averages Scenario.fuel t 1560632038 1560632045 60
       = Ok [1560632040]
    /\ snd <$> Tissa.Averages Scenario.fuel t 1 60 60 = Ok []
    /\ (60 - 1 + 60 - 1) / 60 = 1.
Proof.
  run_ok Scenario.readme ltac:(fun t => exists t);
  repeat split; vm_compute; reflexivity.
Qed.

(** ** Retention *)

Section Retention.

Import Archive.

Lemma chunkStart_bounds a ts :
  0 < ChunkSize a -> 0 <= ts <= Int64.max_int ->
  exists s, chunkStart a ts = Ok s /\ s <= ts < s + ChunkSize a /\ 0 <= s.
Proof.
  intros Hc Hts. unfold chunkStart. rewrite rem_Ok by lia. simpl.
  rewrite rem_mod by lia.
  pose proof (Z.mod_pos_bound ts (ChunkSize a) Hc).
  pose proof (Z.div_mod ts (ChunkSize a) ltac:(lia)).
  pose proof (Z.div_pos ts (ChunkSize a) ltac:(lia) Hc).
  eexists. split; [reflexivity|].
  rewrite sub_id by (range; lia). nia.
Qed.

(** The sweep stops, deletes chunk files only, and leaves an archive whose
    retained span is at most the retention. *)
Lemma exerciseRetention_spec : forall fuel a,
  0 < ChunkSize a -> 0 <= Retention a ->
  0 <= StartTime a <= Int64.max_int -> 0 <= EndTime a ->
  EndTime a + ChunkSize a <= Int64.max_int ->
  (Z.to_nat (EndTime a - StartTime a) <= fuel)%nat ->
  exists a', exerciseRetention fuel a = Ok a'
    /\ Interval a' = Interval a /\ ChunkSize a' = ChunkSize a
    /\ Retention a' = Retention a /\ EndTime a' = EndTime a
    /\ chunks a' = chunks a /\ lastWrite a' = lastWrite a
    /\ archive_file (disk a') = archive_file (disk a)
    /\ EndTime a' - StartTime a' <= Retention a'
    /\ 0 <= StartTime a' <= Int64.max_int
    /\ (StartTime a' = StartTime a \/ 0 < StartTime a').
Proof.
  induction fuel as [|fuel IH]; intros a Hc Hr Hs He Hmax Hfuel.
  - exists a. simpl. rewrite sub_id by (range; lia).
    destruct (Z.ltb_spec (Retention a) (EndTime a - StartTime a)); [lia|].
    repeat split; auto; lia.
  - simpl. rewrite sub_id by (range; lia).
    destruct (Z.ltb_spec (Retention a) (EndTime a - StartTime a));
      [|exists a; repeat split; auto; lia].
    destruct (chunkStart_bounds a (StartTime a) Hc) as (s & -> & Hs1 & Hs2);
      [range; lia|].
    simpl. rewrite add_id by (range; lia).
    match goal with |- context [exerciseRetention fuel ?b] =>
      destruct (IH b) as (a' & -> & ? & ? & ? & ? & ? & ? & ? & ? & ? & ?)
    end; simpl in *; try (range; lia).
    exists a'. repeat split; try done; lia.
Qed.

Lemma chunkStart_Ok a ts : ChunkSize a <> 0 -> is_Ok (chunkStart a ts).
Proof.
  intros H. unfold chunkStart. rewrite rem_Ok by done. by eexists.
Qed.

Lemma writeChunks_Ok a : forall cs d,
  ChunkSize a <> 0 -> Forall is_Some cs ->
  exists d', writeChunks a cs d = Ok d'
    /\ archive_file d' = archive_file d.
Proof.
  induction cs as [|oc cs IH]; intros d Hc Hs; simpl; [by exists d|].
  apply Forall_cons in Hs as [[c ->] Hs].
  destruct (Chunk.dirty c); [|by apply IH].
  destruct (chunkStart_Ok a (Chunk.StartTime c) Hc) as [s ->].
  simpl. destruct (IH (write_chunk d s c) Hc Hs) as (d' & -> & Hd').
  by exists d'.
Qed.

Lemma Append_inv fuel a val ts a' :
  Append fuel a val ts = Ok a' ->
  exists n lc rest lc',
    tsNorm a ts = Ok n
    /\ appendTarget fuel a n = Ok (lc, rest)
    /\ Chunk.append fuel lc val n = Ok lc'
    /\ a' = set_times (set_chunks a (rest ++ [Some lc']))
              (if StartTime a =? 0 then n else StartTime a) n.
Proof.
  unfold Append. intros H.
  bind_inv H as n Hn. bind_inv H as [lc rest] Ht. bind_inv H as lc' Hlc.
  injection H as <-. by exists n, lc, rest, lc'.
Qed.

Lemma appendTarget_rest fuel a n lc rest :
  appendTarget fuel a n = Ok (lc, rest) ->
  Forall is_Some (chunks a) -> Forall is_Some rest.
Proof.
  unfold appendTarget. intros H Hs.
  destruct (lastChunk a) as [c|].
  - bind_inv H as b Hb. destruct b.
    + bind_inv H as s Hs'. bind_inv H as e He. bind_inv H as c' Hc'.
      injection H as _ <-. unfold replace_last.
      apply Forall_app. split; [by apply Forall_take|].
      by repeat constructor.
    + injection H as _ <-. by apply Forall_take.
  - bind_inv H as r Hr. injection H as _ <-. constructor.
Qed.

(** [Append] keeps the invariant of the times. *)
Lemma Append_times_ok fuel a val ts a' :
  times_ok a -> 0 < ts ->
  ts + Interval a + ChunkSize a <= Int64.max_int ->
  Append fuel a val ts = Ok a' ->
  times_ok a'.
Proof.
  intros [] Hts Hmax H.
  apply Append_inv in H as (n & lc & rest & lc' & Hn & Ht & Hlc & ->).
  rewrite tsNorm_round_up in Hn by (range; lia). injection Hn as <-.
  pose proof (round_up_bounds (Interval a) ts ok_Interval0).
  apply appendTarget_rest in Ht; [|done].
  split; simpl; try done; try lia.
  - destruct (Z.eqb_spec (StartTime a) 0); range; lia.
  - destruct (Z.eqb_spec (StartTime a) 0); lia.
  - destruct (Z.eqb_spec (StartTime a) 0) as [H0|]; [|lia].
    destruct (ok_unset0 H0). lia.
  - apply Forall_app. split; [done|]. by repeat constructor.
  - intros _. by destruct rest.
Qed.

(** [Write] returns on an archive whose times are right, and leaves the
    retained span within the retention. *)
Lemma Write_times_ok fuel a :
  times_ok a ->
  (Z.to_nat (EndTime a) <= fuel)%nat ->
  exists a', Write fuel a = Ok a'
    /\ times_ok a'
    /\ EndTime a' - StartTime a' <= Retention a'.
Proof.
  intros [] Hfuel. unfold Write.
  destruct (Z.ltb_spec (lastWrite a) (EndTime a)) as [Hnew|Hold].
  - destruct (writeChunks_Ok a (chunks a) (disk a)) as (d & -> & Hd);
      [lia | done |]. simpl.
    match goal with |- context [exerciseRetention fuel ?b] =>
      destruct (exerciseRetention_spec fuel b)
        as (a1 & -> & Hi & Hc & Hr & He & Hcs & Hlw & Hh & Hsw & Hs & Hs')
    end; simpl in *; try done; try lia.
    eexists. split; [reflexivity|]. simpl.
    split; [|lia].
    split; simpl; try lia.
    + rewrite Hcs. destruct (lastChunk a) as [c|] eqn:Hl;
        [by repeat constructor|].
      exfalso. unfold lastChunk in Hl.
      destruct (chunks a) as [|oc cs] using rev_ind;
        [by apply ok_nonempty0; [lia|] |].
      rewrite last_snoc in Hl. subst oc.
      apply Forall_app in ok_chunks0 as [_ Hoc].
      apply Forall_cons in Hoc as [[? ?] _]. discriminate.
    + rewrite Hcs. discriminate.
  - simpl. eexists. split; [reflexivity|]. simpl.
    split; [|lia].
    split; simpl; try done; lia.
Qed.

Lemma times_ok_new dir interval retention chunkSize :
  0 < interval -> 0 <= retention -> 0 < chunkSize <= Int64.max_int ->
  times_ok (NewArchive dir interval retention chunkSize).
Proof.
  intros. split; simpl; try done; try lia; range; lia.
Qed.

End Retention.

(** More fuel does not change what a call returned. *)
Lemma exerciseRetention_mono : forall fuel fuel' a a',
  Archive.exerciseRetention fuel a = Ok a' -> (fuel <= fuel')%nat ->
  Archive.exerciseRetention fuel' a = Ok a'.
Proof.
  induction fuel as [|fuel IH]; intros fuel' a a' H Hle.
  - destruct fuel'; simpl in *;
      destruct (_ <? _); done.
  - destruct fuel' as [|fuel']; [lia|]. simpl in *.
    destruct (_ <? _); [|done].
    bind_inv H as s Hs. rewrite Hs. simpl. apply IH; [done|lia].
Qed.

Lemma Write_mono fuel fuel' a a' :
  Archive.Write fuel a = Ok a' -> (fuel <= fuel')%nat ->
  Archive.Write fuel' a = Ok a'.
Proof.
  unfold Archive.Write. intros H Hle. bind_inv H as a1 H1.
  destruct (_ <? _).
  - bind_inv H1 as d Hd. rewrite Hd. simpl.
    by rewrite (exerciseRetention_mono _ _ _ _ H1 Hle).
  - by rewrite H1.
Qed.

Lemma Write_keeps_times_ok fuel a a' :
  times_ok a -> Archive.Write fuel a = Ok a' ->
  times_ok a' /\ Archive.EndTime a' - Archive.StartTime a'
                 <= Archive.Retention a'.
Proof.
  intros Hok H.
  destruct (Write_times_ok (fuel + Z.to_nat (Archive.EndTime a)) a Hok)
    as (a'' & H' & Hok' & Hb); [lia|].
  rewrite (Write_mono _ _ _ _ H) in H' by lia.
  injection H' as <-. done.
Qed.

Lemma reachable_times_ok a : reachable a -> times_ok a.
Proof.
  induction 1 as [dir i r c Hi Hr Hc | fuel a val ts a' _ IH Hts Hmax H
                 | fuel a a' _ IH H].
  - by apply times_ok_new.
  - by eapply Append_times_ok.
  - by eapply Write_keeps_times_ok.
Qed.

(** C8, amended. On an archive built from samples dated after the epoch,
    [Write] returns (the fuel covers the sweep), and when it has returned the
    retained span is at most the retention plus one chunk span -- in fact at
    most the retention. *)
Theorem retention_bound fuel a :
  reachable a ->
  (Z.to_nat (Archive.EndTime a) <= fuel)%nat ->
  exists a',
    Archive.Write fuel a = Ok a'
    /\ Archive.EndTime a' - Archive.StartTime a'
       <= Archive.Retention a' + Archive.ChunkSize a'.
Proof.
  intros Hr Hfuel.
  destruct (Write_times_ok fuel a (reachable_times_ok a Hr) Hfuel)
    as (a' & H & Hok & Hb).
  exists a'. split; [done|]. destruct Hok. lia.
Qed.

Lemma retention_bound_witness :
  exists a a',
    Scenario.far_apart = Ok a
    /\ Archive.Write Scenario.fuel a = Ok a'
    /\ Archive.EndTime a' - Archive.StartTime a'
       <= Archive.Retention a' + Archive.ChunkSize a'.
Proof.
  pose (a0 := Archive.NewArchive "d" 1 60 20).
  pose (v1 := {["val" := VFloat 1]} : gmap string payload).
  pose (v2 := {["val" := VFloat 2]} : gmap string payload).
  run_ok (Archive.Append Scenario.fuel (Archive.NewArchive "d" 1 60 20)
            {["val" := VFloat 1]} 100) ltac:(fun a1 =>
    run_ok (Archive.Append Scenario.fuel a1 {["val" := VFloat 2]} 250)
      ltac:(fun a =>
        assert (H1 : Archive.Append Scenario.fuel a0 v1 100 = Ok a1)
          by (vm_compute; reflexivity);
        assert (H2 : Archive.Append Scenario.fuel a1 v2 250 = Ok a)
          by (vm_compute; reflexivity);
        assert (Hr : reachable a);
        [ apply (reach_Append Scenario.fuel a1 v2 250 a
                   (reach_Append Scenario.fuel a0 v1 100 a1
                      (reach_new "d" 1 60 20 ltac:(lia) ltac:(lia)
                         ltac:(vm_compute; split; [reflexivity|discriminate]))
                      ltac:(lia) ltac:(vm_compute; discriminate) H1)
                   ltac:(lia) ltac:(vm_compute; discriminate) H2)
        | destruct (retention_bound Scenario.fuel a Hr
                      ltac:(vm_compute; lia)) as (a' & Hw & Hb);
          exists a, a';
          split; [vm_compute; reflexivity|]; split; [exact Hw | exact Hb] ])).
Defined.

(** C8, as stated, fails: [Write] sweeps only when the end time is beyond
    the last persisted end time, which starts at 0.  With two samples dated
    before the epoch the write returns with a span of 999995 seconds, for a
    retention of 3600 and a chunk span of 2000. *)
Lemma write_without_sweep :
  exists a,
    Scenario.before_epoch = Ok a
    /\ Archive.EndTime a - Archive.StartTime a = 999995
    /\ Archive.Retention a + Archive.ChunkSize a = 5600.
Proof.
  run_ok Scenario.before_epoch ltac:(fun a => exists a);
  repeat split; vm_compute; reflexivity.
Qed.

(** ** The tag table *)

Section Tags.

Import Chunk.

Lemma tags_ok_inj c i j tag :
  tags_ok c -> Tags c !! i = Some tag -> Tags c !! j = Some tag -> i = j.
Proof.
  intros (tm & _ & H) Hi Hj. apply H in Hi, Hj. congruence.
Qed.

Lemma tags_ok_new r s : tags_ok (newChunk r s).
Proof.
  exists ∅. split; [done|]. intros tag i. simpl.
  rewrite lookup_empty, lookup_nil. split; discriminate.
Qed.

Lemma deref_step_spec c ret tag v :
  tags_ok c ->
  exists c' i,
    deref_step c ret tag v = Ok (c', <[i := v]> ret)
    /\ same_slots c c' /\ tags_ok c'
    /\ Tags c `prefix_of` Tags c'
    /\ Tags c' !! i = Some tag.
Proof.
  intros (tm & Htm & H). unfold deref_step. rewrite Htm. simpl.
  destruct (tm !! tag) as [i|] eqn:Hi.
  - exists c, i. repeat split; try done.
    + by exists tm.
    + by apply H.
  - eexists _, (length (Tags c)). split; [reflexivity|]. simpl.
    repeat split; try done.
    + eexists. split; [reflexivity|]. simpl. intros t i.
      destruct (decide (t = tag)) as [->|Hne].
      * rewrite lookup_insert_eq. split.
        -- intros [= <-]. by rewrite lookup_app_r, Nat.sub_diag.
        -- intros Hl. f_equal.
           destruct (decide (i < length (Tags c))%nat) as [Hlt|Hge].
           ++ rewrite lookup_app_l in Hl by done.
              apply H in Hl. congruence.
           ++ apply lookup_lt_Some in Hl. rewrite length_app in Hl.
              simpl in Hl. lia.
      * rewrite lookup_insert_ne by done. rewrite H. split.
        -- intros Hl. rewrite lookup_app_l; [done|].
           by eapply lookup_lt_Some.
        -- intros Hl.
           destruct (decide (i < length (Tags c))%nat) as [Hlt|Hge].
           ++ by rewrite lookup_app_l in Hl.
           ++ rewrite lookup_app_r in Hl by lia.
              destruct (i - length (Tags c))%nat; simpl in Hl;
                [congruence|]. by rewrite lookup_nil in Hl.
    + by apply prefix_app_r.
    + by rewrite lookup_app_r, Nat.sub_diag.
Qed.

Lemma deref_list_spec l : forall c ret,
  tags_ok c -> NoDup l.*1 ->
  exists c' ret',
    deref_list l c ret = Ok (c', ret')
    /\ same_slots c c' /\ tags_ok c'
    /\ Tags c `prefix_of` Tags c'
    /\ (forall tag, tag ∈ l.*1 -> tag ∈ Tags c')
    /\ forall i,
         ret' !! i
         = match Tags c' !! i ≫= ((list_to_map l : gmap string payload) !!.)
           with
           | Some v => Some v
           | None => ret !! i
           end.
Proof.
  induction l as [|[tag v] l IH]; intros c ret Hc Hnd; simpl.
  - exists c, ret. repeat split; try done.
    + intros tag Hin. by apply elem_of_nil in Hin.
    + intros i. destruct (Tags c !! i); simpl; [|done].
      by rewrite lookup_empty.
  - apply NoDup_cons in Hnd as [Hnotin Hnd].
    destruct (deref_step_spec c ret tag v Hc)
      as (c1 & i & -> & (?&?&?&?&?) & Hc1 & Hp1 & Hi). simpl.
    destruct (IH c1 (<[i := v]> ret) Hc1 Hnd)
      as (c2 & ret2 & -> & (?&?&?&?&?) & Hc2 & Hp2 & Hall & Hl).
    exists c2, ret2. split; [done|].
    split; [repeat split; congruence|]. split; [done|].
    split; [by etrans|].
    assert (Hi2 : Tags c2 !! i = Some tag).
    { destruct Hp2 as [k ->]. rewrite lookup_app_l; [done|].
      by eapply lookup_lt_Some. }
    split.
    + intros t [->|Hin]%elem_of_cons; [|by apply Hall].
      by eapply list_elem_of_lookup_2.
    + intros j. rewrite Hl.
      destruct (Tags c2 !! j) as [t|] eqn:Hj; simpl.
      * destruct (decide (t = tag)) as [->|Hne].
        -- rewrite lookup_insert_eq.
           rewrite (not_elem_of_list_to_map_1 _ _ Hnotin).
           rewrite (tags_ok_inj c2 j i tag Hc2 Hj Hi2).
           apply lookup_insert_eq.
        -- by rewrite !lookup_insert_ne by congruence.
      * apply lookup_insert_ne. congruence.
Qed.

(** [derefTags] returns the slot that holds [val]. *)
Lemma derefTags_spec c val :
  tags_ok c ->
  exists c' m,
    derefTags c val = Ok (c', m)
    /\ same_slots c c' /\ tags_ok c'
    /\ Tags c `prefix_of` Tags c'
    /\ (forall tag, is_Some (val !! tag) -> tag ∈ Tags c')
    /\ slot_holds c' m val.
Proof.
  intros Hc. unfold derefTags.
  destruct (deref_list_spec (map_to_list val) c ∅ Hc)
    as (c' & m & -> & Hs & Hc' & Hp & Hall & Hl);
    [apply NoDup_fst_map_to_list|].
  exists c', m. do 4 (split; [done|]). split.
  - intros tag [v Hv]. apply Hall.
    apply list_elem_of_fmap. exists (tag, v). split; [done|].
    by apply elem_of_map_to_list.
  - intros i. rewrite Hl, list_to_map_to_list, lookup_empty.
    by destruct (Tags c' !! i ≫= _).
Qed.

Lemma resolve_list_spec {V} c (l : list (nat * V)) : forall ret,
  tags_ok c -> NoDup l.*1 ->
  (forall i, i ∈ l.*1 -> is_Some (Tags c !! i)) ->
  exists ret',
    resolve_list c l ret = Ok ret'
    /\ (forall tag i, Tags c !! i = Some tag ->
          ret' !! tag = match (list_to_map l : gmap nat V) !! i with
                        | Some v => Some v
                        | None => ret !! tag
                        end)
    /\ (forall tag, tag ∉ Tags c -> ret' !! tag = ret !! tag).
Proof.
  induction l as [|[i v] l IH]; intros ret Hc Hnd Hin; simpl.
  - exists ret. split; [done|]. split; [|done].
    intros tag i _. by rewrite lookup_empty.
  - apply NoDup_cons in Hnd as [Hnotin Hnd].
    destruct (Hin i) as [t Ht]; [left|]. unfold tag_at. rewrite Ht. simpl.
    destruct (IH (<[t := v]> ret) Hc Hnd) as (ret' & -> & Hl & Hn).
    { intros j Hj. apply Hin. by right. }
    exists ret'. split; [done|]. split.
    + intros tag j Hj. rewrite (Hl tag j Hj).
      destruct (decide (j = i)) as [->|Hne].
      * assert (tag = t) as -> by congruence.
        rewrite (not_elem_of_list_to_map_1 _ _ Hnotin).
        by rewrite !lookup_insert_eq.
      * rewrite (lookup_insert_ne _ i j) by done.
        destruct (list_to_map l !! j); [done|].
        apply lookup_insert_ne. intros ->.
        apply Hne. by eapply tags_ok_inj.
    + intros tag Htag. rewrite (Hn tag Htag).
      apply lookup_insert_ne. intros ->. apply Htag.
      by eapply list_elem_of_lookup_2.
Qed.

(** Reading back a slot that holds [val] gives [val]. *)
Lemma resolve_slot c m val :
  tags_ok c -> slot_holds c m val ->
  (forall tag, is_Some (val !! tag) -> tag ∈ Tags c) ->
  resolve_list c (map_to_list m) ∅ = Ok val.
Proof.
  intros Hc Hm Hall.
  destruct (resolve_list_spec c (map_to_list m) ∅ Hc) as (ret & -> & Hl & Hn).
  { apply NoDup_fst_map_to_list. }
  { intros i Hi. apply list_elem_of_fmap in Hi as ([i' v] & -> & Hi).
    apply elem_of_map_to_list in Hi. simpl. rewrite Hm in Hi.
    destruct (Tags c !! i'); [by eexists | discriminate]. }
  f_equal. apply map_eq. intros tag.
  destruct (decide (tag ∈ Tags c)) as [Hin|Hnotin].
  - apply list_elem_of_lookup_1 in Hin as [i Hi].
    rewrite (Hl tag i Hi), list_to_map_to_list, lookup_empty, Hm, Hi.
    simpl. by destruct (val !! tag).
  - rewrite (Hn tag Hnotin), lookup_empty.
    destruct (val !! tag) eqn:Hv; [|done].
    exfalso. apply Hnotin, Hall. by eexists.
Qed.

Lemma latest_of_slot c m val :
  tags_ok c -> last (Data c) = Some (Some m) -> slot_holds c m val ->
  (forall tag, is_Some (val !! tag) -> tag ∈ Tags c) ->
  latest c = Ok (Some val).
Proof.
  intros Hc Hlast Hm Hall. unfold latest, latestRaw. rewrite Hlast.
  by rewrite (resolve_slot c m val).
Qed.

End Tags.

(** ** Appending a sample that is newer than the chunk *)

(** [c2] is [c] with some slots pushed. *)
Lemma tags_ok_same c c' :
  Chunk.Tags c' = Chunk.Tags c -> Chunk.tagMap c' = Chunk.tagMap c ->
  tags_ok c -> tags_ok c'.
Proof. unfold tags_ok. intros -> ->. done. Qed.

Lemma filled_fields c n fv ts :
  Chunk.StartTime (filled c n fv ts) = Chunk.StartTime c
  /\ Chunk.Resolution (filled c n fv ts) = Chunk.Resolution c
  /\ Chunk.Tags (filled c n fv ts) = Chunk.Tags c
  /\ Chunk.tagMap (filled c n fv ts) = Chunk.tagMap c
  /\ Chunk.Data (filled c n fv ts) = Chunk.Data c ++ replicate n fv.
Proof. destruct n; simpl; by rewrite ?app_nil_r. Qed.

Lemma append_pushes fuel c val ts :
  tags_ok c -> 0 < Chunk.Resolution c ->
  0 <= Chunk.EndTime c < ts ->
  Int64.min_int <= Chunk.StartTime c <= Int64.max_int ->
  ts + Chunk.Resolution c <= Int64.max_int ->
  (Z.to_nat (ts - Chunk.StartTime c) <= fuel)%nat ->
  (Z.to_nat (ts - Chunk.EndTime c) <= fuel)%nat ->
  exists c' m n fv,
    Chunk.append fuel c val ts = Ok c'
    /\ Chunk.EndTime c' = ts
    /\ Chunk.StartTime c' = Chunk.StartTime c
    /\ Chunk.Resolution c' = Chunk.Resolution c
    /\ Chunk.Data c' = Chunk.Data c ++ replicate n fv ++ [Some m]
    /\ tags_ok c'
    /\ slot_holds c' m val
    /\ (forall tag, is_Some (val !! tag) -> tag ∈ Chunk.Tags c')
    /\ Chunk.Tags c `prefix_of` Chunk.Tags c'
    /\ (fv = None \/ fv = Chunk.latestRaw c).
Proof.
  intros Hc Hr He Hs Hmax Hf1 Hf2.
  set (r := Chunk.Resolution c) in *. set (e := Chunk.EndTime c) in *.
  assert (Hmid : exists c2 n fv,
    (c1 ← (if negb (Chunk.empty c) && (Int64.add e r <? ts)
           then Chunk.fillTo fuel c ts else Ok c);
     if Chunk.empty c1 && negb (ts =? Chunk.StartTime c1)
     then Chunk.padLoop fuel ts (Chunk.StartTime c1) c1 else Ok c1) = Ok c2
    /\ Chunk.StartTime c2 = Chunk.StartTime c
    /\ Chunk.Resolution c2 = r
    /\ Chunk.Tags c2 = Chunk.Tags c
    /\ Chunk.tagMap c2 = Chunk.tagMap c
    /\ Chunk.Data c2 = Chunk.Data c ++ replicate n fv
    /\ (fv = None \/ fv = Chunk.latestRaw c)).
  { unfold Chunk.empty. fold e.
    destruct (Z.eqb_spec e 0) as [He0|He0]; simpl.
    - unfold Chunk.empty. fold e. rewrite He0. simpl.
      destruct (Z.eqb_spec ts (Chunk.StartTime c)) as [Hst|Hst]; simpl.
      + exists c, 0%nat, None. rewrite app_nil_r. repeat split; by left.
      + destruct (padLoop_total fuel ts (Chunk.StartTime c) c)
          as [n ->]; try done.
        eexists _, n, None. repeat split; by left.
    - rewrite add_id by (range; lia).
      destruct (Z.ltb_spec (e + r) ts).
      + unfold Chunk.fillTo. fold e r.
        rewrite sub_id by (range; lia).
        rewrite quo_Ok; [| lia |].
        2:{ rewrite quot_div by lia.
            pose proof (Z.div_pos (ts - e) r ltac:(lia) Hr).
            pose proof (Z.div_le_upper_bound (ts - e) r (ts - e) Hr
                          ltac:(nia)).
            range; lia. }
        rewrite quot_div by lia.
        simpl. rewrite add_id by (range; lia).
        match goal with |- context [Chunk.fillLoop fuel ?fv ts (e + r) c] =>
          destruct (fillLoop_total fuel fv ts (e + r) c) as [n Hn];
            try done; try (range; lia); try lia;
          rewrite Hn; simpl;
          destruct (filled_fields c n fv (e + r)) as (?&?&?&?&?)
        end.
        assert (Chunk.EndTime (filled c n
                  (if (ts - e) / r <? 3 then Chunk.latestRaw c else None)
                  (e + r)) <> 0) as Hne.
        { destruct n; simpl; fold e r; nia. }
        unfold Chunk.empty. apply Z.eqb_neq in Hne. rewrite Hne. simpl.
        eexists _, n, _. repeat split; try done.
        destruct (_ <? 3); [by right | by left].
      + simpl. unfold Chunk.empty. fold e.
        destruct (Z.eqb_spec e 0) as [|_]; [done|]. simpl.
        exists c, 0%nat, None. rewrite app_nil_r. repeat split; by left. }
  destruct Hmid as (c2 & n & fv & Hc2 & Hs2 & Hr2 & Ht2 & Htm2 & Hd2 & Hfv).
  destruct (derefTags_spec c2 val (tags_ok_same c c2 Ht2 Htm2 Hc))
    as (c3 & m & Hderef & (Hs3 & He3 & Hr3 & Hd3 & _) & Hc3 & Hp & Hall & Hm).
  exists (Chunk.push_fill c3 (Some m) ts), m, n, fv.
  split.
  - unfold Chunk.append. fold e r.
    destruct (Z.ltb_spec ts e); [lia|].
    destruct (Z.eqb_spec ts e); [lia|].
    apply bind_Ok in Hc2 as (c1 & Hc1 & Hc2). rewrite Hc1. simpl.
    rewrite Hc2. simpl. rewrite Hderef. reflexivity.
  - simpl. split; [done|]. split; [congruence|]. split; [congruence|].
    split; [by rewrite Hd3, Hd2, <- app_assoc|].
    split; [by apply (tags_ok_same c3)|].
    split; [done|]. split; [done|]. split; [by rewrite <- Ht2 | done].
Qed.

(** ** Appending to an archive *)

Section AppendLatest.

Import Archive.

Lemma lastChunk_snoc a cs c :
  lastChunk (set_times (set_chunks a (cs ++ [Some c]))
               (if StartTime a =? 0 then EndTime a else StartTime a)
               (EndTime a)) = Some c.
Proof. unfold lastChunk. simpl. by rewrite last_snoc. Qed.

(** The chunk that receives a sample newer than everything in the archive
    is ready for it. *)
Lemma appendTarget_ready fuel a n :
  tail_ok a -> 0 < n -> latest_time a < n ->
  n + Interval a + ChunkSize a <= Int64.max_int ->
  (Z.to_nat n <= fuel)%nat ->
  exists lc rest,
    appendTarget fuel a n = Ok (lc, rest)
    /\ tags_ok lc /\ Chunk.Resolution lc = Interval a
    /\ 0 <= Chunk.EndTime lc < n
    /\ 0 <= Chunk.StartTime lc <= Int64.max_int.
Proof.
  intros [Hi Hc Htail] Hn Hlt Hmax Hfuel.
  unfold appendTarget, latest_time in *.
  destruct (lastChunk a) as [lc|] eqn:Hlast.
  - destruct (Htail lc eq_refl) as (Htags & Hres & He & Hs).
    unfold boundaryCheck, chunkEnd. rewrite Hlast.
    destruct (chunkStart_bounds a (Chunk.StartTime lc) Hc Hs)
      as (s & -> & Hs1 & Hs2).
    simpl. destruct (_ <? n).
    + destruct (chunkStart_bounds a n Hc) as (s' & -> & Hs1' & Hs2');
        [range; lia|]. simpl.
      assert (Hfill : exists lc',
        (if Chunk.EndTime lc
            <? Int64.sub (Int64.add s (ChunkSize a)) (Interval a)
         then Chunk.fillTo fuel lc s' else Ok lc) = Ok lc').
      { destruct (_ <? _); [|by eexists].
        unfold Chunk.fillTo. rewrite Hres.
        unfold Int64.quo. destruct (Z.eqb_spec (Interval a) 0); [lia|].
        simpl. rewrite add_id by (range; lia).
        destruct (fillLoop_total fuel
          (if Int64.wrap (Z.quot (Int64.sub s' (Chunk.EndTime lc))
                            (Interval a)) <? 3
           then Chunk.latestRaw lc else None)
          s' (Chunk.EndTime lc + Interval a) lc) as [k ->];
          rewrite ?Hres; try (range; lia); try lia.
        by eexists. }
      destruct Hfill as [lc' ->]. simpl.
      eexists _, _. split; [reflexivity|].
      split; [apply tags_ok_new|]. simpl. range. repeat split; lia.
    + eexists _, _. split; [reflexivity|]. repeat split; try done; lia.
  - rewrite rem_Ok by lia. simpl.
    rewrite rem_mod by lia.
    pose proof (Z.mod_pos_bound n (ChunkSize a) Hc).
    pose proof (Z.mod_le n (ChunkSize a) ltac:(lia) Hc).
    rewrite sub_id by (range; lia).
    eexists _, _. split; [reflexivity|].
    split; [apply tags_ok_new|]. simpl. range. repeat split; lia.
Qed.

(** A sample newer than everything in the archive becomes the latest. *)
Lemma Append_Latest fuel a val ts :
  tail_ok a -> 0 < ts ->
  ts + 2 * Interval a + ChunkSize a <= Int64.max_int ->
  latest_time a < round_up (Interval a) ts ->
  (Z.to_nat (ts + Interval a) <= fuel)%nat ->
  exists a',
    Append fuel a val ts = Ok a'
    /\ Latest a' = Ok (Some val, round_up (Interval a) ts)
    /\ tail_ok a'.
Proof.
  intros Hok Hts Hmax Hlt Hfuel.
  pose proof (tail_Interval a Hok) as Hi.
  pose proof (tail_ChunkSize a Hok) as Hcs.
  pose proof (round_up_bounds (Interval a) ts Hi) as Hb.
  set (n := round_up (Interval a) ts) in *.
  destruct (appendTarget_ready fuel a n Hok)
    as (lc & rest & Ht & Htags & Hres & He & Hs); try lia.
  destruct (append_pushes fuel lc val n Htags)
    as (lc' & m & k & fv & Hlc' & He' & Hs' & Hr' & Hd' & Htags' & Hm
        & Hall & _); rewrite ?Hres; try (range; lia).
  eexists. split.
  - unfold Append. rewrite tsNorm_round_up by (range; lia). simpl.
    fold n. rewrite Ht. simpl. rewrite Hlc'. reflexivity.
  - split.
    + unfold Latest, lastChunk. simpl. rewrite last_snoc.
      rewrite (latest_of_slot lc' m val); try done.
      * simpl. by rewrite He'.
      * by rewrite Hd', app_assoc, last_snoc.
    + destruct Hok. split; simpl; try done.
      unfold lastChunk. simpl. rewrite last_snoc. intros c [= <-].
      repeat split; try done; try lia; congruence.
Qed.

End AppendLatest.

(** ** The latest sample of a series *)

Lemma castList_lookup_notin l k : forall res out,
  Tissa.castList l res = Ok out -> k ∉ l.*1 -> out !! k = res !! k.
Proof.
  induction l as [|[k' v] l IH]; intros res out H Hk; simpl in *.
  - by injection H as <-.
  - bind_inv H as f Hf. apply not_elem_of_cons in Hk as [Hne Hk].
    rewrite (IH _ _ H Hk). by rewrite lookup_insert_ne.
Qed.

Lemma castList_floats l : forall res,
  NoDup l.*1 -> Forall (fun kv => exists f, kv.2 = VFloat f) l ->
  exists out, Tissa.castList l res = Ok out
    /\ (forall k f, (k, VFloat f) ∈ l -> out !! k = Some f)
    /\ (forall k, k ∉ l.*1 -> out !! k = res !! k).
Proof.
  induction l as [|[k v] l IH]; intros res Hnd Hf; simpl.
  - exists res. split; [done|]. split; [|done].
    intros k f Hin. by apply elem_of_nil in Hin.
  - apply NoDup_cons in Hnd as [Hk Hnd].
    apply Forall_cons in Hf as [[f Hv] Hf]. simpl in Hv. subst v. simpl.
    destruct (IH (<[k := f]> res) Hnd Hf) as (out & Hout & Hl & Hn).
    exists out. split; [done|]. split.
    + intros k' f' [[= -> ->]|Hin]%elem_of_cons; [|by apply Hl].
      rewrite (Hn k Hk). apply lookup_insert_eq.
    + intros k' [Hne Hk']%not_elem_of_cons.
      rewrite (Hn k' Hk'). by apply lookup_insert_ne.
Qed.

(** Casting back the map [AddValues] converted gives the values. *)
Lemma castList_converted (vals : gmap string float) :
  Tissa.castList (map_to_list (VFloat <$> vals)) ∅ = Ok vals.
Proof.
  destruct (castList_floats (map_to_list (VFloat <$> vals)) ∅)
    as (out & -> & Hl & Hn).
  - apply NoDup_fst_map_to_list.
  - apply Forall_forall. intros [k v] Hin.
    apply elem_of_map_to_list in Hin. rewrite lookup_fmap in Hin.
    destruct (vals !! k) as [f|]; [|discriminate].
    injection Hin as <-. by exists f.
  - f_equal. apply map_eq. intros k.
    destruct (vals !! k) as [f|] eqn:Hk.
    + apply Hl. apply elem_of_map_to_list. by rewrite lookup_fmap, Hk.
    + rewrite Hn; [apply lookup_empty|].
      intros Hin. apply list_elem_of_fmap in Hin as ([k' v] & -> & Hin).
      apply elem_of_map_to_list in Hin. rewrite lookup_fmap in Hin.
      simpl in Hk. by rewrite Hk in Hin.
Qed.

(** C6, amended. When the sample is dated after the epoch and is newer than
    the latest sample of the base archive, [AddValues] appends it to the base
    archive (this returns) and runs the cascade on the coarser archives;
    whenever the cascade returns, [AddValues] returns and [Latest] then
    answers the values, at the timestamp rounded up to the base resolution.
    (An older sample is dropped; a sample of the same slot is merged into
    it.) *)
Theorem latest_after_add fuel t base coarser (vals : gmap string float) ts :
  Tissa.archives t = base :: coarser ->
  tail_ok base ->
  0 < ts ->
  ts + 2 * Archive.Interval base + Archive.ChunkSize base
    <= Int64.max_int ->
  latest_time base < round_up (Archive.Interval base) ts ->
  (Z.to_nat (ts + Archive.Interval base) <= fuel)%nat ->
  exists base',
    Archive.Append fuel base (VFloat <$> vals) ts = Ok base'
    /\ forall rest,
         Tissa.cascade fuel ts (Archive.EndTime base) true base' coarser
           = Ok rest ->
         exists t',
           Tissa.AddValues fuel t vals ts = Ok t'
           /\ Tissa.archives t' = base' :: rest
           /\ Tissa.Latest t'
              = Ok (vals, round_up (Archive.Interval base) ts).
Proof.
  intros Ha Hok Hts Hmax Hlt Hfuel.
  destruct (Append_Latest fuel base (VFloat <$> vals) ts Hok Hts Hmax Hlt
              Hfuel) as (base' & Happ & Hlatest & _).
  exists base'. split; [done|]. intros rest Hc.
  exists (Tissa.set_archives t (base' :: rest)).
  split; [|split; [reflexivity|]].
  - unfold Tissa.AddValues, Tissa.baseArchive. rewrite Ha. simpl.
    rewrite Happ. simpl. rewrite Hc. reflexivity.
  - unfold Tissa.Latest, Tissa.baseArchive. simpl. rewrite Hlatest. simpl.
    by rewrite castList_converted.
Qed.

Lemma tail_ok_new dir interval retention chunkSize :
  0 < interval -> 0 < chunkSize ->
  tail_ok (Archive.NewArchive dir interval retention chunkSize).
Proof. intros. split; simpl; try done. Qed.

Lemma latest_after_add_witness :
  exists t t',
    Scenario.one_sample = Ok t
    /\ Tissa.AddValues Scenario.fuel t {["a" := 2%float]} 130 = Ok t'
    /\ Tissa.Latest t' = Ok ({["a" := 2%float]}, round_up 1 130).
Proof.
  pose (v1 := {["a" := VFloat 1]} : gmap string payload).
  pose (v2 := {["a" := 2%float]} : gmap string float).
  pose (a0 := Archive.set_disk
                (Archive.NewArchive "d/1" 1 3600 2000)
                (Archive.write_header Archive.empty_directory
                   (Archive.header_of
                      (Archive.NewArchive "d/1" 1 3600 2000)))).
  assert (H0 : tail_ok a0) by (split; simpl; done).
  destruct (Append_Latest Scenario.fuel a0 v1 100 H0 ltac:(lia)
              ltac:(vm_compute; discriminate) ltac:(vm_compute; reflexivity)
              ltac:(vm_compute; lia)) as (a1 & Ha1 & _ & H1).
  run_ok Scenario.one_sample ltac:(fun t =>
    lazymatch t with
    | {| Tissa.archives := ?b :: ?cs |} =>
        assert (Hb : Archive.Append Scenario.fuel a0 v1 100 = Ok b)
          by (vm_compute; reflexivity);
        rewrite Hb in Ha1; injection Ha1 as <-;
        destruct (latest_after_add Scenario.fuel t b cs v2 130 eq_refl H1
                    ltac:(lia) ltac:(vm_compute; discriminate)
                    ltac:(vm_compute; reflexivity) ltac:(vm_compute; lia))
          as (b' & Hb' & Hrest);
        run_ok (Archive.Append Scenario.fuel b (VFloat <$> v2) 130)
          ltac:(fun b2 =>
            assert (Hb2 : Archive.Append Scenario.fuel b (VFloat <$> v2) 130
                          = Ok b2) by (vm_compute; reflexivity);
            rewrite Hb2 in Hb'; injection Hb' as <-;
            run_ok (Tissa.cascade Scenario.fuel 130 (Archive.EndTime b) true
                      b2 cs)
              ltac:(fun rest =>
                destruct (Hrest rest ltac:(vm_compute; reflexivity))
                  as (t' & Ht' & _ & Hl);
                exists t, t';
                split; [vm_compute; reflexivity|];
                split; [exact Ht' | exact Hl]))
    end).
Defined.

(** C6, as stated, fails on a late sample: after a sample at 100, the values
    added at 50 are dropped and [Latest] still answers the sample of 100. *)
Lemma late_sample_is_not_latest :
  exists t,
    Scenario.late_sample = Ok t
    /\ Tissa.Latest t = Ok ({["a" := 1%float]}, 100).
Proof.
  run_ok Scenario.late_sample ltac:(fun t => exists t);
  split; vm_compute; reflexivity.
Qed.

(** ** The rollup law *)

Lemma Append_deterministic_Latest fuel a val ts a' :
  tail_ok a -> 0 < ts ->
  ts + 2 * Archive.Interval a + Archive.ChunkSize a <= Int64.max_int ->
  latest_time a < round_up (Archive.Interval a) ts ->
  (Z.to_nat (ts + Archive.Interval a) <= fuel)%nat ->
  Archive.Append fuel a val ts = Ok a' ->
  Archive.Latest a' = Ok (Some val, round_up (Archive.Interval a) ts).
Proof.
  intros Hok Hts Hmax Hlt Hfuel H.
  destruct (Append_Latest fuel a val ts Hok Hts Hmax Hlt Hfuel)
    as (a'' & H' & Hl & _).
  congruence.
Qed.

Lemma closed_end_bounds R ts :
  0 < R -> closed_end R ts <= ts < closed_end R ts + R
           /\ closed_end R ts mod R = 0.
Proof.
  intros HR. unfold closed_end.
  pose proof (Z.mod_pos_bound ts R HR).
  split; [lia|].
  rewrite Zminus_mod_idemp_r, Z.sub_diag. apply Z.mod_0_l. lia.
Qed.

(** The first step of the cascade, when a boundary of the first coarser
    interval is crossed. *)
Lemma cascade_first_step fuel ts last base' coarse rest out :
  0 < Archive.Interval coarse ->
  0 < ts <= Int64.max_int -> 0 <= last <= Int64.max_int ->
  ts / Archive.Interval coarse <> last / Archive.Interval coarse ->
  Tissa.cascade fuel ts last true base' (coarse :: rest) = Ok out ->
  let R := Archive.Interval coarse in
  exists data stamps rollups coarse' rest',
    Archive.GetData fuel base' (Int64.sub (closed_end R ts) R)
      (closed_end R ts) = Ok (data, stamps)
    /\ Tissa.rollupRawData data = Ok rollups
    /\ Archive.Append fuel coarse rollups (closed_end R ts) = Ok coarse'
    /\ out = coarse' :: rest'.
Proof.
  intros HR Hts Hlast Hne H R. simpl in H. fold R in H.
  assert (Hq : forall x, 0 <= x <= Int64.max_int ->
            Int64.quo x R = Ok (x / R)).
  { intros x Hx. rewrite quo_Ok; [by rewrite quot_div by lia | lia |].
    rewrite quot_div by lia.
    pose proof (Z.div_pos x R ltac:(lia) HR).
    pose proof (Z.div_le_upper_bound x R x HR ltac:(nia)).
    range. lia. }
  rewrite !Hq in H by lia. simpl in H.
  destruct (Z.eqb_spec (ts / R) (last / R)); [done|].
  rewrite rem_Ok in H by lia. simpl in H. rewrite rem_mod in H by lia.
  pose proof (closed_end_bounds R ts HR) as [Hb _].
  unfold closed_end in *.
  pose proof (Z.mod_pos_bound ts R HR).
  pose proof (Z.mod_le ts R ltac:(lia) HR).
  rewrite (sub_id ts) in H by (range; lia).
  replace (Int64.add (Int64.sub (ts - ts mod R) R) R) with (ts - ts mod R)
    in H.
  2:{ unfold Int64.add, Int64.sub. rewrite wrap_wrap_add.
      rewrite wrap_id; [lia | range; lia]. }
  bind_inv H as [data stamps] Hg. bind_inv H as rollups Hr.
  bind_inv H as coarse' Ha. bind_inv H as rest' Hrest.
  injection H as <-. by exists data, stamps, rollups, coarse', rest'.
Qed.

Lemma reduce_map_inv reduce data out :
  Tissa.reduceList reduce (map_to_list data) ∅ = Ok out ->
  dom out = dom data
  /\ forall k v, data !! k = Some v ->
       exists r, reduce v Rollup_zero true = Ok r
                 /\ out !! k = Some (VRollup r).
Proof.
  intros Hout.
  assert (Hl : forall k v, data !! k = Some v ->
            exists r, reduce v Rollup_zero true = Ok r
                      /\ out !! k = Some (VRollup r)).
  { intros k v Hk. eapply reduceList_lookup; eauto.
    - apply NoDup_fst_map_to_list.
    - by apply elem_of_map_to_list. }
  split; [|done].
  apply set_eq. intros k. rewrite !elem_of_dom. split.
  - intros [p Hp]. destruct (data !! k) as [v|] eqn:Hk; [by eexists|].
    rewrite (reduceList_lookup_notin _ _ k _ _ Hout) in Hp.
    + by rewrite lookup_empty in Hp.
    + intros Hin. apply list_elem_of_fmap in Hin as ([k' v] & -> & Hin).
      apply elem_of_map_to_list in Hin. simpl in Hk. congruence.
  - intros [v Hk]. destruct (Hl k v Hk) as (r & _ & ->). by eexists.
Qed.

(** C2, amended. When an append crosses a boundary of the first coarser
    interval [R], the cascade reads from the base archive the window that
    was just closed, [[closed_end R ts - R, closed_end R ts)], and stores at
    [closed_end R ts] in the first coarser archive a rollup with the signals
    of that window; for every signal, the rollup counts, sums and takes the
    maximum and minimum of the slots of the window that are not nil, as they
    are stored in the base archive -- the samples and the copies that filled
    brief gaps.  When these slots are the samples [v_1 .. v_k], the rollup is
    [(count = k, total = sum, max, min)] of the samples. *)
Theorem rollup_law fuel t base coarse rest vals ts t' :
  Tissa.archives t = base :: coarse :: rest ->
  tail_ok coarse ->
  0 < ts <= Int64.max_int ->
  0 <= Archive.EndTime base <= Int64.max_int ->
  ts / Archive.Interval coarse
    <> Archive.EndTime base / Archive.Interval coarse ->
  0 < closed_end (Archive.Interval coarse) ts ->
  latest_time coarse < closed_end (Archive.Interval coarse) ts ->
  closed_end (Archive.Interval coarse) ts + 2 * Archive.Interval coarse
    + Archive.ChunkSize coarse <= Int64.max_int ->
  (Z.to_nat (closed_end (Archive.Interval coarse) ts
             + Archive.Interval coarse) <= fuel)%nat ->
  Tissa.AddValues fuel t vals ts = Ok t' ->
  exists base' coarse' rest' data stamps rollups,
    Tissa.archives t' = base' :: coarse' :: rest'
    /\ Archive.Append fuel base (VFloat <$> vals) ts = Ok base'
    /\ Archive.GetData fuel base'
         (closed_end (Archive.Interval coarse) ts - Archive.Interval coarse)
         (closed_end (Archive.Interval coarse) ts) = Ok (data, stamps)
    /\ Archive.Latest coarse'
       = Ok (Some rollups, closed_end (Archive.Interval coarse) ts)
    /\ dom rollups = dom data
    /\ forall k w vs,
         data !! k = Some w ->
         present w = VFloat <$> vs ->
         Z.of_nat (length vs) <= Int64.max_int ->
         rollups !! k = Some (VRollup (rollup_of vs)).
Proof.
  intros Ha Hok Hts Hlast Hcross Hpos Hlt Hmax Hfuel H.
  pose proof (tail_Interval coarse Hok) as HR.
  pose proof (tail_ChunkSize coarse Hok) as HC.
  set (R := Archive.Interval coarse) in *.
  unfold Tissa.AddValues, Tissa.baseArchive in H. rewrite Ha in H.
  simpl in H. bind_inv H as base' Hb. bind_inv H as out Hc.
  injection H as <-.
  apply cascade_first_step in Hc
    as (data & stamps & rollups & coarse' & rest' & Hg & Hr & Happ & ->);
    try done.
  fold R in Hg, Happ.
  pose proof (closed_end_bounds R ts HR) as [Hb1 Hb2].
  rewrite sub_id in Hg by (range; lia).
  apply Append_deterministic_Latest in Happ; try done;
    [| fold R; by rewrite round_up_multiple].
  fold R in Happ. rewrite round_up_multiple in Happ by done.
  apply reduce_map_inv in Hr as [Hdom Hl].
  exists base', coarse', rest', data, stamps, rollups.
  repeat (split; [done|]).
  intros k w vs Hk Hp Hlen. destruct (Hl k w Hk) as (r & Hr & ->).
  rewrite (rawLoop_rollup_of w vs Hp Hlen) in Hr. by injection Hr as <-.
Qed.

(** [run_hyp H] replaces the call on the left of [H : e = Ok x] by the value
    it returns, so that [x] becomes that value. *)
Ltac run_hyp H :=
  let Hv := fresh "Hv" in
  lazymatch type of H with
  | ?e = Ok _ =>
      run_ok e ltac:(fun v =>
        assert (Hv : e = Ok v) by (vm_compute; reflexivity));
      rewrite Hv in H; clear Hv
  end.

Lemma rollup_law_witness :
  exists t t' base' coarse' rollups,
    Scenario.two_in_a_minute = Ok t
    /\ Tissa.AddValues Scenario.fuel t {["val" := 9%float]} 70 = Ok t'
    /\ Tissa.archives t' = [base'; coarse']
    /\ Archive.Latest coarse' = Ok (Some rollups, 60)
    /\ rollups !! "val" = Some (VRollup (rollup_of [5; 7]%float)).
Proof.
  pose (v := {["val" := 9%float]} : gmap string float).
  run_ok Scenario.two_in_a_minute ltac:(fun t =>
    run_ok (Tissa.AddValues Scenario.fuel t v 70) ltac:(fun t' =>
      lazymatch t with
      | {| Tissa.archives := [?b; ?c] |} =>
        assert (Ht : Scenario.two_in_a_minute = Ok t)
          by (vm_compute; reflexivity);
        assert (Ht' : Tissa.AddValues Scenario.fuel t v 70 = Ok t')
          by (vm_compute; reflexivity);
        assert (Hc : tail_ok c) by (split; simpl; done);
        destruct (rollup_law Scenario.fuel t b c [] v 70 t' eq_refl Hc
                    ltac:(vm_compute; split; [reflexivity | discriminate])
                    ltac:(vm_compute; split; discriminate)
                    ltac:(vm_compute; discriminate)
                    ltac:(vm_compute; reflexivity)
                    ltac:(vm_compute; reflexivity)
                    ltac:(vm_compute; discriminate)
                    ltac:(vm_compute; lia)
                    Ht')
          as (base' & coarse' & rest' & data & stamps & rollups
              & Harch & Happ & Hget & Hlatest & _ & Hlaw)
      end)).
  run_hyp Happ. injection Happ as <-.
  run_hyp Hget. injection Hget as <- <-.
  assert (rest' = []) as ->.
  { apply (f_equal (drop 2)) in Harch. vm_compute in Harch. congruence. }
  eexists _, _, _, coarse', rollups.
  split; [exact Ht|]. split; [exact Ht'|]. split; [exact Harch|].
  split; [exact Hlatest|].
  eapply (Hlaw "val" _ [5; 7]%float);
    [vm_compute; reflexivity | vm_compute; reflexivity
    | vm_compute; discriminate].
Defined.

(** C2, as stated, fails: one sample, of value 5, lands at 58 in the minute
    from 0 to 60, and the append at 60 crosses the boundary; the rollup of
    that minute, stored at 60, has count 2 and total 10 -- the slot at 59 was
    filled forward with a copy of the sample -- not count 1 and total 5. *)
Lemma fill_forward_is_counted :
  exists t,
    Scenario.before_boundary 0 = Ok t
    /\ Tissa.Rollups Scenario.fuel t 0 120 60
       = Ok ({["val" := [Rollup_zero;
                         {| Total := 10; Count := 2; Min := 5; Max := 5 |}]]},
             [0; 60]).
Proof.
  run_ok (Scenario.before_boundary 0) ltac:(fun t => exists t);
  split; vm_compute; reflexivity.
Qed.

(** ** The signals of a window *)

Section Observed.

Import Chunk Archive.

Lemma store_lookup {A} (l l' : list A) i x :
  store l i x = Ok l' ->
  length l' = length l
  /\ l' !! Z.to_nat i = Some x
  /\ forall j, j <> Z.to_nat i -> l' !! j = l !! j.
Proof.
  unfold store. destruct (Z.leb_spec 0 i); [|discriminate].
  destruct (Z.ltb_spec i (Z.of_nat (length l))); [|discriminate].
  simpl. intros [= <-]. split; [apply length_insert|]. split.
  - apply list_lookup_insert_eq. lia.
  - intros j Hj. by apply list_lookup_insert_ne.
Qed.

(** Every series [copyTick] touches is observed. *)
Lemma copyTick_observed l i tick : forall data data',
  copyTick l i tick data = Ok data' ->
  (forall tag ser, data !! tag = Some ser -> observed ser) ->
  forall tag ser, data' !! tag = Some ser -> observed ser.
Proof.
  induction tick as [|[t v] tick IH]; intros data data' H Hobs; simpl in H.
  - by injection H as <-.
  - bind_inv H as ser' Hs. apply (IH _ _ H).
    intros tag ser Hl.
    destruct (decide (tag = t)) as [->|Hne].
    + rewrite lookup_insert_eq in Hl. injection Hl as <-.
      apply store_lookup in Hs as (_ & Hs & _). by eexists _, _.
    + rewrite lookup_insert_ne in Hl by done. by eapply Hobs.
Qed.

Lemma getLoop_observed c l endTime : forall fuel ct i data stamps data' stamps',
  getLoop fuel c l endTime ct i data stamps = Ok (data', stamps') ->
  (forall tag ser, data !! tag = Some ser -> observed ser) ->
  forall tag ser, data' !! tag = Some ser -> observed ser.
Proof.
  induction fuel as [|fuel IH]; intros ct i data stamps data' stamps' H Hobs;
    simpl in H.
  - destruct (ct <? endTime); [discriminate|]. by injection H as <- _.
  - destruct (ct <? endTime); [|by injection H as <- _].
    bind_inv H as idx Hidx. bind_inv H as data1 Hd. bind_inv H as st1 Hst.
    apply (IH _ _ _ _ _ _ H).
    destruct (_ && _); [|by injection Hd as <-].
    destruct (Data c !! Z.to_nat idx) as [[tick|]|];
      try by injection Hd as <-.
    by eapply copyTick_observed.
Qed.

(** Re-keying keeps the series. *)
Lemma resolve_list_values {V} c (P : V -> Prop) (l : list (nat * V)) :
  forall ret ret',
  resolve_list c l ret = Ok ret' ->
  Forall (fun iv => P iv.2) l ->
  (forall k v, ret !! k = Some v -> P v) ->
  forall k v, ret' !! k = Some v -> P v.
Proof.
  induction l as [|[i v] l IH]; intros ret ret' H Hl Hret; simpl in H.
  - by injection H as <-.
  - bind_inv H as tag Htag. apply Forall_cons in Hl as [Hv Hl].
    apply (IH _ _ H Hl). intros k v' Hk.
    destruct (decide (k = tag)) as [->|Hne].
    + rewrite lookup_insert_eq in Hk. by injection Hk as <-.
    + rewrite lookup_insert_ne in Hk by done. by eapply Hret.
Qed.

(** A chunk answers only with the signals it observed in the window. *)
Lemma getData_observed fuel c startTime endTime data stamps :
  getData fuel c startTime endTime = Ok (data, stamps) ->
  forall k w, data !! k = Some w -> observed w.
Proof.
  unfold getData. intros H. bind_inv H as l Hl.
  destruct (l <? 0); [discriminate|].
  bind_inv H as [d st] Hg. bind_inv H as d' Hr. injection H as <- <-.
  eapply (resolve_list_values c observed); [exact Hr | | ].
  - apply Forall_forall. intros [i ser] Hin.
    apply elem_of_map_to_list in Hin. simpl.
    eapply getLoop_observed; [exact Hg | | exact Hin].
    intros tag ser' Hs. by rewrite lookup_empty in Hs.
  - intros k v Hk. by rewrite lookup_empty in Hk.
Qed.

Lemma store_index {A} (l l' : list A) i x :
  store l i x = Ok l' -> 0 <= i < Z.of_nat (length l).
Proof.
  unfold store. destruct (Z.leb_spec 0 i); [|discriminate].
  destruct (Z.ltb_spec i (Z.of_nat (length l))); [|discriminate]. lia.
Qed.

Lemma add_le_max a b : Int64.add a b <= Int64.max_int.
Proof. apply (wrap_in_range (a + b)). Qed.

(** The next index of [splice], when the store at that index succeeded. *)
Lemma next_index {A} (l l' : list A) i x :
  i <= Int64.max_int -> 0 <= i ->
  store l (Int64.add i 1) x = Ok l' -> Int64.add i 1 = i + 1.
Proof.
  intros Hmax Hi Hs. apply store_index in Hs. unfold Int64.add in *.
  destruct (Z_le_gt_dec (i + 1) Int64.max_int); [apply wrap_id; range; lia|].
  assert (i + 1 = 2 ^ 63) as Heq by (range; lia).
  rewrite Heq in Hs.
  replace (Int64.wrap (2 ^ 63)) with (- 2 ^ 63) in Hs by reflexivity. lia.
Qed.

(** [splice] leaves the positions before [i] as they were. *)
Lemma splice_before {A} (ticks : list A) : forall exst i exst',
  i <= Int64.max_int ->
  splice exst i ticks = Ok exst' ->
  forall j, (Z.of_nat j < i) -> exst' !! j = exst !! j.
Proof.
  induction ticks as [|x ticks IH]; intros exst i exst' Hmax H j Hj;
    simpl in H.
  - by injection H as <-.
  - bind_inv H as e1 Hs.
    pose proof (store_index _ _ _ _ Hs) as Hi.
    apply store_lookup in Hs as (Hlen & _ & Hother).
    destruct ticks as [|y ticks]; [injection H as <-; apply Hother; lia|].
    assert (Hi1 : Int64.add i 1 = i + 1).
    { simpl in H. destruct (store e1 (Int64.add i 1) y) as [e2| | |] eqn:Hs2;
        try discriminate.
      eapply next_index; [| |exact Hs2]; lia. }
    assert (Hmax1 : i + 1 <= Int64.max_int)
      by (rewrite <- Hi1; apply add_le_max).
    rewrite Hi1 in H.
    rewrite (IH _ _ _ Hmax1 H j) by lia.
    apply Hother. lia.
Qed.

Lemma splice_lookup {A} (ticks : list A) : forall exst i exst',
  i <= Int64.max_int ->
  splice exst i ticks = Ok exst' ->
  forall j x, ticks !! j = Some x ->
    exst' !! (Z.to_nat i + j)%nat = Some x.
Proof.
  induction ticks as [|y ticks IH]; intros exst i exst' Hmax H j x Hj;
    simpl in H; [by rewrite lookup_nil in Hj|].
  bind_inv H as e1 Hs.
  pose proof (store_index _ _ _ _ Hs) as Hi.
  apply store_lookup in Hs as (Hlen & Hthis & Hother).
  destruct ticks as [|z ticks].
  - injection H as <-. destruct j as [|j]; simpl in Hj.
    + injection Hj as ->. by rewrite Nat.add_0_r.
    + by rewrite lookup_nil in Hj.
  - assert (Hi1 : Int64.add i 1 = i + 1).
    { simpl in H. destruct (store e1 (Int64.add i 1) z) as [e2| | |] eqn:Hs2;
        try discriminate.
      eapply next_index; [| |exact Hs2]; lia. }
    assert (Hmax1 : i + 1 <= Int64.max_int)
      by (rewrite <- Hi1; apply add_le_max).
    rewrite Hi1 in H.
    destruct j as [|j]; simpl in Hj.
    + injection Hj as ->. rewrite Nat.add_0_r.
      by rewrite (splice_before _ _ _ _ Hmax1 H) by lia.
    + replace (Z.to_nat i + S j)%nat with (Z.to_nat (i + 1) + j)%nat by lia.
      by eapply IH.
Qed.

Lemma splice_observed {A} (ticks exst exst' : list (option A)) i :
  i <= Int64.max_int ->
  splice exst i ticks = Ok exst' -> observed ticks -> observed exst'.
Proof.
  intros Hmax H (j & p & Hj). exists (Z.to_nat i + j)%nat, p.
  by eapply splice_lookup.
Qed.

Lemma mergeChunkData_observed l i chunkData : forall data data',
  i <= Int64.max_int ->
  mergeChunkData l i chunkData data = Ok data' ->
  Forall (fun kv => observed kv.2) chunkData ->
  (forall k w, data !! k = Some w -> observed w) ->
  forall k w, data' !! k = Some w -> observed w.
Proof.
  induction chunkData as [|[key ticks] cd IH];
    intros data data' Hmax H Hcd Hobs; simpl in H.
  - by injection H as <-.
  - bind_inv H as exst' Hs. apply Forall_cons in Hcd as [Ht Hcd].
    apply (IH _ _ Hmax H Hcd). intros k w Hk.
    destruct (decide (k = key)) as [->|Hne].
    + rewrite lookup_insert_eq in Hk. injection Hk as <-.
      by eapply splice_observed.
    + rewrite lookup_insert_ne in Hk by done. by eapply Hobs.
Qed.

Lemma chunkLoop_observed a l startTime endTime :
  forall fuel chunkStart i data data',
  i <= Int64.max_int ->
  chunkLoop fuel a l startTime endTime chunkStart i data = Ok data' ->
  (forall k w, data !! k = Some w -> observed w) ->
  forall k w, data' !! k = Some w -> observed w.
Proof.
  induction fuel as [|fuel IH]; intros cs i data data' Hmax H Hobs;
    simpl in H.
  - destruct (cs <? endTime); [discriminate|]. by injection H as <-.
  - destruct (cs <? endTime); [|by injection H as <-].
    bind_inv H as found Hf. bind_inv H as data1 Hd. bind_inv H as step Hst.
    apply (IH _ _ _ _ (add_le_max _ _) H).
    destruct found as [c|]; [|by injection Hd as <-].
    bind_inv Hd as [cd st] Hg.
    eapply mergeChunkData_observed; [exact Hmax | exact Hd | | exact Hobs].
    apply Forall_forall. intros [key ticks] Hin.
    apply elem_of_map_to_list in Hin. simpl.
    by eapply getData_observed.
Qed.

(** [GetData] answers only with the signals that were observed in the
    window: every series it returns has a slot that is not nil. *)
Lemma GetData_observed fuel a startTime endTime data stamps :
  GetData fuel a startTime endTime = Ok (data, stamps) ->
  forall k w, data !! k = Some w -> observed w.
Proof.
  unfold GetData. intros H.
  bind_inv H as s Hs. bind_inv H as e He. bind_inv H as l Hl.
  bind_inv H as cs Hcs. destruct (l <? 0); [discriminate|].
  bind_inv H as d Hd. injection H as <- _.
  eapply chunkLoop_observed; [|exact Hd|].
  - vm_compute. discriminate.
  - intros k w Hk. by rewrite lookup_empty in Hk.
Qed.

End Observed.

(** C5, amended. The raw reduction outputs exactly the signals of the window
    it is given, and a signal whose slots are all nil comes out as the zero
    rollup, of count 0.  In the cascade the window is what [GetData]
    returned, and there every signal has a slot that is not nil: a signal
    that was not observed in the window is not in the rollup. *)
Theorem rollup_signals data :
  (forall k v, data !! k = Some v -> exists fs, present v = VFloat <$> fs
      /\ Z.of_nat (length fs) <= Int64.max_int) ->
  exists out,
    Tissa.rollupRawData data = Ok out
    /\ dom out = dom data
    /\ (forall k v, data !! k = Some v -> Forall (fun d => d = None) v ->
          out !! k = Some (VRollup Rollup_zero))
    /\ (forall fuel a startTime endTime stamps,
          Archive.GetData fuel a startTime endTime = Ok (data, stamps) ->
          forall k, k ∈ dom out ->
            exists w, data !! k = Some w /\ observed w).
Proof.
  intros Hf.
  destruct (reduce_map_spec Tissa.rawLoop data) as (out & Ho & Hd & Hl).
  { intros k v Hk. destruct (Hf k v Hk) as (fs & Hp & Hlen).
    eexists. by apply rawLoop_rollup_of. }
  exists out. split; [done|]. split; [done|]. split.
  - intros k v Hk Hnull.
    destruct (Hl k v Hk) as (r & Hr & ->). do 2 f_equal.
    assert (present v = VFloat <$> []) as Hp.
    { clear -Hnull. induction Hnull as [|d v -> _ IH]; [done|]. exact IH. }
    rewrite (rawLoop_rollup_of v [] Hp) in Hr by (vm_compute; discriminate).
    by injection Hr as <-.
  - intros fuel a s e stamps Hg k Hk. rewrite Hd in Hk.
    apply elem_of_dom in Hk as [w Hw]. exists w. split; [done|].
    by eapply GetData_observed.
Qed.

Lemma rollup_signals_witness :
  exists out,
    Tissa.rollupRawData {["a" := [None; None]]} = Ok out
    /\ out !! "a" = Some (VRollup Rollup_zero).
Proof.
  destruct (rollup_signals {["a" := [None; None]]})
    as (out & Ho & _ & Hl & _).
  { intros k v Hk. exists [].
    destruct (decide (k = "a")) as [->|Hne].
    - rewrite lookup_singleton_eq in Hk. injection Hk as <-.
      split; [reflexivity | vm_compute; discriminate].
    - rewrite lookup_singleton_ne in Hk by done. discriminate. }
  exists out. split; [exact Ho|].
  apply (Hl "a" [None; None]); [apply lookup_singleton_eq|].
  repeat constructor.
Defined.

(** ** The order of the samples *)

Section FloatOrder.

Lemma SFltb_trans a b c :
  SFltb a b = true -> SFltb b c = true -> SFltb a c = true.
Proof.
  unfold SFltb.
  destruct a as [sa|sa| |sa ma ea], b as [sb|sb| |sb mb eb],
    c as [sc|sc| |sc mc ec]; simpl;
    repeat match goal with s : bool |- _ => destruct s end; simpl;
    try discriminate; try reflexivity;
    rewrite ?Pos.compare_cont_spec; simpl;
    destruct (Z.compare_spec ea eb), (Z.compare_spec eb ec),
      (Z.compare_spec ea ec); try lia; try discriminate; try reflexivity;
    subst;
    destruct (Pos.compare_spec ma mb), (Pos.compare_spec mb mc),
      (Pos.compare_spec ma mc); simpl; try lia; try discriminate;
    try reflexivity.
Qed.

Lemma SFltb_irrefl a : SFltb a a = false.
Proof.
  unfold SFltb. destruct a as [s|s| |s m e]; simpl; try reflexivity.
  - by destruct s.
  - destruct s; rewrite Z.compare_refl, Pos.compare_cont_refl; reflexivity.
Qed.

(** [<] on [float64] is transitive and irreflexive, NaN included. *)
Lemma ltb_trans a b c :
  PrimFloat.ltb a b = true -> PrimFloat.ltb b c = true ->
  PrimFloat.ltb a c = true.
Proof. rewrite !FloatAxioms.ltb_spec. apply SFltb_trans. Qed.

Lemma ltb_irrefl a : PrimFloat.ltb a a = false.
Proof. rewrite FloatAxioms.ltb_spec. apply SFltb_irrefl. Qed.

(** No value folded into the running maximum is greater than it. *)
Lemma foldl_fmax_spec vs : forall m seen,
  Forall (fun x => PrimFloat.ltb m x = false) seen ->
  (foldl fmax m vs = m \/ foldl fmax m vs ∈ vs)
  /\ Forall (fun x => PrimFloat.ltb (foldl fmax m vs) x = false) (seen ++ vs).
Proof.
  induction vs as [|v vs IH]; intros m seen Hseen; simpl.
  - rewrite app_nil_r. by split; [left|].
  - assert (Hstep : Forall (fun x => PrimFloat.ltb (fmax m v) x = false)
                      (seen ++ [v])).
    { unfold fmax. destruct (PrimFloat.ltb m v) eqn:Hlt.
      - apply Forall_app. split; [|by repeat constructor; apply ltb_irrefl].
        eapply Forall_impl; [exact Hseen|]. intros x Hx. simpl in Hx.
        destruct (PrimFloat.ltb v x) eqn:Hvx; [|done].
        by rewrite (ltb_trans m v x Hlt Hvx) in Hx.
      - apply Forall_app. split; [done|]. by repeat constructor. }
    destruct (IH (fmax m v) (seen ++ [v]) Hstep) as [Hin Hall].
    rewrite <- app_assoc in Hall. split; [|done].
    destruct Hin as [->|Hin]; [|by right; right].
    unfold fmax. destruct (PrimFloat.ltb m v); [right; left|left]; done.
Qed.

Lemma foldl_fmin_spec vs : forall m seen,
  Forall (fun x => PrimFloat.ltb x m = false) seen ->
  (foldl fmin m vs = m \/ foldl fmin m vs ∈ vs)
  /\ Forall (fun x => PrimFloat.ltb x (foldl fmin m vs) = false) (seen ++ vs).
Proof.
  induction vs as [|v vs IH]; intros m seen Hseen; simpl.
  - rewrite app_nil_r. by split; [left|].
  - assert (Hstep : Forall (fun x => PrimFloat.ltb x (fmin m v) = false)
                      (seen ++ [v])).
    { unfold fmin. destruct (PrimFloat.ltb v m) eqn:Hlt.
      - apply Forall_app. split; [|by repeat constructor; apply ltb_irrefl].
        eapply Forall_impl; [exact Hseen|]. intros x Hx. simpl in Hx.
        destruct (PrimFloat.ltb x v) eqn:Hxv; [|done].
        by rewrite (ltb_trans x v m Hxv Hlt) in Hx.
      - apply Forall_app. split; [done|]. by repeat constructor. }
    destruct (IH (fmin m v) (seen ++ [v]) Hstep) as [Hin Hall].
    rewrite <- app_assoc in Hall. split; [|done].
    destruct Hin as [->|Hin]; [|by right; right].
    unfold fmin. destruct (PrimFloat.ltb v m); [right; left|left]; done.
Qed.

(** The maximum of the rollup law is one of the samples, and no sample is
    greater; the minimum is one of the samples, and no sample is less. *)
Lemma max_floats_spec vs :
  vs <> [] ->
  max_floats vs ∈ vs
  /\ Forall (fun v => PrimFloat.ltb (max_floats vs) v = false) vs.
Proof.
  destruct vs as [|v vs]; [done|]. intros _. simpl.
  destruct (foldl_fmax_spec vs v [v]) as [Hin Hall].
  { repeat constructor. apply ltb_irrefl. }
  split; [|done]. destruct Hin as [->|Hin]; [left|by right].
Qed.

Lemma min_floats_spec vs :
  vs <> [] ->
  min_floats vs ∈ vs
  /\ Forall (fun v => PrimFloat.ltb v (min_floats vs) = false) vs.
Proof.
  destruct vs as [|v vs]; [done|]. intros _. simpl.
  destruct (foldl_fmin_spec vs v [v]) as [Hin Hall].
  { repeat constructor. apply ltb_irrefl. }
  split; [|done]. destruct Hin as [->|Hin]; [left|by right].
Qed.

End FloatOrder.

(** ** What [Append] does to the end time *)

(** Whatever the chunk does with the sample, the end time of the archive
    becomes the normalised timestamp. *)
Lemma Append_overwrites_EndTime fuel a val ts a' :
  Archive.Append fuel a val ts = Ok a' ->
  Archive.tsNorm a ts = Ok (Archive.EndTime a').
Proof.
  intros H. apply Append_inv in H as (n & lc & rest & lc' & Hn & _ & _ & ->).
  exact Hn.
Qed.

(** A sample older than the last slot, in the span of the last chunk: the
    chunks are left as they are and the end time goes back. *)
Lemma late_Append fuel a val ts c n e :
  Archive.lastChunk a = Some c ->
  Archive.tsNorm a ts = Ok n ->
  Archive.chunkEnd a (Chunk.StartTime c) = Ok e ->
  n <= e ->
  n < Chunk.EndTime c ->
  exists a',
    Archive.Append fuel a val ts = Ok a'
    /\ Archive.chunks a' = Archive.chunks a
    /\ Archive.EndTime a' = n
    /\ n < latest_time a'.
Proof.
  intros Hlast Hn He Hle Hlt.
  assert (Hchunks : take (length (Archive.chunks a) - 1) (Archive.chunks a)
                    ++ [Some c] = Archive.chunks a).
  { unfold Archive.lastChunk in Hlast.
    destruct (Archive.chunks a) as [|oc cs _] using rev_ind;
      [discriminate|].
    rewrite last_snoc in Hlast. subst oc.
    rewrite length_app. simpl.
    replace (length cs + 1 - 1)%nat with (length cs) by lia.
    by rewrite take_app_length. }
  eexists. split.
  - unfold Archive.Append. rewrite Hn. simpl.
    unfold Archive.appendTarget, Archive.boundaryCheck.
    rewrite Hlast, He. simpl.
    destruct (Z.ltb_spec e n); [lia|]. simpl.
    unfold Chunk.append. destruct (Z.ltb_spec n (Chunk.EndTime c)); [|lia].
    simpl. rewrite Hchunks. reflexivity.
  - simpl. repeat split. unfold latest_time, Archive.lastChunk. simpl.
    fold (Archive.lastChunk a). by rewrite Hlast.
Qed.

(** ** A series with a single archive *)

(** With no coarser archive there is no cascade: [AddValues] returns. *)
Corollary latest_after_add_single fuel t base (vals : gmap string float) ts :
  Tissa.archives t = [base] ->
  tail_ok base ->
  0 < ts ->
  ts + 2 * Archive.Interval base + Archive.ChunkSize base
    <= Int64.max_int ->
  latest_time base < round_up (Archive.Interval base) ts ->
  (Z.to_nat (ts + Archive.Interval base) <= fuel)%nat ->
  exists t',
    Tissa.AddValues fuel t vals ts = Ok t'
    /\ Tissa.Latest t' = Ok (vals, round_up (Archive.Interval base) ts).
Proof.
  intros Ha Hok Hts Hmax Hlt Hfuel.
  destruct (Append_Latest fuel base (VFloat <$> vals) ts Hok Hts Hmax Hlt
              Hfuel) as (base' & Happ & Hlatest & _).
  exists (Tissa.set_archives t [base']). split.
  - unfold Tissa.AddValues, Tissa.baseArchive. rewrite Ha. simpl.
    by rewrite Happ.
  - unfold Tissa.Latest, Tissa.baseArchive. simpl. rewrite Hlatest. simpl.
    by rewrite castList_converted.
Qed.

(** ** Chunks that stay well formed *)

Section ChunkInvariant.

Import Chunk.

Variable P : payload -> Prop.

Lemma slot_ok_mono n n' s : (n <= n')%nat -> slot_ok P n s -> slot_ok P n' s.
Proof.
  intros Hn H m Hm i p Hi. destruct (H m Hm i p Hi). split; [lia|done].
Qed.

Lemma slot_ok_None n : slot_ok P n None.
Proof. intros m Hm. discriminate. Qed.

Lemma slot_ok_latestRaw c r :
  chunk_readable P r c -> slot_ok P (length (Tags c)) (latestRaw c).
Proof.
  intros [_ Hd]. unfold latestRaw.
  destruct (last (Data c)) as [s|] eqn:Hl; [|apply slot_ok_None].
  apply last_Some in Hl as [l' Hl]. rewrite Hl in Hd.
  apply Forall_app in Hd as [_ Hd]. by apply Forall_cons in Hd as [? _].
Qed.

(** A slot that holds values of the kind [P] fits the tag table. *)
Lemma slot_holds_ok c m val :
  slot_holds c m val ->
  map_Forall (fun _ p => P p) val ->
  slot_ok P (length (Tags c)) (Some m).
Proof.
  intros Hm HP m' [= <-] i p Hi. rewrite Hm in Hi.
  destruct (Tags c !! i) as [tag|] eqn:Ht; [|discriminate].
  simpl in Hi. split; [by eapply lookup_lt_Some|]. by eapply HP.
Qed.

Lemma prefix_length_le {A} (l1 l2 : list A) :
  l1 `prefix_of` l2 -> (length l1 <= length l2)%nat.
Proof. intros [k ->]. rewrite length_app. lia. Qed.

Lemma deref_list_dirty l : forall c ret c' m,
  deref_list l c ret = Ok (c', m) -> dirty c' = dirty c.
Proof.
  induction l as [|[tag v] l IH]; intros c ret c' m H; simpl in H.
  - by injection H as <- _.
  - bind_inv H as [c1 r1] H1. apply IH in H. rewrite H.
    unfold deref_step in H1.
    destruct (tagMap c ≫= _); [by injection H1 as <- _|].
    destruct (tagMap c); [|done]. by injection H1 as <- _.
Qed.

(** A chunk made in memory stays dirty. *)
Lemma append_dirty fuel c val ts c' :
  Chunk.append fuel c val ts = Ok c' -> dirty c = true -> dirty c' = true.
Proof.
  unfold Chunk.append. intros H Hd.
  destruct (ts <? Chunk.EndTime c); [by injection H as <-|].
  destruct (ts =? Chunk.EndTime c).
  - destruct (last (Data c)) as [latest|]; [|done].
    bind_inv H as [c1 m] Hderef. apply deref_list_dirty in Hderef.
    destruct latest.
    + injection H as <-. simpl. congruence.
    + destruct (decide _); [|done]. injection H as <-. congruence.
  - bind_inv H as c1 H1. bind_inv H as c2 H2. bind_inv H as [c3 m] H3.
    by injection H as <-.
Qed.

(** The case of [append] that pushes a slot keeps the chunk well formed. *)
Lemma append_pushes_ok fuel c val ts r :
  chunk_ok P r c -> 0 < r ->
  map_Forall (fun _ p => P p) val ->
  Chunk.EndTime c < ts ->
  ts + r <= Int64.max_int ->
  (Z.to_nat ts <= fuel)%nat ->
  exists c',
    Chunk.append fuel c val ts = Ok c'
    /\ chunk_ok P r c'
    /\ Chunk.EndTime c' = ts
    /\ Chunk.StartTime c' = Chunk.StartTime c
    /\ latest c' = Ok (Some val).
Proof.
  intros [Htags [Hres Hdata] He Hs Hlast Hdirty] Hr HP Hlt Hmax Hfuel.
  destruct (append_pushes fuel c val ts Htags)
    as (c' & m & n & fv & Happ & He' & Hs' & Hr' & Hd' & Htags' & Hm
        & Hall & Hpre & Hfv); rewrite ?Hres; try (range; lia).
  exists c'.
  assert (Hlast' : last (Data c') = Some (Some m))
    by (by rewrite Hd', app_assoc, last_snoc).
  split; [done|]. split; [|split; [done|split; [done|]]].
  - split; try done; try lia.
    + split; [congruence|]. rewrite Hd'.
      pose proof (prefix_length_le _ _ Hpre) as Hlen.
      apply Forall_app. split.
      * eapply Forall_impl; [exact Hdata|].
        intros s Hs0. by eapply slot_ok_mono.
      * apply Forall_app. split.
        -- apply Forall_replicate. eapply slot_ok_mono; [exact Hlen|].
           destruct Hfv as [->| ->]; [apply slot_ok_None|].
           by eapply (slot_ok_latestRaw c r).
        -- apply Forall_singleton. by eapply slot_holds_ok.
    + intros _. by exists m.
    + by eapply append_dirty.
  - by eapply latest_of_slot.
Qed.

(** [fillTo] keeps a well-formed chunk readable and appendable. *)
Lemma fillTo_ok fuel c timestamp r :
  chunk_ok P r c -> 0 < r ->
  Chunk.EndTime c <> 0 ->
  0 <= timestamp -> timestamp + r <= Int64.max_int ->
  Chunk.EndTime c + r <= Int64.max_int ->
  (Z.to_nat timestamp <= fuel)%nat ->
  exists c', fillTo fuel c timestamp = Ok c'
    /\ chunk_readable P r c'
    /\ Chunk.StartTime c' = Chunk.StartTime c.
Proof.
  intros [Htags [Hres Hdata] He Hs Hlast Hdirty] Hr Hne Hts Hmax Hmax' Hfuel.
  unfold fillTo. rewrite Hres.
  unfold Int64.quo. destruct (Z.eqb_spec r 0); [lia|]. simpl.
  rewrite add_id by (range; lia).
  match goal with |- context [fillLoop fuel ?fv timestamp _ c] =>
    destruct (fillLoop_total fuel fv timestamp (Chunk.EndTime c + r) c)
      as [k ->]; rewrite ?Hres; try (range; lia);
    destruct (filled_fields c k fv (Chunk.EndTime c + r))
      as (Hf1 & Hf2 & Hf3 & Hf4 & Hf5);
    assert (Hfv : slot_ok P (length (Tags c)) fv)
  end.
  { destruct (_ <? 3); [|apply slot_ok_None].
    by eapply (slot_ok_latestRaw c r). }
  eexists. split; [reflexivity|]. split; [|done].
  split; [congruence|]. rewrite Hf3, Hf5.
  apply Forall_app. split; [done|]. by apply Forall_replicate.
Qed.

Lemma replace_last_snoc {A} (l : list A) x y :
  replace_last (l ++ [x]) y = l ++ [y].
Proof.
  unfold replace_last. rewrite length_app. simpl.
  replace (length l + 1 - 1)%nat with (length l) by lia.
  by rewrite take_app_length.
Qed.

(** The case of [append] that merges into the last slot. *)
Lemma append_merges_ok fuel c val r :
  chunk_ok P r c ->
  map_Forall (fun _ p => P p) val ->
  Chunk.EndTime c <> 0 ->
  exists c',
    Chunk.append fuel c val (Chunk.EndTime c) = Ok c'
    /\ chunk_ok P r c'
    /\ Chunk.EndTime c' = Chunk.EndTime c
    /\ Chunk.StartTime c' = Chunk.StartTime c.
Proof.
  intros [Htags [Hres Hdata] He Hs Hlast Hdirty] HP Hne.
  destruct (Hlast Hne) as [lm Hlm].
  destruct (derefTags_spec c val Htags)
    as (c' & m & Hd & (Hs' & He' & Hr' & Hd' & Hdy) & Htags' & Hpre & Hall
        & Hm).
  unfold Chunk.append. rewrite Z.ltb_irrefl, Z.eqb_refl, Hlm, Hd. simpl.
  eexists. split; [reflexivity|].
  pose proof (prefix_length_le _ _ Hpre) as Hlen.
  apply last_Some in Hlm as [l' Hl']. rewrite Hd', Hl', replace_last_snoc.
  rewrite Hl' in Hdata. apply Forall_app in Hdata as [Hold Hlast'].
  rewrite Forall_singleton in Hlast'.
  split; [|by simpl].
  split; simpl; try done; try lia.
  - split; [simpl; congruence|]. simpl.
    apply Forall_app. split.
    + eapply Forall_impl; [exact Hold|]. intros s0 Hs0.
      by eapply slot_ok_mono.
    + apply Forall_singleton. intros m' [= <-] i p Hi.
      apply lookup_union_Some_raw in Hi as [Hi|[_ Hi]].
      * by eapply (slot_holds_ok c' m val Hm HP).
      * destruct (Hlast' lm eq_refl i p Hi). split; [lia|done].
  - intros _. eexists. by rewrite last_snoc.
  - congruence.
Qed.

(** [append] returns in its three cases -- drop, merge, push -- and keeps
    the chunk well formed. *)
Lemma append_ok fuel c val ts r :
  chunk_ok P r c -> 0 < r ->
  map_Forall (fun _ p => P p) val ->
  0 <= ts -> (ts = 0 -> Chunk.EndTime c <> 0) ->
  ts + r <= Int64.max_int ->
  (Z.to_nat ts <= fuel)%nat ->
  exists c',
    Chunk.append fuel c val ts = Ok c'
    /\ chunk_ok P r c'
    /\ Chunk.EndTime c' = Z.max (Chunk.EndTime c) ts
    /\ Chunk.StartTime c' = Chunk.StartTime c.
Proof.
  intros Hc Hr HP Hts Hz Hmax Hfuel.
  destruct (Z.lt_trichotomy ts (Chunk.EndTime c)) as [Hlt|[Heq|Hgt]].
  - exists c. unfold Chunk.append.
    destruct (Z.ltb_spec ts (Chunk.EndTime c)); [|lia].
    split; [done|split; [done|split; [lia|done]]].
  - subst ts.
    destruct (append_merges_ok fuel c val r Hc HP ltac:(lia))
      as (c' & ? & ? & ? & ?).
    exists c'. split; [done|split; [done|split; [lia|done]]].
  - destruct (append_pushes_ok fuel c val ts r Hc Hr HP Hgt Hmax Hfuel)
      as (c' & ? & ? & ? & ? & _).
    exists c'. split; [done|split; [done|split; [lia|done]]].
Qed.

Lemma chunk_ok_new r s :
  0 <= s <= Int64.max_int -> chunk_ok P r (newChunk r s).
Proof.
  intros Hs. split; simpl; try done.
  apply tags_ok_new.
Qed.

End ChunkInvariant.

(** ** Archives that stay well formed *)

Section ArchiveInvariant.

Import Archive.

Variable P : payload -> Prop.
Variable T : Z.

Lemma Forall_replace_last {A} (Q : A -> Prop) l x :
  Forall Q l -> Q x -> Forall Q (replace_last l x).
Proof.
  intros Hl Hx. unfold replace_last. apply Forall_app. split.
  - by apply Forall_take.
  - by apply Forall_singleton.
Qed.

Lemma Interval_le_ChunkSize a :
  archive_ok P T a -> Interval a <= ChunkSize a.
Proof.
  intros Hok. apply Z.divide_pos_le; [apply Hok|apply Hok].
Qed.

(** [chunkStart] truncates towards zero to a multiple of the chunk span. *)
Lemma chunkStart_any a ts :
  0 < ChunkSize a -> Int64.in_range ts ->
  exists cs,
    chunkStart a ts = Ok cs
    /\ (ChunkSize a | cs)
    /\ ts - ChunkSize a < cs < ts + ChunkSize a
    /\ (0 <= ts -> 0 <= cs <= ts) /\ (ts <= 0 -> ts <= cs <= 0).
Proof.
  intros Hc Hts. unfold chunkStart. rewrite rem_Ok by lia. simpl.
  pose proof (Z.quot_rem' ts (ChunkSize a)) as Hqr.
  assert (Hb : (0 <= ts -> 0 <= Z.rem ts (ChunkSize a) < ChunkSize a
                           /\ Z.rem ts (ChunkSize a) <= ts)
               /\ (ts <= 0 -> - ChunkSize a < Z.rem ts (ChunkSize a) <= 0
                              /\ ts <= Z.rem ts (ChunkSize a))).
  { split; intros.
    - split; [by apply Z.rem_bound_pos_pos|by apply Z.rem_le].
    - split; [by apply Z.rem_bound_pos_neg|].
      pose proof (Z.rem_le (- ts) (ChunkSize a) ltac:(lia) Hc) as Hle.
      rewrite Z.rem_opp_l' in Hle. lia. }
  destruct Hb as [Hpos Hneg].
  rewrite sub_id by (range; lia).
  eexists. split; [reflexivity|]. split.
  - exists (Z.quot ts (ChunkSize a)). lia.
  - lia.
Qed.

(** The start of the chunk of a chunk start is that start. *)
Lemma chunkStart_multiple a s :
  0 < ChunkSize a -> (ChunkSize a | s) -> Int64.in_range s ->
  chunkStart a s = Ok s.
Proof.
  intros Hc Hd Hs. unfold chunkStart. rewrite rem_Ok by lia. simpl.
  replace (Z.rem s (ChunkSize a)) with 0
    by (symmetry; apply Z.rem_divide; [lia|done]).
  by rewrite sub_id, Z.sub_0_r by (rewrite Z.sub_0_r; done).
Qed.

(** A normalised timestamp within a chunk is at most the time of the last
    slot of the chunk. *)
Lemma last_slot_bound i cs s n :
  0 < i -> (i | cs) -> (cs | s) -> (i | n) -> n < s + cs ->
  n <= s + cs - i.
Proof.
  intros Hi [k ->] [m ->] [j ->] Hn.
  assert (j < m * k + k) by nia.
  assert (j * i <= (m * k + k - 1) * i) by nia. lia.
Qed.

(** [appendTarget] returns, with a chunk that can take the sample. *)
Lemma appendTarget_ok fuel a n :
  archive_ok P T a -> 0 <= n <= T -> (Interval a | n) ->
  (n = 0 -> is_Some (lastChunk a)) ->
  (Z.to_nat T <= fuel)%nat ->
  exists lc rest,
    appendTarget fuel a n = Ok (lc, rest)
    /\ chunk_ok P (Interval a) lc
    /\ Chunk.EndTime lc <= T
    /\ (ChunkSize a | Chunk.StartTime lc)
    /\ n <= Chunk.StartTime lc + ChunkSize a - Interval a
    /\ (Chunk.EndTime lc = 0 /\ Chunk.StartTime lc <= n /\ 0 < n
        \/ 0 < Chunk.EndTime lc
           /\ Chunk.StartTime lc <= Chunk.EndTime lc
               <= Chunk.StartTime lc + ChunkSize a - Interval a
           /\ lastChunk a = Some lc)
    /\ latest_time a <= Z.max (Chunk.EndTime lc) n
    /\ Forall (held P (Interval a)) rest.
Proof.
  intros Hok Hn Hdn Hz Hfuel. unfold latest_time.
  pose proof (Interval_le_ChunkSize a Hok) as Hle.
  destruct Hok as [Hi Hc Hdiv Hmax _ _ _ _ _ Hchunks Hdisk Hlast].
  unfold appendTarget.
  destruct (lastChunk a) as [lc|] eqn:Hlc.
  - destruct (Hlast lc eq_refl) as (Hcok & He & Hal & Hse).
    pose proof (cok_StartTime P _ lc Hcok) as Hs0.
    unfold boundaryCheck, chunkEnd. rewrite Hlc.
    rewrite chunkStart_multiple by (try done; range; lia).
    simpl. rewrite add_id, sub_id by (range; lia).
    destruct (Z.ltb_spec (Chunk.StartTime lc + ChunkSize a - Interval a) n)
      as [Hb|Hb].
    + destruct (chunkStart_any a n Hc) as (s' & -> & Hds' & Hs1' & Hs2' & _);
        [range; lia|]. simpl.
      assert (Hfill : exists lc',
        (if Chunk.EndTime lc
            <? Chunk.StartTime lc + ChunkSize a - Interval a
         then Chunk.fillTo fuel lc s' else Ok lc) = Ok lc'
        /\ chunk_readable P (Interval a) lc').
      { destruct (_ <? _).
        - destruct (fillTo_ok P fuel lc s' (Interval a) Hcok Hi)
            as (lc' & ? & ? & _); try (range; lia).
          by exists lc'.
        - exists lc. split; [done|apply Hcok]. }
      destruct Hfill as (lc' & -> & Hread). simpl.
      eexists _, _. split; [reflexivity|].
      split; [apply chunk_ok_new; range; lia|]. simpl.
      split; [lia|]. split; [done|].
      split; [apply last_slot_bound; try done; lia|].
      split; [left; lia|]. split; [lia|].
      apply Forall_replace_last; [done|]. by exists lc'.
    + eexists _, _. split; [reflexivity|].
      split; [done|]. split; [lia|]. split; [done|]. split; [lia|].
      split; [right; split; [lia|done]|]. split; [lia|].
      by apply Forall_take.
  - destruct (decide (n = 0)) as [->|Hne].
    { destruct (Hz eq_refl) as [? [=]]. }
    destruct (chunkStart_any a n Hc) as (s' & Hs' & Hds' & Hs1' & Hs2' & _);
      [range; lia|].
    unfold chunkStart in Hs'. apply bind_Ok in Hs' as (r & -> & [= Hs']).
    simpl. rewrite Hs'.
    eexists _, _. split; [reflexivity|].
    split; [apply chunk_ok_new; range; lia|]. simpl.
    split; [lia|]. split; [done|].
    split; [apply last_slot_bound; try done; lia|].
    split; [left; lia|]. split; [lia|]. constructor.
Qed.

(** [Append] returns on a well-formed archive, for a sample dated
    between the epoch and the horizon, and the archive stays well formed. *)
Lemma Append_ok fuel a val ts :
  archive_ok P T a ->
  map_Forall (fun _ p => P p) val ->
  0 <= ts -> round_up (Interval a) ts <= T ->
  (ts = 0 -> is_Some (lastChunk a)) ->
  (Z.to_nat T <= fuel)%nat ->
  exists a',
    Append fuel a val ts = Ok a'
    /\ archive_ok P T a'
    /\ Interval a' = Interval a
    /\ EndTime a' = round_up (Interval a) ts
    /\ is_Some (lastChunk a').
Proof.
  intros Hok HP Hts HT Hz Hfuel.
  pose proof (aok_Interval P T a Hok) as Hi.
  pose proof (aok_horizon P T a Hok) as Hmax.
  pose proof (aok_ChunkSize P T a Hok) as Hcs.
  pose proof (round_up_bounds (Interval a) ts Hi) as Hb.
  pose proof (round_up_divide (Interval a) ts) as Hdn.
  set (n := round_up (Interval a) ts) in *.
  destruct (appendTarget_ok fuel a n Hok)
    as (lc & rest & Ht & Hlc & He & Hal & Hnb & Hcase & Hlt & Hrest);
    try lia; try done.
  { intros ->. apply Hz. lia. }
  destruct (append_ok P fuel lc val n (Interval a) Hlc Hi HP)
    as (lc' & Happ & Hlc' & He' & Hs'); try (range; lia).
  exists (set_times (set_chunks a (rest ++ [Some lc']))
            (if StartTime a =? 0 then n else StartTime a) n).
  split; [|split; [|split; [done|split; [done|]]]].
  - unfold Append. rewrite tsNorm_round_up by (range; lia). simpl.
    fold n. rewrite Ht. simpl. rewrite Happ. reflexivity.
  - destruct Hok as [_ _ Hdiv _ Hret Hst _ Hlw _ _ Hdisk _].
    pose proof (cok_EndTime P _ lc Hlc) as He0.
    assert (Hlatest : latest_time
              (set_times (set_chunks a (rest ++ [Some lc']))
                 (if StartTime a =? 0 then n else StartTime a) n)
            = Z.max (Chunk.EndTime lc) n).
    { unfold latest_time, lastChunk. simpl. by rewrite last_snoc. }
    split; rewrite ?Hlatest; simpl; try done; try lia.
    + destruct (StartTime a =? 0); lia.
    + apply Forall_app. split; [done|].
      apply Forall_singleton. exists lc'. split; [done|apply Hlc'].
    + unfold lastChunk. simpl. rewrite last_snoc. intros c [= <-].
      split; [done|]. rewrite He', Hs'.
      pose proof (cok_EndTime P _ lc Hlc).
      split; [lia|]. split; [done|]. lia.
  - unfold lastChunk. simpl. by rewrite last_snoc.
Qed.

End ArchiveInvariant.

(** ** Reading a well-formed archive *)

Section Readable.

Import Chunk Archive.

Variable P : payload -> Prop.













End Readable.

Section ReadableArchive.

Import Chunk Archive.

Variable P : payload -> Prop.




End ReadableArchive.

(** * Further properties of the code *)

(** ** Rounding of timestamps *)

(** X1. [tsNorm] rounds a timestamp, negative or not, up to the least
    multiple of the interval that is not below it, and leaves a timestamp
    that is already normalised as it is. *)
Theorem tsNorm_least_multiple a ts :
  0 < Archive.Interval a ->
  Int64.min_int <= ts -> ts + Archive.Interval a <= Int64.max_int ->
  exists n,
    Archive.tsNorm a ts = Ok n
    /\ (Archive.Interval a | n)
    /\ ts <= n < ts + Archive.Interval a
    /\ Archive.tsNorm a n = Ok n.
Proof.
  intros Hi Hmin Hmax.
  pose proof (round_up_bounds (Archive.Interval a) ts Hi) as Hb.
  exists (round_up (Archive.Interval a) ts).
  split; [by apply tsNorm_round_up|].
  split; [apply round_up_divide|]. split; [done|].
  unfold Archive.tsNorm. rewrite rem_Ok by lia. simpl.
  replace (Z.rem _ _) with 0
    by (symmetry; apply Z.rem_divide; [lia|apply round_up_divide]).
  rewrite sub_id by (range; lia). rewrite Z.sub_0_r.
  by rewrite Z.ltb_irrefl.
Qed.

Lemma tsNorm_least_multiple_witness :
  exists n,
    Archive.tsNorm (Archive.NewArchive "d" 10 60 20000) (-55) = Ok n
    /\ (10 | n) /\ -55 <= n < -55 + 10
    /\ Archive.tsNorm (Archive.NewArchive "d" 10 60 20000) n = Ok n.
Proof.
  apply (tsNorm_least_multiple (Archive.NewArchive "d" 10 60 20000) (-55));
    vm_compute; congruence.
Defined.

(** X2. [chunkStart] truncates towards zero: the start of the chunk of a
    timestamp is a multiple of the chunk span less than one span away from
    it, between 0 and the timestamp. *)
Theorem chunkStart_truncates a ts :
  0 < Archive.ChunkSize a -> Int64.in_range ts ->
  exists cs,
    Archive.chunkStart a ts = Ok cs
    /\ (Archive.ChunkSize a | cs)
    /\ ts - Archive.ChunkSize a < cs < ts + Archive.ChunkSize a
    /\ (0 <= ts -> 0 <= cs <= ts) /\ (ts <= 0 -> ts <= cs <= 0).
Proof. apply chunkStart_any. Qed.

Lemma chunkStart_truncates_witness :
  exists cs,
    Archive.chunkStart (Archive.NewArchive "d" 1 60 20) (-30) = Ok cs
    /\ (20 | cs) /\ -30 - 20 < cs < -30 + 20
    /\ (0 <= -30 -> 0 <= cs <= -30) /\ (-30 <= 0 -> -30 <= cs <= 0).
Proof.
  apply (chunkStart_truncates (Archive.NewArchive "d" 1 60 20) (-30)).
  - reflexivity.
  - vm_compute. split; congruence.
Defined.

(** ** Appending to a well-formed archive *)

Lemma archive_ok_new P T dir interval retention n :
  0 < interval -> 0 < n -> 0 <= retention -> 0 <= T ->
  T + 2 * interval + n * interval <= Int64.max_int ->
  archive_ok P T (Archive.NewArchive dir interval retention (n * interval)).
Proof.
  intros Hi Hn Hr HT Hmax. split; simpl; try done; try nia.
  by exists n.
Qed.

(** X3. On a well-formed archive, [Append] of a sample dated from the epoch
    to the horizon returns, whichever of its cases applies -- first sample,
    new chunk, older sample dropped, same slot merged, gap filled.  The
    archive stays well formed, its end time is the normalised timestamp and
    it holds a last chunk. *)
Theorem Append_returns P T fuel a val ts :
  archive_ok P T a ->
  map_Forall (fun _ p => P p) val ->
  0 <= ts -> round_up (Archive.Interval a) ts <= T ->
  (ts = 0 -> is_Some (Archive.lastChunk a)) ->
  (Z.to_nat T <= fuel)%nat ->
  exists a',
    Archive.Append fuel a val ts = Ok a'
    /\ archive_ok P T a'
    /\ Archive.Interval a' = Archive.Interval a
    /\ Archive.EndTime a' = round_up (Archive.Interval a) ts
    /\ is_Some (Archive.lastChunk a').
Proof. apply Append_ok. Qed.

Lemma Append_returns_witness :
  exists a',
    Archive.Append 1000 (Archive.NewArchive "d" 10 600 (20 * 10))
      {["val" := VFloat 1]} 55 = Ok a'
    /\ archive_ok is_float 1000 a'
    /\ Archive.Interval a' = 10
    /\ Archive.EndTime a' = round_up 10 55
    /\ is_Some (Archive.lastChunk a').
Proof.
  apply (Append_returns is_float 1000 1000
           (Archive.NewArchive "d" 10 600 (20 * 10)) {["val" := VFloat 1]} 55).
  - apply archive_ok_new; vm_compute; congruence.
  - apply map_Forall_singleton. by eexists.
  - lia.
  - vm_compute. congruence.
  - lia.
  - lia.
Defined.

(** X4. The first sample of a series must be dated after the epoch: with a
    timestamp that normalises to 0 -- any timestamp from [- Interval],
    excluded, to 0 -- the base archive opens a chunk whose end time is 0,
    takes the sample for one of the latest slot and indexes the empty
    [Data]: [AddValues] panics. *)
Theorem first_sample_at_epoch_panics fuel t base coarser vals ts :
  Tissa.archives t = base :: coarser ->
  Archive.chunks base = [] ->
  0 < Archive.Interval base <= Int64.max_int ->
  Archive.ChunkSize base <> 0 ->
  - Archive.Interval base < ts <= 0 ->
  Tissa.AddValues fuel t vals ts = Panic.
Proof.
  intros Ht Hc Hi Hcs Hts.
  unfold Tissa.AddValues, Tissa.baseArchive. rewrite Ht. simpl.
  assert (Hn : Archive.tsNorm base ts = Ok 0).
  { rewrite tsNorm_round_up by (range; lia). f_equal.
    unfold round_up. rewrite Z.div_small by lia. lia. }
  unfold Archive.Append. rewrite Hn. simpl.
  unfold Archive.appendTarget, Archive.lastChunk. rewrite Hc. simpl.
  rewrite rem_Ok by done. reflexivity.
Qed.

Lemma first_sample_at_epoch_panics_witness :
  Tissa.AddValues 1000
    {| Tissa.archives := [Archive.NewArchive "d/10" 10 600 20000];
       Tissa.config :=
         {| Tissa.Archives := [Tissa.mkArchiveConfig 10 600];
            Tissa.DefaultValue := 0 |};
       Tissa.LastWritten := 0 |}
    {["val" := 1%float]} (-3) = Panic.
Proof.
  apply (first_sample_at_epoch_panics 1000 _
           (Archive.NewArchive "d/10" 10 600 20000) [] _ (-3)).
  - reflexivity.
  - reflexivity.
  - vm_compute. split; congruence.
  - vm_compute. congruence.
  - simpl. lia.
Defined.

(** ** Reading a well-formed archive *)



(** ** The retention sweep and the chunk files *)

Section Sweep.

Import Archive.

(** Two multiples of the span that are less than a span apart are equal. *)
Lemma multiples_apart span k s :
  0 < span -> (span | k) -> (span | s) -> s - span < k -> k <> s ->
  s + span <= k.
Proof.
  intros Hs [x ->] [y ->] Hlt Hne.
  assert (y <= x) by nia.
  assert (x <> y) by (intros ->; done).
  assert (y + 1 <= x) by lia. nia.
Qed.

Lemma exerciseRetention_files : forall fuel a,
  0 < ChunkSize a -> 0 <= Retention a ->
  0 <= StartTime a <= Int64.max_int -> 0 <= EndTime a ->
  EndTime a + ChunkSize a <= Int64.max_int ->
  (Z.to_nat (EndTime a - StartTime a) <= fuel)%nat ->
  exists a', exerciseRetention fuel a = Ok a'
    /\ StartTime a <= StartTime a'
    /\ (StartTime a' = StartTime a
        \/ (ChunkSize a | StartTime a')
           /\ StartTime a' - ChunkSize a < EndTime a - Retention a)
    /\ (forall k, swept (ChunkSize a) (StartTime a) (StartTime a') k ->
          chunk_files (disk a') !! k = None)
    /\ (forall k, ~ swept (ChunkSize a) (StartTime a) (StartTime a') k ->
          chunk_files (disk a') !! k = chunk_files (disk a) !! k)
    /\ (forall k f, chunk_files (disk a') !! k = Some f ->
          chunk_files (disk a) !! k = Some f).
Proof.
  induction fuel as [|fuel IH]; intros a Hc Hr Hs He Hmax Hfuel.
  - exists a. simpl. rewrite sub_id by (range; lia).
    destruct (Z.ltb_spec (Retention a) (EndTime a - StartTime a)); [lia|].
    split; [done|]. split; [lia|]. split; [by left|].
    split; [|done]. intros k (_ & ? & ?). lia.
  - simpl. rewrite sub_id by (range; lia).
    destruct (Z.ltb_spec (Retention a) (EndTime a - StartTime a)) as [Hlt|].
    2:{ exists a. split; [done|]. split; [lia|]. split; [by left|].
        split; [|done]. intros k (_ & ? & ?). lia. }
    destruct (chunkStart_any a (StartTime a) Hc)
      as (s & -> & Hds & Hs1 & Hs2 & _); [range; lia|].
    simpl. rewrite add_id by (range; lia).
    match goal with |- context [exerciseRetention fuel ?b] =>
      destruct (IH b) as (a' & -> & Hle & Hmoved & Hgone & Hkept & Hsub)
    end; simpl in *; try (range; lia).
    exists a'. split; [done|]. split; [lia|].
    assert (Hnot : ~ swept (ChunkSize a) (s + ChunkSize a) (StartTime a') s).
    { intros (_ & ? & _). lia. }
    split; [|split; [|split]].
    + right. destruct Hmoved as [->|[? ?]].
      * split; [by apply Z.divide_add_r|lia].
      * split; [done|lia].
    + intros k (Hdk & Hk1 & Hk2).
      destruct (decide (k = s)) as [->|Hne].
      * rewrite (Hkept s Hnot). apply lookup_delete_None. by left.
      * apply Hgone. split; [done|].
        pose proof (multiples_apart _ k s Hc Hdk Hds ltac:(lia) Hne). lia.
    + intros k Hk.
      assert (Hne : s <> k).
      { intros <-. apply Hk. split; [done|]. split; lia. }
      rewrite Hkept; [by rewrite lookup_delete_ne|].
      intros (? & ? & ?). apply Hk. split; [done|]. split; lia.
    + intros k f Hf. apply Hsub in Hf.
      by apply lookup_delete_Some in Hf as [_ Hf].
Qed.

End Sweep.

(** X6. The retention sweep moves the start time forward, chunk by chunk,
    until the retained span [EndTime - StartTime] is at most the retention.
    It removes the files of the chunks it passes -- the chunk of the old
    start time and those that end at or before the new one -- and no other
    file; the data in memory is not touched. *)
Theorem sweep_removes_passed_chunks fuel a :
  0 < Archive.ChunkSize a -> 0 <= Archive.Retention a ->
  0 <= Archive.StartTime a <= Int64.max_int -> 0 <= Archive.EndTime a ->
  Archive.EndTime a + Archive.ChunkSize a <= Int64.max_int ->
  (Z.to_nat (Archive.EndTime a - Archive.StartTime a) <= fuel)%nat ->
  exists a',
    Archive.exerciseRetention fuel a = Ok a'
    /\ Archive.StartTime a <= Archive.StartTime a'
    /\ Archive.EndTime a' - Archive.StartTime a' <= Archive.Retention a
    /\ Archive.chunks a' = Archive.chunks a
    /\ (forall k,
          swept (Archive.ChunkSize a) (Archive.StartTime a)
            (Archive.StartTime a') k ->
          Archive.chunk_files (Archive.disk a') !! k = None)
    /\ (forall k,
          ~ swept (Archive.ChunkSize a) (Archive.StartTime a)
              (Archive.StartTime a') k ->
          Archive.chunk_files (Archive.disk a') !! k
          = Archive.chunk_files (Archive.disk a) !! k).
Proof.
  intros Hc Hr Hs He Hmax Hfuel.
  destruct (exerciseRetention_files fuel a Hc Hr Hs He Hmax Hfuel)
    as (a' & Hrun & Hle & _ & Hgone & Hkept & _).
  destruct (exerciseRetention_spec fuel a Hc Hr Hs He Hmax Hfuel)
    as (a'' & Hrun' & _ & _ & Hret & _ & Hch & _ & _ & Hspan & _).
  rewrite Hrun in Hrun'. injection Hrun' as <-.
  exists a'. rewrite <- Hret. done.
Qed.

Lemma sweep_removes_passed_chunks_witness :
  exists a',
    Archive.exerciseRetention 1000
      (Archive.set_times (Archive.NewArchive "d" 1 60 20) 5 100) = Ok a'
    /\ 5 <= Archive.StartTime a'
    /\ Archive.EndTime a' - Archive.StartTime a' <= 60
    /\ Archive.chunks a' = []
    /\ (forall k, swept 20 5 (Archive.StartTime a') k ->
          Archive.chunk_files (Archive.disk a') !! k = None)
    /\ (forall k, ~ swept 20 5 (Archive.StartTime a') k ->
          Archive.chunk_files (Archive.disk a') !! k
          = Archive.chunk_files Archive.empty_directory !! k).
Proof.
  apply (sweep_removes_passed_chunks 1000
           (Archive.set_times (Archive.NewArchive "d" 1 60 20) 5 100));
    vm_compute; try split; congruence || lia.
Defined.

(** ** Writing a well-formed archive and opening it again *)

Section Reopen.

Import Chunk Archive.

Variable P : payload -> Prop.
Variable T : Z.

Lemma readable_decode c r :
  chunk_readable P r c -> chunk_readable P r (decode_chunk (encode_chunk c)).
Proof. by intros [? ?]. Qed.

Lemma writeChunks_files a r : forall cs d,
  ChunkSize a <> 0 -> Forall (held P r) cs ->
  (forall k f, chunk_files d !! k = Some f ->
     chunk_readable P r (decode_chunk f)) ->
  exists d', writeChunks a cs d = Ok d'
    /\ archive_file d' = archive_file d
    /\ (forall k f, chunk_files d' !! k = Some f ->
          chunk_readable P r (decode_chunk f)).
Proof.
  induction cs as [|oc cs IH]; intros d Hc Hcs Hd; simpl; [by exists d|].
  apply Forall_cons in Hcs as [(c & -> & Hread) Hcs].
  destruct (dirty c); [|by apply IH].
  destruct (chunkStart_Ok a (Chunk.StartTime c) Hc) as [name ->]. simpl.
  destruct (IH (write_chunk d name c) Hc Hcs) as (d' & -> & Hh & Hf).
  - intros k f. simpl. destruct (decide (k = name)) as [->|Hne].
    + rewrite lookup_insert_eq. intros [= <-]. by apply readable_decode.
    + rewrite lookup_insert_ne by done. apply Hd.
  - by exists d'.
Qed.

(** The file of the last chunk is written last. *)
Lemma writeChunks_last a c name : forall cs d d',
  writeChunks a (cs ++ [Some c]) d = Ok d' ->
  dirty c = true -> chunkStart a (Chunk.StartTime c) = Ok name ->
  chunk_files d' !! name = Some (encode_chunk c).
Proof.
  induction cs as [|oc cs IH]; intros d d' H Hdirty Hname; simpl in H.
  - rewrite Hdirty, Hname in H. simpl in H. injection H as <-.
    simpl. by rewrite lookup_insert_eq.
  - destruct oc as [c0|]; [|done].
    destruct (dirty c0); [|by eapply IH].
    bind_inv H as n0 Hn0. by eapply IH.
Qed.



Lemma exerciseRetention_Dir : forall fuel a a',
  exerciseRetention fuel a = Ok a' -> Dir a' = Dir a.
Proof.
  induction fuel as [|n IH]; intros a a' H; simpl in H.
  - destruct (_ <? _); [done|]. by injection H as <-.
  - destruct (_ <? _); [|by injection H as <-].
    bind_inv H as s Hs. by apply IH in H.
Qed.

(** What [Write] does when there is something to write: the chunks are
    written, then the sweep runs on the archive that keeps its last chunk
    [c] in memory, then the header is written. *)
Lemma Write_sweeps fuel a c :
  archive_ok P T a -> lastChunk a = Some c ->
  lastWrite a < EndTime a -> (Z.to_nat T <= fuel)%nat ->
  exists a1,
    Write fuel a
    = Ok (set_disk (set_lastWrite a1 (EndTime a))
            (write_header (disk a1)
               (header_of (set_lastWrite a1 (EndTime a)))))
    /\ Interval a1 = Interval a /\ ChunkSize a1 = ChunkSize a
    /\ Retention a1 = Retention a /\ EndTime a1 = EndTime a
    /\ Dir a1 = Dir a
    /\ chunks a1 = [Some c]
    /\ EndTime a - StartTime a1 <= Retention a
    /\ (StartTime a1 = StartTime a
        \/ (ChunkSize a | StartTime a1)
           /\ StartTime a1 - ChunkSize a < EndTime a - Retention a)
    /\ (forall k, swept (ChunkSize a) (StartTime a) (StartTime a1) k ->
          chunk_files (disk a1) !! k = None)
    /\ (~ swept (ChunkSize a) (StartTime a) (StartTime a1)
            (Chunk.StartTime c) ->
        chunk_files (disk a1) !! Chunk.StartTime c = Some (encode_chunk c)).
Proof.
  intros Hok Hlc Hlt Hfuel.
  pose proof Hok as [Hi Hc Hdiv Hmax Hret Hst He Hlw Hlat Hchunks Hdisk Hlast].
  destruct (Hlast c Hlc) as (Hcok & Hec & Hal & Hse).
  pose proof (cok_StartTime P _ c Hcok) as Hs0.
  unfold Write. destruct (Z.ltb_spec (lastWrite a) (EndTime a)); [|lia].
  assert (Hlatest : latest_time a = Chunk.EndTime c)
    by (unfold latest_time; by rewrite Hlc).
  destruct (writeChunks_files a (Interval a) (chunks a) (disk a))
    as (d1 & Hw & Hh1 & Hf1); try done; try lia.
  rewrite Hw. simpl.
  set (b := set_chunks (set_disk a d1) [lastChunk a]).
  destruct (exerciseRetention_files fuel b)
    as (a1 & Hrun & Hle & Hmoved & Hgone & Hkept & _);
    simpl; try (range; lia).
  destruct (exerciseRetention_spec fuel b)
    as (a1' & Hrun' & Hi1 & Hc1 & Hr1 & He1 & Hch1 & Hlw1 & _ & Hspan
        & Hs1 & _); simpl; try (range; lia).
  rewrite Hrun in Hrun'. injection Hrun' as <-. simpl in *.
  assert (Hd1 : Dir a1 = Dir a) by (by apply exerciseRetention_Dir in Hrun).
  rewrite Hrun. simpl. exists a1. rewrite He1.
  split; [done|]. rewrite Hr1, He1 in Hspan. rewrite Hlc in Hch1.
  do 7 (split; [done|]). split; [done|]. split; [done|].
  intros Hnot. rewrite (Hkept _ Hnot). simpl.
  unfold lastChunk in Hlc. destruct (last (chunks a)) as [oc|] eqn:Hl; [|done].
  subst oc. apply last_Some in Hl as [cs Hcs]. rewrite Hcs in Hw.
  eapply writeChunks_last; [exact Hw|apply Hcok|].
  apply chunkStart_multiple; try done. range. lia.
Qed.



Lemma chunkStart_within a L x :
  0 < ChunkSize a -> (ChunkSize a | L) -> 0 <= L ->
  L <= x < L + ChunkSize a -> x <= Int64.max_int ->
  chunkStart a x = Ok L.
Proof.
  intros Hc Hd HL Hx Hmax.
  destruct (chunkStart_any a x Hc) as (cs & -> & Hdc & Hcs & Hpos & _);
    [range; lia|].
  f_equal. destruct (decide (cs = L)) as [|Hne]; [done|].
  destruct (Z_lt_le_dec cs L).
  - pose proof (multiples_apart _ L cs Hc Hd Hdc ltac:(lia) ltac:(done)). lia.
  - pose proof (multiples_apart _ cs L Hc Hdc Hd ltac:(lia) Hne). lia.
Qed.

(** [Write] then [OpenArchive], when the retention covers the last chunk. *)
Lemma Write_Open fuel a c :
  archive_ok P T a -> lastChunk a = Some c ->
  EndTime a = Chunk.EndTime c -> lastWrite a < EndTime a ->
  Chunk.EndTime c - Chunk.StartTime c <= Retention a ->
  (Z.to_nat T <= fuel)%nat ->
  exists a',
    Write fuel a = Ok a'
    /\ lastChunk a' = Some c
    /\ Interval a' = Interval a /\ ChunkSize a' = ChunkSize a
    /\ OpenArchive (disk a')
       = Ok (set_chunks (open_header (disk a') (header_of a'))
               [Some (decode_chunk (encode_chunk c))]).
Proof.
  intros Hok Hlc Hend Hlt Hcover Hfuel.
  destruct (Write_sweeps fuel a c Hok Hlc Hlt Hfuel)
    as (a1 & Hw & Hi1 & Hc1 & Hr1 & He1 & Hd1 & Hch1 & Hspan & Hmoved & _
        & Hkept).
  pose proof Hok as [Hi Hc Hdiv Hmax Hret Hst He Hlw Hlat Hchunks Hdisk Hlast].
  destruct (Hlast c Hlc) as (Hcok & Hec & Hal & Hse).
  pose proof (cok_StartTime P _ c Hcok) as Hs0.
  eexists. split; [exact Hw|].
  split; [unfold lastChunk; simpl; by rewrite Hch1|].
  split; [done|]. split; [done|].
  unfold OpenArchive. simpl. rewrite !He1.
  destruct (Z.ltb_spec 0 (EndTime a)); [|lia].
  assert (Hcs : chunkStart
      (open_header
         (write_header (disk a1) (header_of (set_lastWrite a1 (EndTime a))))
         (header_of (set_lastWrite a1 (EndTime a))))
      (EndTime a) = Ok (Chunk.StartTime c)).
  { apply chunkStart_within; simpl; rewrite ?Hc1; try done; try lia. }
  simpl in Hcs. rewrite Hcs. simpl.
  rewrite Hkept; [done|].
  intros (_ & Hk1 & Hk2). destruct Hmoved as [Hm|[_ Hm]]; lia.
Qed.

End Reopen.

Lemma archive_ok_tail P T a : archive_ok P T a -> tail_ok a.
Proof.
  intros Hok. split; [apply Hok|apply Hok|].
  intros c Hc. destruct (aok_last P T a Hok c Hc) as (Hcok & _).
  split; [apply Hcok|]. split; [apply Hcok|].
  split; [apply Hcok|apply Hcok].
Qed.

(** A sample newer than the archive, appended to a well-formed archive:
    the archive that results, and its last chunk. *)
Lemma Append_newer P T fuel a val ts :
  archive_ok P T a ->
  map_Forall (fun _ p => P p) val ->
  0 < ts -> round_up (Archive.Interval a) ts <= T ->
  latest_time a < round_up (Archive.Interval a) ts ->
  (Z.to_nat (T + Archive.Interval a) <= fuel)%nat ->
  exists a1 c,
    Archive.Append fuel a val ts = Ok a1
    /\ archive_ok P T a1
    /\ Archive.Interval a1 = Archive.Interval a
    /\ Archive.ChunkSize a1 = Archive.ChunkSize a
    /\ Archive.Retention a1 = Archive.Retention a
    /\ Archive.lastWrite a1 = Archive.lastWrite a
    /\ Archive.EndTime a1 = round_up (Archive.Interval a) ts
    /\ Archive.lastChunk a1 = Some c
    /\ Chunk.EndTime c = round_up (Archive.Interval a) ts
    /\ Chunk.latest c = Ok (Some val).
Proof.
  intros Hok HP Hts HT Hnew Hfuel.
  pose proof (aok_Interval P T a Hok) as Hi.
  pose proof (aok_horizon P T a Hok) as Hmax.
  pose proof (round_up_bounds (Archive.Interval a) ts Hi) as Hb.
  destruct (Append_ok P T fuel a val ts Hok HP)
    as (a1 & Happ & Hok1 & Hi1 & He1 & _); try lia.
  destruct (Append_Latest fuel a val ts (archive_ok_tail P T a Hok))
    as (a1' & Happ' & Hlat & _); try lia.
  rewrite Happ in Happ'. injection Happ' as <-.
  unfold Archive.Latest in Hlat.
  destruct (Archive.lastChunk a1) as [c|] eqn:Hlc; [|done].
  bind_inv Hlat as m Hm. injection Hlat as -> Hec.
  exists a1, c. split; [done|]. split; [done|]. split; [done|].
  apply Append_inv in Happ
    as (n & lc & rest & lc' & _ & _ & _ & ->). simpl.
  done.
Qed.



(** ** A chunk read back from its file *)

(** A chunk decoded from its file has no tag map: interning a tag writes to
    a nil map. *)
Lemma derefTags_nil_tagMap c val :
  Chunk.tagMap c = None -> val <> ∅ -> Chunk.derefTags c val = Panic.
Proof.
  intros Htm Hval. unfold Chunk.derefTags.
  destruct (map_to_list val) as [|[k v] l] eqn:Hl.
  - by apply map_to_list_empty_iff in Hl.
  - simpl. unfold Chunk.deref_step. by rewrite Htm.
Qed.

Lemma append_nil_tagMap fuel c val n :
  Chunk.tagMap c = None -> val <> ∅ ->
  0 < Chunk.Resolution c -> 0 < Chunk.EndTime c <= n ->
  is_Some (last (Chunk.Data c)) ->
  n + Chunk.Resolution c <= Int64.max_int ->
  (Z.to_nat n <= fuel)%nat ->
  Chunk.append fuel c val n = Panic.
Proof.
  intros Htm Hval Hr He [latest Hlast] Hmax Hfuel.
  unfold Chunk.append.
  destruct (Z.ltb_spec n (Chunk.EndTime c)); [lia|].
  destruct (Z.eqb_spec n (Chunk.EndTime c)).
  - rewrite Hlast. by rewrite derefTags_nil_tagMap.
  - unfold Chunk.empty.
    destruct (Z.eqb_spec (Chunk.EndTime c) 0); [lia|]. simpl.
    assert (Hfill : exists k fv ts0,
      (if Int64.add (Chunk.EndTime c) (Chunk.Resolution c) <? n
       then Chunk.fillTo fuel c n else Ok c) = Ok (filled c k fv ts0)
      /\ 0 < ts0).
    { destruct (_ <? _).
      - unfold Chunk.fillTo, Int64.quo.
        destruct (Z.eqb_spec (Chunk.Resolution c) 0); [lia|]. simpl.
        rewrite add_id by (range; lia).
        match goal with |- context [Chunk.fillLoop fuel ?fv n ?ts c] =>
          destruct (fillLoop_total fuel fv n ts c) as [k ->];
            try (range; lia)
        end.
        eexists k, _, _. split; [reflexivity|lia].
      - exists 0%nat, None, 1. split; [done|lia]. }
    destruct Hfill as (k & fv & ts0 & -> & Hts0). simpl.
    destruct (filled_fields c k fv ts0) as (_ & _ & _ & Htm' & _).
    assert (He' : Chunk.EndTime (filled c k fv ts0) <> 0).
    { destruct k; simpl; [lia|nia]. }
    destruct (Z.eqb_spec (Chunk.EndTime (filled c k fv ts0)) 0); [done|].
    simpl. rewrite derefTags_nil_tagMap; [done|congruence|done].
Qed.

Lemma same_chunk span s n n' :
  0 < span -> (span | s) -> s <= n < s + span ->
  n' / span = n / span -> s <= n' < s + span.
Proof.
  intros Hs [q ->] Hn Hq.
  assert (n / span = q) as Hnq.
  { symmetry. apply (Z.div_unique n span q (n - q * span)); lia. }
  rewrite Hnq in Hq.
  pose proof (Z.div_mod n' span ltac:(lia)).
  pose proof (Z.mod_pos_bound n' span Hs). nia.
Qed.

(** X8. A chunk read back from disk has lost its tag map, which is not an
    exported field: after a sample was appended and written and the archive
    opened again, [Append] of a sample that is not empty and falls in the
    last chunk, at or after its latest slot, panics. *)
Theorem reopened_archive_rejects_samples P T fuel a val ts val' ts' :
  archive_ok P T a ->
  map_Forall (fun _ p => P p) val ->
  0 < ts -> round_up (Archive.Interval a) ts <= T ->
  latest_time a < round_up (Archive.Interval a) ts ->
  Archive.ChunkSize a <= Archive.Retention a ->
  (Z.to_nat (T + Archive.Interval a) <= fuel)%nat ->
  val' <> ∅ ->
  round_up (Archive.Interval a) ts <= round_up (Archive.Interval a) ts' <= T ->
  round_up (Archive.Interval a) ts' / Archive.ChunkSize a
  = round_up (Archive.Interval a) ts / Archive.ChunkSize a ->
  exists a1 a2 b,
    Archive.Append fuel a val ts = Ok a1
    /\ Archive.Write fuel a1 = Ok a2
    /\ Archive.OpenArchive (Archive.disk a2) = Ok b
    /\ Archive.Append fuel b val' ts' = Panic.
Proof.
  intros Hok HP Hts HT Hnew Hret Hfuel Hval' Hn' Hsame.
  destruct (Append_newer P T fuel a val ts Hok HP Hts HT Hnew Hfuel)
    as (a1 & c & Happ & Hok1 & Hi1 & Hc1 & Hr1 & Hlw1 & He1 & Hlc & Hec
        & Hlat).
  pose proof (aok_lastWrite P T a Hok) as Hlw.
  pose proof (aok_Interval P T a Hok) as Hi.
  pose proof (aok_ChunkSize P T a Hok) as Hcs.
  pose proof (aok_horizon P T a Hok) as Hmax.
  pose proof (aok_slots P T a Hok) as Hdiv.
  destruct (aok_last P T a1 Hok1 c Hlc) as (Hcok & _ & Hal & Hse).
  pose proof (cok_StartTime P _ c Hcok) as Hs0.
  destruct (Write_Open P T fuel a1 c Hok1 Hlc)
    as (a2 & Hw & Hlc2 & Hi2 & Hc2 & Hopen); try lia.
  eexists a1, a2, _. split; [done|]. split; [done|].
  split; [exact Hopen|].
  pose proof (round_up_bounds (Archive.Interval a) ts' Hi) as Hb'.
  set (n := round_up (Archive.Interval a) ts) in *.
  set (n' := round_up (Archive.Interval a) ts') in *.
  rewrite Hc1 in *. rewrite Hi1 in *.
  destruct (same_chunk (Archive.ChunkSize a) (Chunk.StartTime c) n n')
    as [Hlo Hhi]; try done; try lia.
  assert (Hbound : n' <= Chunk.StartTime c + Archive.ChunkSize a
                         - Archive.Interval a).
  { apply last_slot_bound; try done. apply round_up_divide. }
  unfold Archive.Append.
  rewrite tsNorm_round_up; simpl; rewrite ?Hi2; try (range; lia).
  fold n'. unfold Archive.appendTarget, Archive.lastChunk. simpl.
  unfold Archive.boundaryCheck, Archive.chunkEnd, Archive.lastChunk. simpl.
  rewrite chunkStart_multiple; simpl; rewrite ?Hc2; try done;
    try (range; lia).
  simpl. rewrite ?Hi2, ?Hc2. rewrite add_id, sub_id by (range; lia).
  destruct (Z.ltb_spec (Chunk.StartTime c + Archive.ChunkSize a
                        - Archive.Interval a) n'); [lia|].
  simpl. rewrite append_nil_tagMap; simpl; try done; try lia.
  - destruct Hcok as [_ [-> _] _ _ _ _]. lia.
  - destruct (cok_last P _ c Hcok) as [m ->]; [lia|]. by eexists.
  - destruct Hcok as [_ [-> _] _ _ _ _]. range. lia.
Qed.

Lemma reopened_archive_rejects_samples_witness :
  exists a1 a2 b,
    Archive.Append 1010 (Archive.NewArchive "d" 10 600 (20 * 10))
      {["val" := VFloat 1]} 55 = Ok a1
    /\ Archive.Write 1010 a1 = Ok a2
    /\ Archive.OpenArchive (Archive.disk a2) = Ok b
    /\ Archive.Append 1010 b {["val" := VFloat 2]} 75 = Panic.
Proof.
  apply (reopened_archive_rejects_samples is_float 1000 1010
           (Archive.NewArchive "d" 10 600 (20 * 10))
           {["val" := VFloat 1]} 55 {["val" := VFloat 2]} 75).
  - apply archive_ok_new; vm_compute; congruence.
  - apply map_Forall_singleton. by eexists.
  - lia.
  - vm_compute. congruence.
  - vm_compute. reflexivity.
  - vm_compute. congruence.
  - vm_compute. lia.
  - apply insert_non_empty.
  - vm_compute. split; congruence.
  - vm_compute. reflexivity.
Defined.

(** X9. When the retention is shorter than the span from the start of the
    archive, or of its last chunk, to its end, the sweep that follows the
    chunk writes removes the file of the last chunk, which [Write] has just
    written: the archive keeps the chunk in memory, and [OpenArchive] fails
    on the directory. *)
Theorem short_retention_loses_last_chunk P T fuel a c :
  archive_ok P T a -> Archive.lastChunk a = Some c ->
  Archive.EndTime a = Chunk.EndTime c ->
  Archive.lastWrite a < Archive.EndTime a ->
  Archive.Retention a
    < Archive.EndTime a - Z.max (Archive.StartTime a) (Chunk.StartTime c) ->
  (Z.to_nat T <= fuel)%nat ->
  exists a',
    Archive.Write fuel a = Ok a'
    /\ Archive.lastChunk a' = Some c
    /\ Archive.chunk_files (Archive.disk a') !! Chunk.StartTime c = None
    /\ Archive.OpenArchive (Archive.disk a')
       = Err "open chunk: no such file or directory".
Proof.
  intros Hok Hlc Hend Hlt Hshort Hfuel.
  destruct (Write_sweeps P T fuel a c Hok Hlc Hlt Hfuel)
    as (a1 & Hw & Hi1 & Hc1 & Hr1 & He1 & Hd1 & Hch1 & Hspan & Hmoved
        & Hgone & _).
  pose proof Hok as [Hi Hc Hdiv Hmax Hret Hst He Hlw Hlat Hchunks Hdisk Hlast].
  destruct (Hlast c Hlc) as (Hcok & Hec & Hal & Hse).
  pose proof (cok_StartTime P _ c Hcok) as Hs0.
  assert (Hswept : swept (Archive.ChunkSize a) (Archive.StartTime a)
                     (Archive.StartTime a1) (Chunk.StartTime c)).
  { split; [done|]. split; [lia|].
    destruct Hmoved as [Hm|[Hd _]]; [lia|].
    apply multiples_apart; try done; lia. }
  eexists. split; [exact Hw|].
  split; [unfold Archive.lastChunk; simpl; by rewrite Hch1|].
  split; [simpl; by apply Hgone|].
  unfold Archive.OpenArchive. simpl. rewrite !He1.
  destruct (Z.ltb_spec 0 (Archive.EndTime a)); [|lia].
  assert (Hcs : Archive.chunkStart
      (Archive.open_header
         (Archive.write_header (Archive.disk a1)
            (Archive.header_of
               (Archive.set_lastWrite a1 (Archive.EndTime a))))
         (Archive.header_of (Archive.set_lastWrite a1 (Archive.EndTime a))))
      (Archive.EndTime a) = Ok (Chunk.StartTime c)).
  { apply chunkStart_within; simpl; rewrite ?Hc1; try done; try lia. }
  simpl in Hcs. rewrite Hcs. simpl. by rewrite (Hgone _ Hswept).
Qed.

Lemma short_retention_loses_last_chunk_witness :
  exists a1 a2 a',
    Archive.Append 1010 (Archive.NewArchive "d" 10 20 (20 * 10))
      {["val" := VFloat 1]} 10 = Ok a1
    /\ Archive.Append 1010 a1 {["val" := VFloat 2]} 100 = Ok a2
    /\ Archive.Write 1010 a2 = Ok a'
    /\ Archive.OpenArchive (Archive.disk a')
       = Err "open chunk: no such file or directory".
Proof.
  pose (a0 := Archive.NewArchive "d" 10 20 (20 * 10)).
  assert (Hok0 : archive_ok is_float 1000 a0)
    by (apply archive_ok_new; vm_compute; congruence).
  destruct (Append_newer is_float 1000 1010 a0 {["val" := VFloat 1]} 10 Hok0)
    as (a1 & c1 & H1 & Hok1 & Hi1 & Hc1 & Hr1 & Hlw1 & He1 & Hlc1 & Hec1 & _);
    [apply map_Forall_singleton; by eexists|lia|vm_compute; congruence
    |vm_compute; reflexivity|vm_compute; lia|].
  run_hyp H1. injection H1 as <-.
  match type of Hok1 with archive_ok _ _ ?a =>
    destruct (Append_newer is_float 1000 1010 a {["val" := VFloat 2]} 100
                Hok1)
      as (a2 & c2 & H2 & Hok2 & Hi2 & Hc2 & Hr2 & Hlw2 & He2 & Hlc2 & Hec2
          & _);
      [apply map_Forall_singleton; by eexists|lia|vm_compute; congruence
      |vm_compute; reflexivity|vm_compute; lia|]
  end.
  run_hyp H2. injection H2 as <-.
  vm_compute in Hlc2.
  match type of Hok2 with archive_ok _ _ ?a =>
    match type of Hlc2 with Some ?c = Some _ =>
      destruct (short_retention_loses_last_chunk is_float 1000 1010 a c
                  Hok2)
        as (a' & Hw & _ & _ & Hopen);
        [vm_compute; reflexivity|vm_compute; reflexivity
        |vm_compute; reflexivity|vm_compute; reflexivity|vm_compute; lia|]
    end
  end.
  eexists _, _, a'. split; [vm_compute; reflexivity|].
  split; [vm_compute; reflexivity|]. split; [exact Hw|exact Hopen].
Defined.

(** ** Two samples in one slot *)

Section SameSlot.

Import Chunk.

(** What [latest] answers determines the latest slot. *)
Lemma latest_slot_holds P c m val :
  tags_ok c -> last (Data c) = Some (Some m) ->
  slot_ok P (length (Tags c)) (Some m) ->
  latest c = Ok (Some val) ->
  slot_holds c m val
  /\ (forall tag, is_Some (val !! tag) -> tag ∈ Tags c).
Proof.
  intros Hc Hlast Hslot Hlat. unfold latest, latestRaw in Hlat.
  rewrite Hlast in Hlat. bind_inv Hlat as ret Hr. injection Hlat as ->.
  destruct (resolve_list_spec c (map_to_list m) ∅ Hc)
    as (ret' & Hr' & Hin & Hout).
  { apply NoDup_fst_map_to_list. }
  { intros i Hi. apply list_elem_of_fmap in Hi as ([i' v] & -> & Hi).
    apply elem_of_map_to_list in Hi. simpl.
    apply lookup_lt_is_Some_2. by apply (Hslot m eq_refl i' v). }
  rewrite Hr in Hr'. injection Hr' as <-.
  split.
  - intros i. destruct (Tags c !! i) as [tag|] eqn:Ht; simpl.
    + rewrite (Hin tag i Ht), list_to_map_to_list, lookup_empty.
      by destruct (m !! i).
    + destruct (m !! i) as [p|] eqn:Hm; [|done].
      destruct (Hslot m eq_refl i p Hm) as [Hlt _].
      apply lookup_lt_is_Some_2 in Hlt as [? ?]. congruence.
  - intros tag [v Hv]. destruct (decide (tag ∈ Tags c)) as [|Hn]; [done|].
    rewrite (Hout tag Hn), lookup_empty in Hv. done.
Qed.

(** The slot of an older tag table still holds its values under a table
    that extends it. *)
Lemma slot_holds_prefix P c c' m val :
  tags_ok c' -> Tags c `prefix_of` Tags c' ->
  slot_ok P (length (Tags c)) (Some m) ->
  slot_holds c m val ->
  (forall tag, is_Some (val !! tag) -> tag ∈ Tags c) ->
  slot_holds c' m val.
Proof.
  intros Hc' [l Hl] Hslot Hm Hall i.
  destruct (decide (i < length (Tags c))%nat) as [Hlt|Hge].
  - rewrite Hm, Hl. by rewrite lookup_app_l.
  - assert (Hmi : m !! i = None).
    { destruct (m !! i) as [p|] eqn:Hp; [|done].
      destruct (Hslot m eq_refl i p Hp). lia. }
    rewrite Hmi. destruct (Tags c' !! i) as [tag|] eqn:Ht; [|done]. simpl.
    destruct (val !! tag) as [v|] eqn:Hv; [|done].
    assert (Hin : tag ∈ Tags c) by (apply Hall; by eexists).
    apply list_elem_of_lookup in Hin as [j Hj].
    pose proof (lookup_lt_Some _ _ _ Hj) as Hjlt.
    assert (Hj' : Tags c' !! j = Some tag)
      by (rewrite Hl; by rewrite lookup_app_l).
    pose proof (tags_ok_inj c' i j tag Hc' Ht Hj'). lia.
Qed.

Lemma slot_holds_union c m1 m2 val1 val2 :
  slot_holds c m1 val1 -> slot_holds c m2 val2 ->
  slot_holds c (m2 ∪ m1) (val2 ∪ val1).
Proof.
  intros H1 H2 i. rewrite lookup_union, H1, H2.
  destruct (Tags c !! i) as [tag|]; simpl; [|done].
  by rewrite lookup_union.
Qed.

End SameSlot.

(** X10. Two samples whose timestamps normalise to the same slot are
    merged: after the second [Append], [Latest] answers the union of the two
    samples at that slot's time, and on a signal that both carry the second
    value replaces the first. *)
Theorem same_slot_merges P T fuel a val1 ts1 val2 ts2 :
  archive_ok P T a ->
  map_Forall (fun _ p => P p) val1 ->
  0 < ts1 -> round_up (Archive.Interval a) ts1 <= T ->
  latest_time a < round_up (Archive.Interval a) ts1 ->
  (Z.to_nat (T + Archive.Interval a) <= fuel)%nat ->
  round_up (Archive.Interval a) ts2 = round_up (Archive.Interval a) ts1 ->
  exists a1 a2,
    Archive.Append fuel a val1 ts1 = Ok a1
    /\ Archive.Append fuel a1 val2 ts2 = Ok a2
    /\ Archive.Latest a2
       = Ok (Some (val2 ∪ val1), round_up (Archive.Interval a) ts1).
Proof.
  intros Hok HP Hts HT Hnew Hfuel Hsame.
  destruct (Append_newer P T fuel a val1 ts1 Hok HP Hts HT Hnew Hfuel)
    as (a1 & c & Happ & Hok1 & Hi1 & Hc1 & Hr1 & Hlw1 & He1 & Hlc & Hec
        & Hlat).
  pose proof (aok_Interval P T a Hok) as Hi.
  pose proof (aok_ChunkSize P T a Hok) as Hcs.
  pose proof (aok_horizon P T a Hok) as Hmax.
  destruct (aok_last P T a1 Hok1 c Hlc) as (Hcok & _ & Hal & Hse).
  pose proof (cok_StartTime P _ c Hcok) as Hs0.
  pose proof (round_up_bounds (Archive.Interval a) ts2 Hi) as Hb2.
  pose proof (round_up_bounds (Archive.Interval a) ts1 Hi) as Hb1.
  set (n := round_up (Archive.Interval a) ts1) in *.
  rewrite Hc1 in Hal. rewrite Hc1, Hi1 in Hse.
  destruct (cok_last P _ c Hcok ltac:(lia)) as [m1 Hm1].
  destruct Hcok as [Htags [Hres Hdata] _ _ _ _].
  assert (Hslot : slot_ok P (length (Chunk.Tags c)) (Some m1)).
  { apply last_Some in Hm1 as [l Hl]. rewrite Hl in Hdata.
    apply Forall_app in Hdata as [_ Hd]. by rewrite Forall_singleton in Hd. }
  destruct (latest_slot_holds P c m1 val1 Htags Hm1 Hslot Hlat)
    as [Hholds Hall].
  destruct (derefTags_spec c val2 Htags)
    as (c' & m2 & Hd & (Hs' & He' & Hr' & Hd' & _) & Htags' & Hpre & Hall'
        & Hm2).
  exists a1. eexists. split; [done|]. split.
  - unfold Archive.Append.
    rewrite tsNorm_round_up by (rewrite ?Hi1; range; lia).
    simpl. rewrite Hi1, Hsame. fold n.
    unfold Archive.appendTarget. rewrite Hlc.
    unfold Archive.boundaryCheck, Archive.chunkEnd. rewrite Hlc.
    rewrite chunkStart_multiple by (rewrite ?Hc1; try done; range; lia).
    simpl. rewrite Hc1, Hi1. rewrite add_id, sub_id by (range; lia).
    destruct (Z.ltb_spec (Chunk.StartTime c + Archive.ChunkSize a
                          - Archive.Interval a) n); [lia|].
    simpl. unfold Chunk.append. rewrite Hec, Z.ltb_irrefl, Z.eqb_refl.
    rewrite Hm1, Hd. simpl. reflexivity.
  - unfold Archive.Latest, Archive.lastChunk. simpl. rewrite last_snoc.
    rewrite (latest_of_slot _ (m2 ∪ m1) (val2 ∪ val1)).
    + simpl. by rewrite He', Hec.
    + by apply (tags_ok_same c').
    + simpl. rewrite Hd'. apply last_Some in Hm1 as [l ->].
      by rewrite replace_last_snoc, last_snoc.
    + apply (slot_holds_union c'); [|done].
      by eapply slot_holds_prefix.
    + simpl. intros tag Htag. apply lookup_union_is_Some in Htag as [?|?].
      * by apply Hall'.
      * destruct Hpre as [l ->]. apply elem_of_app. left. by apply Hall.
Qed.

Lemma same_slot_merges_witness :
  exists a1 a2,
    Archive.Append 1010 (Archive.NewArchive "d" 10 600 (20 * 10))
      {["cpu" := VFloat 1; "mem" := VFloat 5]} 55 = Ok a1
    /\ Archive.Append 1010 a1 {["cpu" := VFloat 2]} 58 = Ok a2
    /\ Archive.Latest a2
       = Ok (Some ({["cpu" := VFloat 2]}
                   ∪ {["cpu" := VFloat 1; "mem" := VFloat 5]}),
             round_up 10 55).
Proof.
  apply (same_slot_merges is_float 1000 1010
           (Archive.NewArchive "d" 10 600 (20 * 10))
           {["cpu" := VFloat 1; "mem" := VFloat 5]} 55
           {["cpu" := VFloat 2]} 58).
  - apply archive_ok_new; vm_compute; congruence.
  - apply map_Forall_insert_2; [by eexists|].
    apply map_Forall_singleton. by eexists.
  - lia.
  - vm_compute. congruence.
  - vm_compute. reflexivity.
  - vm_compute. lia.
  - vm_compute. reflexivity.
Defined.

(** ** Rollups of rollups *)

Lemma rollupLoop_acc v : forall r rs,
  present v = VRollup <$> rs ->
  Int64.in_range (Count r) ->
  Tissa.rollupLoop v r false
  = Ok {| Total := foldl PrimFloat.add (Total r) (Total <$> rs);
          Count := Int64.wrap (Count r + foldr Z.add 0 (Count <$> rs));
          Min := foldl fmin (Min r) (Min <$> rs);
          Max := foldl fmax (Max r) (Max <$> rs) |}.
Proof.
  induction v as [|[p|] v IH]; intros r rs Hp Hr; simpl in *.
  - destruct rs; [|discriminate]. simpl.
    rewrite Z.add_0_r, wrap_id by done. by destruct r.
  - destruct rs as [|x rs]; [discriminate|]. injection Hp as -> Hp.
    simpl. rewrite (IH _ rs Hp) by apply wrap_in_range.
    simpl. unfold Int64.add. rewrite wrap_wrap_add.
    by rewrite Z.add_assoc.
  - by apply IH.
Qed.

Lemma rollupLoop_merged v rs :
  present v = VRollup <$> rs ->
  Tissa.rollupLoop v Rollup_zero true = Ok (merged_rollup rs).
Proof.
  induction v as [|[p|] v IH]; intros Hp; simpl in *.
  - by destruct rs.
  - destruct rs as [|x rs]; [discriminate|]. injection Hp as -> Hp.
    simpl. rewrite (rollupLoop_acc _ _ rs Hp) by apply wrap_in_range.
    simpl. unfold merged_rollup, Int64.add. simpl.
    by rewrite wrap_wrap_add.
  - by apply IH.
Qed.

(** X11. [rollupRollupData] reduces a window of rollups signal by signal:
    it returns a rollup for every signal of the window, which adds the
    totals and the counts of the slots that are not nil and takes the
    maximum of their maxima and the minimum of their minima; a signal whose
    slots are all nil gets the zero rollup. *)
Theorem rollup_of_rollups data :
  (forall k v, data !! k = Some v -> exists rs, present v = VRollup <$> rs) ->
  exists out,
    Tissa.rollupRollupData data = Ok out
    /\ dom out = dom data
    /\ (forall k v rs, data !! k = Some v -> present v = VRollup <$> rs ->
          out !! k = Some (VRollup (merged_rollup rs)))
    /\ (forall k v, data !! k = Some v -> Forall (fun d => d = None) v ->
          out !! k = Some (VRollup Rollup_zero)).
Proof.
  intros Hdata.
  destruct (reduce_map_spec Tissa.rollupLoop data) as (out & Hout & Hdom & Hl).
  { intros k v Hk. destruct (Hdata k v Hk) as [rs Hrs].
    rewrite (rollupLoop_merged v rs Hrs). by eexists. }
  exists out. split; [done|]. split; [done|]. split.
  - intros k v rs Hk Hrs. destruct (Hl k v Hk) as (r & Hr & ->).
    rewrite (rollupLoop_merged v rs Hrs) in Hr. by injection Hr as <-.
  - intros k v Hk Hnil. destruct (Hl k v Hk) as (r & Hr & ->).
    rewrite (rollupLoop_merged v []) in Hr; [by injection Hr as <-|].
    clear -Hnil. induction Hnil as [|d v -> _ IH]; [done|]. exact IH.
Qed.

Lemma rollup_of_rollups_witness :
  exists out,
    Tissa.rollupRollupData
      {["val" := [Some (VRollup (rollup_of [1; 4]%float)); None;
                  Some (VRollup (rollup_of [9]%float))]]} = Ok out
    /\ dom out = dom ({["val" := [Some (VRollup (rollup_of [1; 4]%float));
                                  None;
                                  Some (VRollup (rollup_of [9]%float))]]}
                      : gmap string (list (option payload)))
    /\ (forall k v rs,
          ({["val" := [Some (VRollup (rollup_of [1; 4]%float)); None;
                       Some (VRollup (rollup_of [9]%float))]]}
           : gmap string (list (option payload))) !! k = Some v ->
          present v = VRollup <$> rs ->
          out !! k = Some (VRollup (merged_rollup rs)))
    /\ (forall k v,
          ({["val" := [Some (VRollup (rollup_of [1; 4]%float)); None;
                       Some (VRollup (rollup_of [9]%float))]]}
           : gmap string (list (option payload))) !! k = Some v ->
          Forall (fun d => d = None) v ->
          out !! k = Some (VRollup Rollup_zero)).
Proof.
  apply (rollup_of_rollups
           {["val" := [Some (VRollup (rollup_of [1; 4]%float)); None;
                       Some (VRollup (rollup_of [9]%float))]]}).
  intros k v Hk. apply lookup_singleton_Some in Hk as [_ <-].
  by exists [rollup_of [1; 4]%float; rollup_of [9]%float].
Defined.

(** ** Creating a series *)

Section NewSeries.

Import Tissa.

Lemma newArchives_spec fuel dir : forall cfgs last made archs,
  newArchives fuel dir last made cfgs = Ok archs
  <-> divisible_chain last (Resolution <$> cfgs)
      /\ NoDup (Resolution <$> cfgs)
      /\ (forall c, c ∈ cfgs -> Resolution c ∉ made)
      /\ archs = created dir <$> cfgs.
Proof.
  induction cfgs as [|c cfgs IH]; intros last made archs; simpl.
  - split.
    + intros [= <-]. repeat split; try done; [constructor|].
      intros c Hc. by apply elem_of_nil in Hc.
    + by intros (_ & _ & _ & ->).
  - unfold Int64.rem. destruct (Z.eqb_spec last 0) as [->|Hlast].
    { simpl. split; [done|]. by intros ((? & _) & _). }
    simpl. destruct (Z.eqb_spec (Z.rem (Resolution c) last) 0) as [Hrem|Hrem];
      simpl.
    2:{ split; [done|]. by intros ((_ & ? & _) & _). }
    destruct (decide (Resolution c ∈ made)) as [Hin|Hnotin].
    { split; [done|]. intros (_ & _ & Hm & _). exfalso.
      apply (Hm c); [left|done]. }
    change (Archive.Write fuel _) with (Ok (created dir c)). simpl.
    split.
    + intros H. bind_inv H as rest Hrest. injection H as <-.
      apply IH in Hrest as (Hch & Hnd & Hm & ->).
      split; [done|]. split.
      * apply NoDup_cons. split; [|done].
        intros Hin. apply list_elem_of_fmap in Hin as (c' & Hr & Hc').
        apply (Hm c' Hc'). rewrite <- Hr.
        by apply elem_of_union_l, elem_of_singleton.
      * split; [|done]. intros c' Hc'.
        apply elem_of_cons in Hc' as [->|Hc']; [done|].
        intros Hin. apply (Hm c' Hc'). by apply elem_of_union_r.
    + intros ((_ & _ & Hch) & Hnd & Hm & ->).
      apply NoDup_cons in Hnd as [Hc Hnd].
      assert (Hrest : newArchives fuel dir (Resolution c)
                        ({[Resolution c]} ∪ made) cfgs
                      = Ok (created dir <$> cfgs)).
      { apply IH. split; [done|]. split; [done|]. split; [|done].
        intros c' Hc'. intros Hin.
        apply elem_of_union in Hin as [Hin|Hin].
        - apply elem_of_singleton in Hin. apply Hc.
          apply list_elem_of_fmap. by exists c'.
        - apply (Hm c'); [by right|done]. }
      by rewrite Hrest.
Qed.

End NewSeries.

Lemma NewTimeSeries_iff fuel dir config t :
  Tissa.NewTimeSeries fuel dir config = Ok t
  <-> Tissa.Archives config <> []
      /\ let sorted := merge_sort Tissa.config_le (Tissa.Archives config) in
         divisible_chain 1 (Tissa.Resolution <$> sorted)
         /\ NoDup (Tissa.Resolution <$> sorted)
         /\ t = {| Tissa.archives := created dir <$> sorted;
                   Tissa.config :=
                     {| Tissa.Archives := sorted;
                        Tissa.DefaultValue := Tissa.DefaultValue config |};
                   Tissa.LastWritten := 0 |}.
Proof.
  unfold Tissa.NewTimeSeries.
  destruct (Tissa.Archives config) as [|c cs] eqn:Hcfg.
  { split; [done|]. by intros [? _]. }
  simpl Tissa.Archives.
  set (sorted := merge_sort Tissa.config_le (c :: cs)).
  split.
  - intros H. bind_inv H as archs Ha. injection H as <-.
    apply newArchives_spec in Ha as (Hch & Hnd & _ & ->). done.
  - intros (_ & Hch & Hnd & ->).
    assert (Ha : Tissa.newArchives fuel dir 1 ∅ sorted
                 = Ok (created dir <$> sorted)).
    { apply newArchives_spec. split; [done|]. split; [done|].
      split; [|done]. intros c' _. apply not_elem_of_empty. }
    by rewrite Ha.
Qed.

Lemma sorted_intervals dir cfgs :
  Archive.Interval <$> (created dir <$> merge_sort Tissa.config_le cfgs)
  = Tissa.Resolution <$> merge_sort Tissa.config_le cfgs.
Proof. rewrite <- list_fmap_compose. by apply list_fmap_ext. Qed.

(** X12. [NewTimeSeries] returns a series exactly when the configuration
    lists an archive and, once the archives are sorted by resolution, every
    resolution is a multiple of the one before it (the first one of 1),
    which is not 0, and no two are equal (the second [Mkdir] would fail).
    The series then holds one new archive per configured archive, in this
    order, each with a chunk span of 2000 slots and its header written; the
    configuration it keeps is the sorted one. *)
Theorem NewTimeSeries_spec fuel dir config t :
  Tissa.NewTimeSeries fuel dir config = Ok t
  <-> Tissa.Archives config <> []
      /\ let sorted := merge_sort Tissa.config_le (Tissa.Archives config) in
         divisible_chain 1 (Tissa.Resolution <$> sorted)
         /\ NoDup (Tissa.Resolution <$> sorted)
         /\ t = {| Tissa.archives := created dir <$> sorted;
                   Tissa.config :=
                     {| Tissa.Archives := sorted;
                        Tissa.DefaultValue := Tissa.DefaultValue config |};
                   Tissa.LastWritten := 0 |}.
Proof. apply NewTimeSeries_iff. Qed.

(** X13. The series that [NewTimeSeries] returns is new and empty: [IsNew]
    holds, [Latest] answers no value at time 0, the archives are ordered by
    interval, hold no chunk and are written. *)
Theorem new_series_is_empty fuel dir config t :
  Tissa.NewTimeSeries fuel dir config = Ok t ->
  Tissa.IsNew t = Ok true
  /\ Tissa.Latest t = Ok (∅, 0)
  /\ Sorted Z.le (Archive.Interval <$> Tissa.archives t)
  /\ Forall (fun a => Archive.chunks a = [] /\ Archive.EndTime a = 0
                      /\ persisted a) (Tissa.archives t).
Proof.
  intros H. apply NewTimeSeries_iff in H as (Hne & _ & _ & ->).
  simpl. set (sorted := merge_sort Tissa.config_le (Tissa.Archives config)).
  assert (Hs : sorted <> []).
  { intros Hnil. apply Hne. apply Permutation_nil_r.
    rewrite <- Hnil. symmetry. apply merge_sort_Permutation. }
  split; [|split; [|split]].
  - unfold Tissa.IsNew, Tissa.baseArchive. simpl.
    by destruct sorted.
  - unfold Tissa.Latest, Tissa.baseArchive. simpl.
    by destruct sorted.
  - unfold sorted. rewrite sorted_intervals.
    assert (Htot : stdpp.base.Total Tissa.config_le)
      by (intros x y; unfold Tissa.config_le; lia).
    eapply Sorted_fmap; [|by apply (Sorted_merge_sort Tissa.config_le)].
    by intros x y Hxy.
  - apply Forall_fmap, Forall_forall. intros c _. simpl.
    split; [done|]. split; [done|]. by split.
Qed.

Lemma new_series_is_empty_witness :
  exists t,
    Tissa.NewTimeSeries 0 "d"
      {| Tissa.Archives := [Tissa.mkArchiveConfig 60 86400;
                            Tissa.mkArchiveConfig 1 3600];
         Tissa.DefaultValue := 0 |} = Ok t
    /\ Tissa.IsNew t = Ok true
    /\ Tissa.Latest t = Ok (∅, 0)
    /\ Sorted Z.le (Archive.Interval <$> Tissa.archives t)
    /\ Forall (fun a => Archive.chunks a = [] /\ Archive.EndTime a = 0
                        /\ persisted a) (Tissa.archives t).
Proof.
  eexists. split; [vm_compute; reflexivity|].
  apply (new_series_is_empty 0 "d"
           {| Tissa.Archives := [Tissa.mkArchiveConfig 60 86400;
                                 Tissa.mkArchiveConfig 1 3600];
              Tissa.DefaultValue := 0 |}).
  vm_compute. reflexivity.
Defined.

(** ** Queries at a resolution the series does not have *)

Lemma findArchive_absent l r : forall found,
  r ∉ Archive.Interval <$> l -> Tissa.findArchive l r found = found.
Proof.
  induction l as [|a l IH]; intros found Hr; simpl; [done|].
  rewrite fmap_cons in Hr. apply not_elem_of_cons in Hr as [Hne Hr].
  destruct (Z.eqb_spec (Archive.Interval a) r); [congruence|]. by apply IH.
Qed.

(** X14. [Rollups] refuses the base resolution, and a resolution that no
    archive of the series has is reported as an error before any data is
    read, by [Rollups] and, unless the resolution is 0, by the aggregate
    queries. *)
Theorem unknown_resolution_is_an_error fuel t base coarser startTime endTime :
  Tissa.archives t = base :: coarser ->
  Tissa.Rollups fuel t startTime endTime (Archive.Interval base)
  = Err "cannot get rollups from base archive"
  /\ forall r,
       r ∉ Archive.Interval <$> Tissa.archives t ->
       Tissa.Rollups fuel t startTime endTime r = Err "no matching archive"
       /\ (r <> 0 -> forall handler,
             Tissa.walkData fuel t startTime endTime r handler
             = Err "no matching archive").
Proof.
  intros Ht. split.
  - unfold Tissa.Rollups, Tissa.baseArchive. rewrite Ht. simpl.
    by rewrite Z.eqb_refl.
  - intros r Hr. rewrite Ht, fmap_cons in Hr.
    apply not_elem_of_cons in Hr as [Hne Hr].
    assert (HR : Tissa.Rollups fuel t startTime endTime r
                 = Err "no matching archive").
    { unfold Tissa.Rollups, Tissa.baseArchive. rewrite Ht. simpl.
      destruct (Z.eqb_spec r (Archive.Interval base)); [done|].
      by rewrite findArchive_absent. }
    split; [done|]. intros Hr0 handler.
    unfold Tissa.walkData, Int64.quo, Int64.rem, Tissa.baseArchive.
    destruct (Z.eqb_spec r 0); [done|]. rewrite Ht. simpl.
    destruct (Z.eqb_spec r (Archive.Interval base)); [done|].
    by rewrite HR.
Qed.


Lemma unknown_resolution_is_an_error_witness :
  Tissa.Rollups 10 second_and_minute 0 120 1
  = Err "cannot get rollups from base archive"
  /\ forall r,
       r ∉ Archive.Interval <$> Tissa.archives second_and_minute ->
       Tissa.Rollups 10 second_and_minute 0 120 r = Err "no matching archive"
       /\ (r <> 0 -> forall handler,
             Tissa.walkData 10 second_and_minute 0 120 r handler
             = Err "no matching archive").
Proof.
  apply (unknown_resolution_is_an_error 10 second_and_minute
           (created "d" (Tissa.mkArchiveConfig 1 3600))
           [created "d" (Tissa.mkArchiveConfig 60 86400)] 0 120).
  reflexivity.
Defined.

(** ** Opening a series *)


Section OpenSeries.

Import Tissa.

(** What [OpenTimeSeries] puts at the place of one configured archive. *)
Lemma openArchives_lookup d : forall cfgs archs,
  openArchives d cfgs = Ok archs ->
  length archs = length cfgs
  /\ forall i c, cfgs !! i = Some c ->
       (forall dir a, archive_dirs d !! Resolution c = Some dir ->
          Archive.OpenArchive dir = Ok a -> archs !! i = Some (Some a))
       /\ (archive_dirs d !! Resolution c = None -> archs !! i = Some None)
       /\ (forall dir msg, archive_dirs d !! Resolution c = Some dir ->
             Archive.OpenArchive dir = Err msg -> archs !! i = Some None).
Proof.
  induction cfgs as [|c0 cfgs IH]; intros archs H; simpl in H.
  - injection H as <-. split; [done|]. intros i c Hi.
    by rewrite lookup_nil in Hi.
  - bind_inv H as arch Harch. bind_inv H as rest Hrest. injection H as <-.
    destruct (IH rest Hrest) as [Hlen Hl]. split; [simpl; lia|].
    intros [|i] c Hi; simpl in Hi; [|by apply Hl].
    injection Hi as ->. simpl.
    destruct (archive_dirs d !! Resolution c) as [dir|].
    + destruct (Archive.OpenArchive dir) as [a|msg| |] eqn:Ho;
        try discriminate; injection Harch as <-.
      * split; [|split]; [|done|].
        -- intros dir' a' [= <-]. rewrite Ho. by intros [= <-].
        -- intros dir' msg [= <-]. by rewrite Ho.
      * split; [|split]; [|done|done].
        intros dir' a' [= <-]. by rewrite Ho.
    + injection Harch as <-. split; [|split]; done.
Qed.

Lemma openArchives_total d : forall cfgs,
  (forall c dir h, c ∈ cfgs -> archive_dirs d !! Resolution c = Some dir ->
     Archive.archive_file dir = Some h ->
     0 < Archive.h_EndTime h -> Archive.h_ChunkSize h <> 0) ->
  is_Ok (openArchives d cfgs).
Proof.
  induction cfgs as [|c cfgs IH]; intros Hh; simpl; [by eexists|].
  destruct IH as [rest ->].
  { intros c' dir h Hc'. apply Hh. by right. }
  destruct (archive_dirs d !! Resolution c) as [dir|] eqn:Hd;
    [|by eexists].
  unfold Archive.OpenArchive.
  destruct (Archive.archive_file dir) as [h|] eqn:Hf; [|by eexists].
  simpl. destruct (Z.ltb_spec 0 (Archive.h_EndTime h)); [|by eexists].
  unfold Archive.chunkStart. simpl.
  rewrite rem_Ok by (eapply Hh; [left|done|done|done]). simpl.
  destruct (Archive.chunk_files dir !! _); by eexists.
Qed.

End OpenSeries.

(** X15. [OpenTimeSeries] fails only when the file [config] cannot be read.
    The error of [OpenArchive] is dropped: an archive whose directory, header
    or last chunk file is missing is left as a nil entry of the series that
    is returned, at the place of its configuration. *)
Theorem OpenTimeSeries_drops_errors d cfg :
  Tissa.config_file d = Some cfg ->
  (forall c dir h, c ∈ Tissa.Archives cfg ->
     Tissa.archive_dirs d !! Tissa.Resolution c = Some dir ->
     Archive.archive_file dir = Some h ->
     0 < Archive.h_EndTime h -> Archive.h_ChunkSize h <> 0) ->
  exists archs,
    Tissa.OpenTimeSeries d
    = Ok {| Tissa.opened_archives := archs; Tissa.opened_config := cfg |}
    /\ length archs = length (Tissa.Archives cfg)
    /\ forall i c, Tissa.Archives cfg !! i = Some c ->
         (forall dir a,
            Tissa.archive_dirs d !! Tissa.Resolution c = Some dir ->
            Archive.OpenArchive dir = Ok a -> archs !! i = Some (Some a))
         /\ (Tissa.archive_dirs d !! Tissa.Resolution c = None ->
             archs !! i = Some None)
         /\ (forall dir msg,
               Tissa.archive_dirs d !! Tissa.Resolution c = Some dir ->
               Archive.OpenArchive dir = Err msg -> archs !! i = Some None).
Proof.
  intros Hcfg Hh. destruct (openArchives_total d _ Hh) as [archs Ha].
  exists archs. unfold Tissa.OpenTimeSeries. rewrite Hcfg, Ha.
  split; [done|]. by apply openArchives_lookup.
Qed.

Lemma OpenTimeSeries_drops_errors_witness :
  exists archs,
    Tissa.OpenTimeSeries
      {| Tissa.config_file :=
           Some {| Tissa.Archives := [Tissa.mkArchiveConfig 1 3600];
                   Tissa.DefaultValue := 0 |};
         Tissa.archive_dirs := ∅ |}
    = Ok {| Tissa.opened_archives := archs;
            Tissa.opened_config :=
              {| Tissa.Archives := [Tissa.mkArchiveConfig 1 3600];
                 Tissa.DefaultValue := 0 |} |}
    /\ length archs = 1%nat
    /\ forall i c, [Tissa.mkArchiveConfig 1 3600] !! i = Some c ->
         (forall dir a,
            (∅ : gmap Z Archive.directory) !! Tissa.Resolution c = Some dir ->
            Archive.OpenArchive dir = Ok a -> archs !! i = Some (Some a))
         /\ ((∅ : gmap Z Archive.directory) !! Tissa.Resolution c = None ->
             archs !! i = Some None)
         /\ (forall dir msg,
               (∅ : gmap Z Archive.directory) !! Tissa.Resolution c
               = Some dir ->
               Archive.OpenArchive dir = Err msg -> archs !! i = Some None).
Proof.
  apply (OpenTimeSeries_drops_errors
           {| Tissa.config_file :=
                Some {| Tissa.Archives := [Tissa.mkArchiveConfig 1 3600];
                        Tissa.DefaultValue := 0 |};
              Tissa.archive_dirs := ∅ |}
           {| Tissa.Archives := [Tissa.mkArchiveConfig 1 3600];
              Tissa.DefaultValue := 0 |}).
  - reflexivity.
  - intros c dir h _ Hd. simpl in Hd. by rewrite lookup_empty in Hd.
Defined.

Section ReopenSeries.

Import Tissa.

Lemma openArchives_created d dir : forall cfgs,
  (forall c, c ∈ cfgs ->
     archive_dirs d !! Resolution c = Some (Archive.disk (created dir c))) ->
  openArchives d cfgs = Ok (Some <$> (created dir <$> cfgs)).
Proof.
  induction cfgs as [|c cfgs IH]; intros Hd; simpl; [done|].
  rewrite (Hd c) by left. simpl.
  rewrite IH; [done|]. intros c' Hc'. apply Hd. by right.
Qed.

End ReopenSeries.

(** X16. A series that [NewTimeSeries] has just created can be opened:
    [OpenTimeSeries] on its directory returns the same configuration and the
    same archives, none of them nil. *)
Theorem new_series_reopens fuel dir config t :
  Tissa.NewTimeSeries fuel dir config = Ok t ->
  Tissa.OpenTimeSeries (directory_of t)
  = Ok {| Tissa.opened_archives := Some <$> Tissa.archives t;
          Tissa.opened_config := Tissa.config t |}.
Proof.
  intros H. apply NewTimeSeries_iff in H as (_ & _ & Hnd & ->).
  set (sorted := merge_sort Tissa.config_le (Tissa.Archives config)) in *.
  unfold Tissa.OpenTimeSeries. simpl.
  rewrite (openArchives_created _ dir); [done|].
  intros c Hc. simpl. apply elem_of_list_to_map_1.
  - rewrite <- !list_fmap_compose.
    by replace (_ <$> sorted) with (Tissa.Resolution <$> sorted)
      by (by apply list_fmap_ext).
  - apply list_elem_of_fmap. exists (created dir c). split; [done|].
    apply list_elem_of_fmap. by exists c.
Qed.

Lemma new_series_reopens_witness :
  exists t,
    Tissa.NewTimeSeries 0 "d"
      {| Tissa.Archives := [Tissa.mkArchiveConfig 60 86400;
                            Tissa.mkArchiveConfig 1 3600];
         Tissa.DefaultValue := 0 |} = Ok t
    /\ Tissa.OpenTimeSeries (directory_of t)
       = Ok {| Tissa.opened_archives := Some <$> Tissa.archives t;
               Tissa.opened_config := Tissa.config t |}.
Proof.
  eexists. split; [vm_compute; reflexivity|].
  apply (new_series_reopens 0 "d"
           {| Tissa.Archives := [Tissa.mkArchiveConfig 60 86400;
                                 Tissa.mkArchiveConfig 1 3600];
              Tissa.DefaultValue := 0 |}).
  vm_compute. reflexivity.
Defined.

(** ** The cascade on a well-formed series *)

Section Cascade.

Import Tissa.

Variable T : Z.









End Cascade.


Section SeriesInvariant.

Import Tissa.

Variable T : Z.





Lemma archive_ok_created P dir c :
  0 <= T -> 0 < Resolution c -> 0 <= Retention c ->
  T + 2002 * Resolution c <= Int64.max_int ->
  archive_ok P T (created dir c).
Proof.
  intros HT Hr Hret Hmax.
  assert (Hm : Int64.mul chunkSizeSlots (Resolution c)
               = 2000 * Resolution c).
  { unfold Int64.mul, chunkSizeSlots. apply wrap_id. range. lia. }
  split; simpl; rewrite ?Hm; try done; try lia.
  by exists 2000.
Qed.

Lemma series_ok_new fuel dir cfg t :
  NewTimeSeries fuel dir cfg = Ok t ->
  0 <= T ->
  Forall (fun c => 0 < Resolution c /\ 0 <= Retention c
                   /\ T + 2002 * Resolution c <= Int64.max_int)
         (Archives cfg) ->
  series_ok T t.
Proof.
  intros H HT Hcfg. apply NewTimeSeries_iff in H as (Hne & Hch & _ & ->).
  set (sorted := merge_sort config_le (Archives cfg)) in *.
  assert (Hs : Forall (fun c => 0 < Resolution c /\ 0 <= Retention c
                 /\ T + 2002 * Resolution c <= Int64.max_int) sorted).
  { unfold sorted. by rewrite merge_sort_Permutation. }
  destruct sorted as [|c cs] eqn:Hsorted.
  { exfalso. apply Hne. apply Permutation_nil_r.
    rewrite <- Hsorted. symmetry. apply merge_sort_Permutation. }
  apply Forall_cons in Hs as [(Hr & Hret & Hmax) Hs].
  simpl in Hch. destruct Hch as (_ & _ & Hch).
  exists (created dir c), (created dir <$> cs). simpl.
  split; [done|]. split; [by apply archive_ok_created|].
  split; [|split].
  - apply Forall_fmap. eapply Forall_impl; [exact Hs|].
    intros c' (? & ? & ?). by apply archive_ok_created.
  - rewrite <- list_fmap_compose.
    by replace (_ <$> cs) with (Resolution <$> cs)
      by (by apply list_fmap_ext).
  - apply Forall_fmap. eapply Forall_impl; [exact Hs|].
    intros c' (? & _) Hle. simpl in Hle. lia.
Qed.

End SeriesInvariant.





(** X19. The series that [NewTimeSeries] returns is well formed as soon as
    every configured resolution is positive, no retention is negative and
    the horizon leaves room for a chunk: the invariant that [AddValues] and
    [Write] keep holds from the start. *)
Theorem new_series_is_well_formed T fuel dir cfg t :
  Tissa.NewTimeSeries fuel dir cfg = Ok t ->
  0 <= T ->
  Forall (fun c => 0 < Tissa.Resolution c /\ 0 <= Tissa.Retention c
                   /\ T + 2002 * Tissa.Resolution c <= Int64.max_int)
         (Tissa.Archives cfg) ->
  series_ok T t.
Proof. apply series_ok_new. Qed.

Lemma new_series_is_well_formed_witness :
  series_ok 1000000 second_and_minute.
Proof.
  apply (new_series_is_well_formed 1000000 0 "d"
           (Tissa.config second_and_minute) second_and_minute);
    [reflexivity|lia|].
  repeat constructor; simpl; vm_compute; congruence.
Defined.

(** ** Queries on a well-formed series *)

Section Queries.

Import Tissa.














End Queries.

(** ** A window that ends before it starts *)

Section Reversed.

Import Tissa.

Lemma GetData_reversed fuel a s e :
  0 < Archive.Interval a -> Archive.ChunkSize a <> 0 ->
  Int64.min_int <= e -> s + Archive.Interval a <= Int64.max_int ->
  s - e + Archive.Interval a <= Int64.max_int ->
  round_up (Archive.Interval a) e < round_up (Archive.Interval a) s ->
  Archive.GetData fuel a s e = Panic.
Proof.
  intros Hr Hc He Hs Hd Hlt. set (r := Archive.Interval a) in *.
  pose proof (round_up_bounds r s Hr) as Hbs.
  pose proof (round_up_bounds r e Hr) as Hbe.
  destruct (round_up_divide r s) as [ks Hks].
  destruct (round_up_divide r e) as [ke Hke].
  assert (Hk : ke < ks) by (rewrite Hke, Hks in Hlt; nia).
  assert (Hstep : round_up r e + r <= round_up r s)
    by (rewrite Hke, Hks; nia).
  unfold Archive.GetData.
  rewrite !tsNorm_round_up by (fold r; lia). simpl. fold r.
  rewrite sub_id by (range; lia).
  assert (Hq : Z.quot (round_up r e - round_up r s) r = ke - ks).
  { rewrite Hke, Hks, <- Z.mul_sub_distr_r. apply Z.quot_mul. lia. }
  rewrite quo_Ok by (rewrite ?Hq; range; nia). simpl. rewrite Hq.
  destruct (chunkStart_Ok a (round_up r s) Hc) as [cs ->]. simpl.
  destruct (Z.ltb_spec (ke - ks) 0); [done|nia].
Qed.

(** X22. A window that ends before it starts, once both ends are rounded
    up to the interval -- as when the end is an interval or more before the
    start --, makes [GetData] panic: the slice of the timestamps is made
    with a negative length.  So does a query at the base resolution, which
    reads the base archive with the same window. *)
Theorem reversed_window_panics fuel t base coarser s e handler :
  archives t = base :: coarser ->
  0 < Archive.Interval base -> Archive.ChunkSize base <> 0 ->
  Int64.min_int <= e -> s + Archive.Interval base <= Int64.max_int ->
  s - e + Archive.Interval base <= Int64.max_int ->
  round_up (Archive.Interval base) e < round_up (Archive.Interval base) s ->
  Archive.GetData fuel base s e = Panic
  /\ walkData fuel t s e (Archive.Interval base) handler = Panic.
Proof.
  intros Ht Hr Hc He Hs Hd Hlt.
  pose proof (GetData_reversed fuel base s e Hr Hc He Hs Hd Hlt) as Hget.
  split; [done|].
  unfold walkData. rewrite rem_Ok by lia.
  unfold Int64.quo. destruct (Z.eqb_spec (Archive.Interval base) 0); [lia|].
  simpl. unfold baseArchive. rewrite Ht. simpl.
  by rewrite Z.eqb_refl, Hget.
Qed.

Lemma reversed_window_panics_witness :
  Archive.GetData 1000 (created "d" (mkArchiveConfig 1 3600)) 20 10 = Panic
  /\ walkData 1000 second_and_minute 20 10
       (Archive.Interval (created "d" (mkArchiveConfig 1 3600)))
       averageHandler
     = Panic.
Proof.
  apply (reversed_window_panics 1000 second_and_minute
           (created "d" (mkArchiveConfig 1 3600))
           [created "d" (mkArchiveConfig 60 86400)] 20 10 averageHandler);
    [reflexivity|vm_compute; congruence..].
Defined.

End Reversed.
